(** * ai-image-rename: a model of [src/main.ts] and its specification

    The program renames image files after a description obtained from a
    remote service.  This development embeds the TypeScript source as Rocq
    definitions and settles the claims of the specification against them.

    Layout:
    - JavaScript strings and the string methods the source calls;
    - the interfaces of the two libraries whose functions the source only
      calls ([change-case] and Node's [path]), as type classes;
    - the data types of the source ([Format], [ProcessResult], ...);
    - asynchronous code as programs over the calls an [await] waits for
      (file system, network, mutex), with [try]/[catch];
    - the functions of the source, in their order;
    - the environment: a file system, the mutex, the counters of [main];
    - the scheduler of [main]: a pool of pipelines interleaved at their
      [await] points under the [p-limit] bound;
    - concrete instances of the library interfaces, used by the examples;
    - the theorems. *)

From stdpp Require Import gmap strings list.
From Stdlib Require Import Ascii Arith Lia.
From Stdlib Require String.

Local Open Scope string_scope.
Local Open Scope nat_scope.
Local Open Scope list_scope.
Local Open Scope stdpp_scope.

(** ** JavaScript strings

    A string is a sequence of code units.  The model keeps to the code
    units below 256 (Rocq's [string]); lengths count code units, as
    [String.prototype.length] does. *)

Module JS.

Definition code (c : ascii) : nat := nat_of_ascii c.

(** White space and line terminators stripped by [trim], among the code
    units below 256: TAB, LF, VT, FF, CR, SP and NBSP. *)
Definition isWhiteSpace (c : ascii) : bool :=
  let n := code c in
  ((9 <=? n) && (n <=? 13) || (n =? 32) || (n =? 160))%nat.

Fixpoint trimStart (s : string) : string :=
  match s with
  | EmptyString => EmptyString
  | String c s' => if isWhiteSpace c then trimStart s' else s
  end.

Definition isEmpty (s : string) : bool :=
  match s with EmptyString => true | String _ _ => false end.

Fixpoint trimEnd (s : string) : string :=
  match s with
  | EmptyString => EmptyString
  | String c s' =>
      let r := trimEnd s' in
      if isWhiteSpace c && isEmpty r then EmptyString else String c r
  end.

(** [s.trim()] *)
Definition trim (s : string) : string := trimEnd (trimStart s).

(** [s.substring(0, n)]: the first [n] code units, all of [s] when it is
    shorter. *)
Definition substring0 (n : nat) (s : string) : string := String.substring 0 n s.

(** [s.slice(1)] *)
Definition slice1 (s : string) : string :=
  match s with EmptyString => EmptyString | String _ s' => s' end.

Definition isAsciiUpper (c : ascii) : bool := ((65 <=? code c) && (code c <=? 90))%nat.
Definition isAsciiLower (c : ascii) : bool := ((97 <=? code c) && (code c <=? 122))%nat.
Definition isDigit (c : ascii) : bool := ((48 <=? code c) && (code c <=? 57))%nat.

(** Upper-case letters of Latin-1 other than ASCII: U+00C0..U+00DE
    without the multiplication sign U+00D7. *)
Definition isLatin1Upper (c : ascii) : bool :=
  ((192 <=? code c) && (code c <=? 222) && negb (code c =? 215))%nat.

Definition lowerChar (c : ascii) : ascii :=
  if isAsciiUpper c || isLatin1Upper c then ascii_of_nat (code c + 32) else c.

Definition upperAsciiChar (c : ascii) : ascii :=
  if isAsciiLower c then ascii_of_nat (code c - 32) else c.

Fixpoint mapChars (f : ascii -> ascii) (s : string) : string :=
  match s with
  | EmptyString => EmptyString
  | String c s' => String (f c) (mapChars f s')
  end.

(** [s.toLowerCase()] *)
Definition toLowerCase (s : string) : string := mapChars lowerChar s.

(** [!s] for a string: only the empty string is falsy. *)
Definition falsy (s : string) : bool := isEmpty s.

(** [arr.includes(x)] on an array of strings *)
Definition includes (arr : list string) (x : string) : bool :=
  existsb (String.eqb x) arr.

End JS.

(** ** Library interfaces

    [import * as changeCase from 'change-case'] and [import path from
    'path'] bring in functions whose code is not part of the repository.
    The source is modelled over any implementation of the functions it
    calls; instances are given further down. *)

Class ChangeCase := {
  snakeCase : string -> string;
  kebabCase : string -> string;
  pascalCase : string -> string;
  camelCase : string -> string;
  capitalCase : string -> string;
  noCase : string -> string;
  sentenceCase : string -> string
}.

Class PathModule := {
  extname : string -> string;
  dirname : string -> string;
  (** [path.join(a, b)] *)
  join : string -> string -> string
}.

(** ** Data types of the source *)

(** [type Format = 'snake' | 'kebab' | ...] *)
Inductive Format :=
  snake | kebab | pascal | camel | capital | lowercase | sentence.

(** [type ProcessResult]: the variant [success] carries [newPath]. *)
Inductive ProcessResult :=
| Success (newPath : string)
| Skipped
| Error.

(** [type ProcessStatus = ProcessResult['status']] *)
Inductive ProcessStatus := success | skipped | error.

Definition status (r : ProcessResult) : ProcessStatus :=
  match r with
  | Success _ => success
  | Skipped => skipped
  | Error => error
  end.

Definition ALLOWED_EXTENSIONS : list string := [".png"; ".jpg"; ".jpeg"; ".webp"].

(** [interface ApiSuccessResponse]: every level may be missing, and
    [content] may be [null]. *)
Record ApiMessage := { content : option string }.
Record ApiChoice := { message : option ApiMessage }.
Record ApiSuccessResponse := { choices : option (list ApiChoice) }.

(** ** convertCase *)

(** The [switch] over [format]; its [default] branch cannot be reached
    from a value of type [Format]. *)
Definition convertCase `{ChangeCase} (name : string) (format : Format) : string :=
  let result :=
    match format with
    | snake => snakeCase name
    | kebab => kebabCase name
    | pascal => pascalCase name
    | camel => camelCase name
    | capital => capitalCase name
    | lowercase => noCase name
    | sentence => sentenceCase name
    end in
  JS.substring0 200 (JS.trim result).

(** ** Asynchronous programs

    An [async] function is a tree of the calls it awaits.  Each node is one
    call handed to the runtime together with the continuation that runs,
    without interruption, from the moment the call settles until the next
    [await].  The argument of the continuation is what the call settled
    with; a rejected promise is an ordinary answer at this level, and the
    wrappers below turn it into [Throw], as [await] does. *)

(** What [fs.stat] resolves with; the source reads [isFile()] only. *)
Record Stats := { isFile : bool }.

(** What [fetch] resolves with.  The source reads [ok] and awaits
    [json()], which gives the parsed body ([Some data]) or rejects
    ([None]); the body is fixed once the response is there, so it is kept
    in the response. *)
Record Response := { ok : bool; json : option ApiSuccessResponse }.

Inductive prog (A : Type) : Type :=
| Ret (a : A)
| Throw
| FsReadFile (path : string) (k : option string -> prog A)
| FsStat (path : string) (k : option Stats -> prog A)
| FsAccess (path : string) (k : bool -> prog A)
| FsRename (oldPath newPath : string) (k : bool -> prog A)
| HttpFetch (imageBase64 : string) (k : option Response -> prog A)
| MutexAcquire (k : prog A)
| MutexRelease (k : prog A)
| Report (imagePath : string) (result : ProcessResult) (k : prog A).

Arguments Ret {A} a.
Arguments Throw {A}.
Arguments FsReadFile {A} path k.
Arguments FsStat {A} path k.
Arguments FsAccess {A} path k.
Arguments FsRename {A} oldPath newPath k.
Arguments HttpFetch {A} imageBase64 k.
Arguments MutexAcquire {A} k.
Arguments MutexRelease {A} k.
Arguments Report {A} imagePath result k.

(** Sequencing: [const x = await m; k x]. *)
Fixpoint bind {A B} (m : prog A) (f : A -> prog B) : prog B :=
  match m with
  | Ret a => f a
  | Throw => Throw
  | FsReadFile p k => FsReadFile p (fun x => bind (k x) f)
  | FsStat p k => FsStat p (fun x => bind (k x) f)
  | FsAccess p k => FsAccess p (fun x => bind (k x) f)
  | FsRename o n k => FsRename o n (fun x => bind (k x) f)
  | HttpFetch b k => HttpFetch b (fun x => bind (k x) f)
  | MutexAcquire k => MutexAcquire (bind k f)
  | MutexRelease k => MutexRelease (bind k f)
  | Report p r k => Report p r (bind k f)
  end.

(** [try { m } catch { h }] *)
Fixpoint tryCatch {A} (m : prog A) (h : prog A) : prog A :=
  match m with
  | Ret a => Ret a
  | Throw => h
  | FsReadFile p k => FsReadFile p (fun x => tryCatch (k x) h)
  | FsStat p k => FsStat p (fun x => tryCatch (k x) h)
  | FsAccess p k => FsAccess p (fun x => tryCatch (k x) h)
  | FsRename o n k => FsRename o n (fun x => tryCatch (k x) h)
  | HttpFetch b k => HttpFetch b (fun x => tryCatch (k x) h)
  | MutexAcquire k => MutexAcquire (tryCatch k h)
  | MutexRelease k => MutexRelease (tryCatch k h)
  | Report p r k => Report p r (tryCatch k h)
  end.

(** [try { m } finally { release() }], the shape of [runExclusive]: the
    mutex is released on the way out, whether [m] returned or threw. *)
Fixpoint finallyRelease {A} (m : prog A) : prog A :=
  match m with
  | Ret a => MutexRelease (Ret a)
  | Throw => MutexRelease Throw
  | FsReadFile p k => FsReadFile p (fun x => finallyRelease (k x))
  | FsStat p k => FsStat p (fun x => finallyRelease (k x))
  | FsAccess p k => FsAccess p (fun x => finallyRelease (k x))
  | FsRename o n k => FsRename o n (fun x => finallyRelease (k x))
  | HttpFetch b k => HttpFetch b (fun x => finallyRelease (k x))
  | MutexAcquire k => MutexAcquire (finallyRelease k)
  | MutexRelease k => MutexRelease (finallyRelease k)
  | Report p r k => Report p r (finallyRelease k)
  end.

Declare Scope prog_scope.
Delimit Scope prog_scope with prog.
Notation "'let*' x ':=' m 'in' k" := (bind m (fun x => k))
  (at level 10, x name, m at level 100, k at level 200) : prog_scope.
Notation "'do*' m 'in' k" := (bind m (fun _ => k))
  (at level 10, m at level 100, k at level 200) : prog_scope.
Notation "'try' m 'catch' h" := (tryCatch m h)
  (at level 10, m at level 200, h at level 200) : prog_scope.
Local Open Scope prog_scope.

(** The awaited calls of the source. *)
Module Await.

(** [await fs.readFile(p)] *)
Definition readFile (p : string) : prog string :=
  FsReadFile p (fun r => match r with Some buf => Ret buf | None => Throw end).

(** [await fs.stat(p)] *)
Definition stat (p : string) : prog Stats :=
  FsStat p (fun r => match r with Some st => Ret st | None => Throw end).

(** [await fs.access(p, fs.constants.R_OK)] *)
Definition access (p : string) : prog unit :=
  FsAccess p (fun granted => if granted then Ret tt else Throw).

(** [await fs.rename(oldPath, newPath)] *)
Definition rename (oldPath newPath : string) : prog unit :=
  FsRename oldPath newPath (fun renamed => if renamed then Ret tt else Throw).

(** [await fetch(OPENROUTER_API_URL, {...})]; the request is fixed up to
    the image it carries.  [fetch] rejects ([None]) on a network failure
    and when [AbortSignal.timeout(10000)] fires. *)
Definition fetch (imageBase64 : string) : prog Response :=
  HttpFetch imageBase64 (fun r =>
    match r with Some response => Ret response | None => Throw end).

(** [await response.json()] *)
Definition responseJson (response : Response) : prog ApiSuccessResponse :=
  match json response with Some data => Ret data | None => Throw end.

(** [renameMutex.runExclusive(callback)] of async-mutex: acquire, run
    the callback, release in a [finally]. *)
Definition runExclusive {A} (callback : prog A) : prog A :=
  MutexAcquire (finallyRelease callback).

End Await.

(** ** Buffer.toString('base64')

    The standard alphabet with [=] padding, three bytes to four digits. *)
Module Base64.

Definition alphabet : string :=
  "ABCDEFGHIJKLMNOPQRSTUVWXYZabcdefghijklmnopqrstuvwxyz0123456789+/".

Definition digit (n : N) : ascii :=
  match String.get (N.to_nat n) alphabet with Some c => c | None => "="%char end.

Fixpoint encodeBytes (bytes : list N) : string :=
  match bytes with
  | [] => ""
  | [a] =>
      let n := (a * 65536)%N in
      String (digit (n / 262144)) (String (digit ((n / 4096) mod 64)) "==")
  | [a; b] =>
      let n := (a * 65536 + b * 256)%N in
      String (digit (n / 262144)) (String (digit ((n / 4096) mod 64))
        (String (digit ((n / 64) mod 64)) "="))
  | a :: b :: c :: rest =>
      let n := (a * 65536 + b * 256 + c)%N in
      String (digit (n / 262144)) (String (digit ((n / 4096) mod 64))
        (String (digit ((n / 64) mod 64)) (String (digit (n mod 64))
          (encodeBytes rest))))
  end.

Definition encode (buffer : string) : string :=
  encodeBytes (map N_of_ascii (String.list_ascii_of_string buffer)).

End Base64.

(** ** The functions of the source *)

Section Source.

Context `{ChangeCase} `{PathModule}.

Definition imageToBase64 (imagePath : string) : prog string :=
  let* imageBuffer := Await.readFile imagePath in
  let imageBase64 := Base64.encode imageBuffer in
  let ext := extname imagePath in
  let mimeExtension := JS.slice1 (JS.toLowerCase ext) in
  let mimeExtension := if String.eqb mimeExtension "jpg" then "jpeg" else mimeExtension in
  let mimeType := "image/" +:+ mimeExtension in
  Ret ("data:" +:+ mimeType +:+ ";base64," +:+ imageBase64).

(** [data.choices?.[0]?.message?.content?.trim()]: [None] is
    [undefined]. *)
Definition trimmedContent (data : ApiSuccessResponse) : option string :=
  cs ← choices data;
  c ← head cs;
  m ← message c;
  s ← content m;
  Some (JS.trim s).

Definition getNewFilename (imageBase64 : string) : prog string :=
  let* response := Await.fetch imageBase64 in
  if negb (ok response) then Throw
  else
    let* data := Await.responseJson response in
    match trimmedContent data with
    | None => Throw
    | Some content => if JS.falsy content then Throw else Ret content
    end.

Definition doesFileExist (filePath : string) : prog bool :=
  try (let* stats := Await.stat filePath in Ret (isFile stats))
  catch Ret false.

(** The callback handed to [renameMutex.runExclusive] by [processImage]. *)
Definition checkThenRename (imagePath newFilePath : string) : prog ProcessResult :=
  let* taken := doesFileExist newFilePath in
  if taken then Ret Skipped
  else
    do* Await.rename imagePath newFilePath in
    Ret (Success newFilePath).

Definition newFilePathOf (imagePath sanitizedName : string) : string :=
  let fileExt := extname imagePath in
  join (dirname imagePath) (sanitizedName +:+ fileExt).

(** The [try] block of [processImage]. *)
Definition processImageTry (imagePath : string) (format : Format) : prog ProcessResult :=
  let* imageBase64 := imageToBase64 imagePath in
  let* aiName := getNewFilename imageBase64 in
  if JS.falsy aiName then Ret Skipped
  else
    let sanitizedName := convertCase aiName format in
    if JS.falsy sanitizedName then Ret Skipped
    else
      let newFilePath := newFilePathOf imagePath sanitizedName in
      if String.eqb imagePath newFilePath then Ret Skipped
      else Await.runExclusive (checkThenRename imagePath newFilePath).

Definition processImage (imagePath : string) (format : Format) : prog ProcessResult :=
  try processImageTry imagePath format
  catch Ret Error.

Definition isFileReadable (filePath : string) : prog bool :=
  let* present := doesFileExist filePath in
  if negb present then Ret false
  else
    try (do* Await.access filePath in Ret true)
    catch Ret false.

(** [Set.prototype.add] on a set kept in insertion order. *)
Definition setAdd (x : string) (s : list string) : list string :=
  if JS.includes s x then s else s ++ [x].

(** The [for ... of] loop of [filterValidImagePaths] over what is left
    of [imagePaths], with the set built so far. *)
Fixpoint filterLoop (imagePaths : list string) (validImagePaths : list string)
  : prog (list string) :=
  match imagePaths with
  | [] => Ret validImagePaths
  | pth :: rest =>
      let* existsAndReadable := isFileReadable pth in
      let ext := JS.toLowerCase (extname pth) in
      if existsAndReadable && JS.includes ALLOWED_EXTENSIONS ext
      then filterLoop rest (setAdd pth validImagePaths)
      else filterLoop rest validImagePaths
  end.

Definition filterValidImagePaths (imagePaths : list string) : prog (list string) :=
  filterLoop imagePaths [].

(** The function [main] hands to [pLimitInstance] for one image: run the
    pipeline, then count the result and write the progress line. *)
Definition processingTask (imagePath : string) (filenameFormat : Format) : prog unit :=
  let* result := processImage imagePath filenameFormat in
  Report imagePath result (Ret tt).

End Source.

(** ** The environment

    The file system is a finite map from location to node.  A path names a
    location, which the operating system finds ([locate]): two spellings of
    one path ([cat.jpg] and [./cat.jpg]), a path through a link to a
    directory, the same name in another case where the file system ignores
    case, all have one location and so one node.  Two hard links to one
    file are two locations: a rename moves one name and leaves the other.  The paths of a run are
    resolved the same way from its start to its end.

    A node is a regular file, a directory, or something that [stat] reports
    as neither (a FIFO, a socket, a device).  A symbolic link that is the
    last component of a path is a node of its own: the source sees one
    that leads to a regular file as that file, and one that leads to a
    directory or nowhere as a node of the third kind (on a link that leads
    nowhere [stat] rejects, which [doesFileExist] takes as it takes the
    answer that no file is there).  [readable] is what [access] with
    [R_OK] answers.  A call can also fail for reasons that the kind and
    the permission of the node do not show: [opens] tells whether the system
    manages to open and read the node, [renamable] whether it lets the node
    be renamed (its directory can be written to, the device is not
    read-only).

    The calls behave as those of Node on a POSIX system for the cases the
    source can meet:
    - [stat] rejects on a free location and otherwise tells whether the node
      is a regular file;
    - [access] with [R_OK] is granted on a present and readable node;
    - [readFile] gives the bytes of a regular file that is readable and
      opens;
    - [rename] rejects when the old location is free, when the node is not
      renamable, when the new location holds a directory, and when a
      directory would take the place of a node; otherwise the node moves to
      the new location and replaces what was there, be it a regular file, a
      FIFO, a socket or a device. *)

Class Locations := { locate : string -> string }.

Inductive Kind := RegularFile | Directory | Other.

Record Node := {
  kind : Kind;
  readable : bool;
  opens : bool;
  renamable : bool;
  bytes : string
}.

Definition isRegular (n : Node) : bool :=
  match kind n with RegularFile => true | _ => false end.

Definition isDirectory (n : Node) : bool :=
  match kind n with Directory => true | _ => false end.

Module Fs.

Definition stat (fs : gmap string Node) (location : string) : option Stats :=
  match fs !! location with
  | Some n => Some {| isFile := isRegular n |}
  | None => None
  end.

Definition access (fs : gmap string Node) (location : string) : bool :=
  match fs !! location with
  | Some n => readable n
  | None => false
  end.

Definition readFile (fs : gmap string Node) (location : string) : option string :=
  match fs !! location with
  | Some n => if isRegular n && readable n && opens n then Some (bytes n) else None
  | None => None
  end.

Definition rename (fs : gmap string Node) (oldLocation newLocation : string)
  : option (gmap string Node) :=
  match fs !! oldLocation with
  | None => None
  | Some src =>
      if negb (renamable src) then None
      else
        match fs !! newLocation with
        | Some dst =>
            if isDirectory src || isDirectory dst
            then None
            else Some (<[newLocation := src]> (delete oldLocation fs))
        | None => Some (<[newLocation := src]> (delete oldLocation fs))
        end
  end.

End Fs.

(** The calls issued to the outside, recorded in the order they are made. *)
Inductive Call :=
| CallReadFile (path : string)
| CallStat (path : string)
| CallAccess (path : string)
| CallRename (oldPath newPath : string)
| CallFetch (imageBase64 : string).

Definition isRenameCall (c : Call) : bool :=
  match c with CallRename _ _ => true | _ => false end.

(** [const results: Record<ProcessStatus, number>] *)
Record Results := { ofSuccess : nat; ofSkipped : nat; ofError : nat }.

Definition increment (s : ProcessStatus) (r : Results) : Results :=
  match s with
  | success => {| ofSuccess := S (ofSuccess r); ofSkipped := ofSkipped r; ofError := ofError r |}
  | skipped => {| ofSuccess := ofSuccess r; ofSkipped := S (ofSkipped r); ofError := ofError r |}
  | error => {| ofSuccess := ofSuccess r; ofSkipped := ofSkipped r; ofError := S (ofError r) |}
  end.

(** One [log.message] line of [main]: the image, its result, and the value
    of [done] printed with it. *)
Record Progress := { image : string; outcome : ProcessResult; doneSoFar : nat }.

(** Everything the pipelines share: the file system, [renameMutex], and the
    variables [results] and [done] of [main] with the lines written so far.
    [calls] records the calls made, oldest first. *)
Record World := {
  files : gmap string Node;
  locked : bool;
  results : Results;
  done : nat;
  progress : list Progress;
  calls : list Call
}.

Definition called (c : Call) (σ : World) : World :=
  {| files := files σ; locked := locked σ; results := results σ; done := done σ;
     progress := progress σ; calls := calls σ ++ [c] |}.

Definition withFiles (fs : gmap string Node) (σ : World) : World :=
  {| files := fs; locked := locked σ; results := results σ; done := done σ;
     progress := progress σ; calls := calls σ |}.

Definition withLocked (b : bool) (σ : World) : World :=
  {| files := files σ; locked := b; results := results σ; done := done σ;
     progress := progress σ; calls := calls σ |}.

(** [results[result.status]++; done++; log.message(...)] *)
Definition reported (imagePath : string) (result : ProcessResult) (σ : World) : World :=
  {| files := files σ; locked := locked σ;
     results := increment (status result) (results σ);
     done := S (done σ);
     progress := progress σ ++
       [{| image := imagePath; outcome := result; doneSoFar := S (done σ) |}];
     calls := calls σ |}.

Definition initialWorld (fs : gmap string Node) : World :=
  {| files := fs; locked := false;
     results := {| ofSuccess := 0; ofSkipped := 0; ofError := 0 |};
     done := 0; progress := []; calls := [] |}.

(** One call of a program against the world: the call is made, and the
    continuation runs up to the next call.  [None] when the program has
    ended, and when it waits for a mutex that is held.  [net] is what the
    remote service answers to a request. *)
Definition step `{Locations} {A} (net : string -> option Response) (p : prog A)
    (σ : World) : option (prog A * World) :=
  match p with
  | Ret _ | Throw => None
  | FsReadFile path k =>
      Some (k (Fs.readFile (files σ) (locate path)), called (CallReadFile path) σ)
  | FsStat path k =>
      Some (k (Fs.stat (files σ) (locate path)), called (CallStat path) σ)
  | FsAccess path k =>
      Some (k (Fs.access (files σ) (locate path)), called (CallAccess path) σ)
  | FsRename o n k =>
      match Fs.rename (files σ) (locate o) (locate n) with
      | Some fs' => Some (k true, withFiles fs' (called (CallRename o n) σ))
      | None => Some (k false, called (CallRename o n) σ)
      end
  | HttpFetch b k => Some (k (net b), called (CallFetch b) σ)
  | MutexAcquire k => if locked σ then None else Some (k, withLocked true σ)
  | MutexRelease k => Some (k, withLocked false σ)
  | Report path r k => Some (k, reported path r σ)
  end.

(** How a program run on its own ends. *)
Inductive Outcome (A : Type) :=
| Returned (a : A)
| Thrown
| Waiting.

Arguments Returned {A} a.
Arguments Thrown {A}.
Arguments Waiting {A}.

(** A program run to its end with nothing else running in between. *)
Fixpoint exec `{Locations} {A} (net : string -> option Response) (p : prog A)
    (σ : World) : Outcome A * World :=
  match p with
  | Ret a => (Returned a, σ)
  | Throw => (Thrown, σ)
  | FsReadFile path k =>
      exec net (k (Fs.readFile (files σ) (locate path))) (called (CallReadFile path) σ)
  | FsStat path k =>
      exec net (k (Fs.stat (files σ) (locate path))) (called (CallStat path) σ)
  | FsAccess path k =>
      exec net (k (Fs.access (files σ) (locate path))) (called (CallAccess path) σ)
  | FsRename o n k =>
      match Fs.rename (files σ) (locate o) (locate n) with
      | Some fs' => exec net (k true) (withFiles fs' (called (CallRename o n) σ))
      | None => exec net (k false) (called (CallRename o n) σ)
      end
  | HttpFetch b k => exec net (k (net b)) (called (CallFetch b) σ)
  | MutexAcquire k => if locked σ then (Waiting, σ) else exec net k (withLocked true σ)
  | MutexRelease k => exec net k (withLocked false σ)
  | Report path r k => exec net k (reported path r σ)
  end.

(** ** The scheduler of [main]

    [pLimit(concurrencyLimit)] holds the functions it was given in a queue
    and starts one when fewer than [concurrencyLimit] are running.  The
    running pipelines advance one call at a time, in any order.

    The runtime runs one continuation at a time, and the effect of an
    awaited call falls between the code before the [await] and the code
    after it.  A step is that effect followed by the code after it, up to
    the next call; the code after a call touches nothing that is shared
    except through the mutex and the report, which are steps of their own.
    So every order in which the runtime can settle the calls and run the
    continuations is an order of steps.  The model has more orders than
    the libraries allow: p-limit starts the queued functions in the order
    of the queue and async-mutex serves its waiters in turn, whereas here
    any queued function may start and any waiter may get the mutex.  What
    holds of every order here holds of every run. *)

Inductive Slot :=
| Queued (p : prog unit)
| Running (p : prog unit).

Definition settled (s : Slot) : bool :=
  match s with
  | Running (Ret _) | Running Throw => true
  | _ => false
  end.

Definition active (s : Slot) : bool :=
  match s with
  | Running p => negb (settled s)
  | Queued _ => false
  end.

Definition activeCount (slots : list Slot) : nat :=
  length (filter (fun s => active s = true) slots).

Record Pool := { world : World; slots : list Slot }.

(** The slot [i] moves: a queued function starts if the limit allows, a
    running one makes its next call.  [net i] answers the request of the
    pipeline in slot [i]. *)
Definition poolStep `{Locations} (net : nat -> string -> option Response)
    (concurrencyLimit : nat) (i : nat) (c : Pool) : option Pool :=
  match slots c !! i with
  | Some (Queued p) =>
      if activeCount (slots c) <? concurrencyLimit
      then Some {| world := world c; slots := <[i := Running p]> (slots c) |}
      else None
  | Some (Running p) =>
      match step (net i) p (world c) with
      | Some (p', σ') => Some {| world := σ'; slots := <[i := Running p']> (slots c) |}
      | None => None
      end
  | None => None
  end.

Definition poolNext `{Locations} net concurrencyLimit (c c' : Pool) : Prop :=
  ∃ i, poolStep net concurrencyLimit i c = Some c'.

(** Every pool the scheduler can be in after some steps from [c]. *)
Definition reaches `{Locations} net concurrencyLimit : Pool → Pool → Prop :=
  rtc (poolNext net concurrencyLimit).

(** The slots along a schedule, given as the list of the slots that move. *)
Fixpoint runSchedule `{Locations} net concurrencyLimit (schedule : list nat) (c : Pool)
  : option Pool :=
  match schedule with
  | [] => Some c
  | i :: rest =>
      match poolStep net concurrencyLimit i c with
      | Some c' => runSchedule net concurrencyLimit rest c'
      | None => None
      end
  end.

(** [await Promise.all(processingTasks)] resolves: every function has
    returned. *)
Definition returned (s : Slot) : bool :=
  match s with Running (Ret _) => true | _ => false end.

Definition completed (c : Pool) : bool := forallb returned (slots c).

Section Main.

Context `{ChangeCase} `{PathModule} `{Locations}.

(** [Array.from(validImagePaths).map(imagePath => pLimitInstance(...))] *)
Definition processingTasks (validImagePaths : list string) (filenameFormat : Format)
  : list Slot :=
  map (fun imagePath => Queued (processingTask imagePath filenameFormat)) validImagePaths.

Definition startPool (validImagePaths : list string) (filenameFormat : Format)
    (σ : World) : Pool :=
  {| world := σ; slots := processingTasks validImagePaths filenameFormat |}.

(** What [filterValidImagePaths] gives on the arguments of the command
    line, on a file system [fs]; the filter makes no request. *)
Definition validImagePathsOf (fs : gmap string Node) (argv : list string)
  : Outcome (list string) * World :=
  exec (fun _ => None) (filterValidImagePaths argv) (initialWorld fs).

(** [main] from the filter to the start of the tasks.  [main] exits
    earlier when the key of the service is not set and when the command
    line has no argument; it exits here ([None]) when no path is valid.
    The prompts between the filter and the tasks give [filenameFormat] and
    [concurrencyLimit], which is at least 1 ([validate]). *)
Definition mainPool (fs : gmap string Node) (argv : list string)
    (filenameFormat : Format) : option Pool :=
  match validImagePathsOf fs argv with
  | (Returned validImagePaths, σ) =>
      match validImagePaths with
      | [] => None
      | _ => Some (startPool validImagePaths filenameFormat σ)
      end
  | _ => None
  end.

End Main.

(** ** An instance of [change-case]

    The functions of the package (version 5, where [kebabCase] and the
    others are exports of the one module), for strings of ASCII
    characters: the letter classes of its regular expressions are taken
    within ASCII, and a character outside ASCII separates words. *)

Module ChangeCaseAscii.

Definition NUL : ascii := "000"%char.

Definition isLower (c : ascii) : bool := JS.isAsciiLower c.
Definition isUpper (c : ascii) : bool := JS.isAsciiUpper c.
Definition isWord (c : ascii) : bool := isLower c || isUpper c || JS.isDigit c.
Definition isNul (c : ascii) : bool := Ascii.eqb c NUL.

(** [.replace(SPLIT_LOWER_UPPER_RE, "$1\0$2")]: a lower-case letter or a
    digit followed by an upper-case letter. *)
Fixpoint splitLowerUpper (l : list ascii) : list ascii :=
  match l with
  | [] => []
  | a :: tl =>
      match tl with
      | b :: _ =>
          if (isLower a || JS.isDigit a) && isUpper b
          then a :: NUL :: splitLowerUpper tl
          else a :: splitLowerUpper tl
      | [] => [a]
      end
  end.

(** [.replace(SPLIT_UPPER_UPPER_RE, "$1\0$2")]: an upper-case letter
    followed by an upper-case and a lower-case letter. *)
Fixpoint splitUpperUpper (l : list ascii) : list ascii :=
  match l with
  | [] => []
  | a :: tl =>
      match tl with
      | b :: c :: _ =>
          if isUpper a && isUpper b && isLower c
          then a :: NUL :: splitUpperUpper tl
          else a :: splitUpperUpper tl
      | _ => a :: splitUpperUpper tl
      end
  end.

(** [.replace(DEFAULT_STRIP_REGEXP, "\0")]: each run of characters that
    are neither letters nor digits becomes one NUL. *)
Fixpoint strip (inRun : bool) (l : list ascii) : list ascii :=
  match l with
  | [] => []
  | a :: tl =>
      if isWord a then a :: strip false tl
      else if inRun then strip true tl
      else NUL :: strip true tl
  end.

Fixpoint dropNulStart (l : list ascii) : list ascii :=
  match l with
  | [] => []
  | a :: tl => if isNul a then dropNulStart tl else l
  end.

Definition dropNulEnd (l : list ascii) : list ascii :=
  rev (dropNulStart (rev l)).

(** [s.split(/\0/g)] *)
Fixpoint splitNul (l : list ascii) : list (list ascii) :=
  match l with
  | [] => [[]]
  | a :: tl =>
      let r := splitNul tl in
      if isNul a then [] :: r
      else match r with
           | w :: ws => (a :: w) :: ws
           | [] => [[a]]
           end
  end.

Definition split (value : string) : list string :=
  let result := String.list_ascii_of_string (JS.trim value) in
  let result := splitUpperUpper (splitLowerUpper result) in
  let result := strip false result in
  match dropNulStart result with
  | [] => []
  | started => map String.string_of_list_ascii (splitNul (dropNulEnd started))
  end.

Definition lower (s : string) : string := JS.toLowerCase s.
Definition upper (s : string) : string := JS.mapChars JS.upperAsciiChar s.

Definition char0 (word : string) : string :=
  match word with EmptyString => "" | String c _ => String c "" end.

Definition capitalCaseTransform (word : string) : string :=
  upper (char0 word) +:+ lower (JS.slice1 word).

Definition pascalCaseTransform (index : nat) (word : string) : string :=
  let initial :=
    match word with
    | String c _ =>
        if (0 <? index) && JS.isDigit c then "_" +:+ char0 word else upper (char0 word)
    | EmptyString => ""
    end in
  initial +:+ lower (JS.slice1 word).

Definition noCaseWith (delimiter : string) (input : string) : string :=
  String.concat delimiter (map lower (split input)).

Definition pascalCase (input : string) : string :=
  String.concat "" (imap pascalCaseTransform (split input)).

Definition camelCase (input : string) : string :=
  String.concat ""
    (imap (fun index word =>
             if index =? 0 then lower word else pascalCaseTransform index word)
          (split input)).

Definition capitalCase (input : string) : string :=
  String.concat " " (map capitalCaseTransform (split input)).

Definition sentenceCase (input : string) : string :=
  String.concat " "
    (imap (fun index word =>
             if index =? 0 then capitalCaseTransform word else lower word)
          (split input)).

(** [snakeCase] and [kebabCase] are [noCase] with another delimiter. *)
#[export] Instance instance : ChangeCase :=
  Build_ChangeCase (noCaseWith "_") (noCaseWith "-") pascalCase camelCase
    capitalCase (noCaseWith " ") sentenceCase.

End ChangeCaseAscii.

(** ** An instance of [path]: [path.posix] *)

Module PathPosix.

Definition slash : ascii := "/"%char.
Definition dot : ascii := "."%char.
Definition isSlash (c : ascii) : bool := Ascii.eqb c slash.
Definition isDot (c : ascii) : bool := Ascii.eqb c dot.

Definition ofList := String.string_of_list_ascii.
Definition toList := String.list_ascii_of_string.

Fixpoint dropSlashes (l : list ascii) : list ascii :=
  match l with
  | [] => []
  | a :: tl => if isSlash a then dropSlashes tl else l
  end.

Fixpoint takeToSlash (l : list ascii) : list ascii :=
  match l with
  | [] => []
  | a :: tl => if isSlash a then [] else a :: takeToSlash tl
  end.

(** The last component of a path with its trailing slashes removed, read
    backwards. *)
Definition lastComponentRev (p : string) : list ascii :=
  takeToSlash (dropSlashes (rev (toList p))).

Fixpoint takeToDot (l : list ascii) : option (list ascii) :=
  match l with
  | [] => None
  | a :: tl =>
      if isDot a then Some [a]
      else match takeToDot tl with
           | Some r => Some (a :: r)
           | None => None
           end
  end.

(** [path.extname]: from the last dot of the last component to its end;
    empty when there is no dot, when the only dot opens the component,
    and for the component [..]. *)
Definition extname (p : string) : string :=
  let component := lastComponentRev p in
  match takeToDot component with
  | None => ""
  | Some extRev =>
      if length extRev =? length component then ""
      else if (length component =? 2) && forallb isDot component then ""
      else ofList (rev extRev)
  end.

(** The loop of [path.dirname] from index [i] down to 1, over the
    characters at these indices read backwards. *)
Fixpoint dirnameEnd (l : list ascii) (i : nat) (matchedSlash : bool) : option nat :=
  match l with
  | [] => None
  | a :: tl =>
      if isSlash a
      then if negb matchedSlash then Some i else dirnameEnd tl (i - 1) matchedSlash
      else dirnameEnd tl (i - 1) false
  end.

Definition dirname (p : string) : string :=
  match toList p with
  | [] => "."
  | c0 :: tl =>
      let hasRoot := isSlash c0 in
      match dirnameEnd (rev tl) (length tl) true with
      | None => if hasRoot then "/" else "."
      | Some e => if hasRoot && (e =? 1) then "//" else JS.substring0 e p
      end
  end.

(** [s.split('/')] *)
Fixpoint segments (l : list ascii) : list (list ascii) :=
  match l with
  | [] => [[]]
  | a :: tl =>
      let r := segments tl in
      if isSlash a then [] :: r
      else match r with
           | w :: ws => (a :: w) :: ws
           | [] => [[a]]
           end
  end.

Definition isDotDot (seg : list ascii) : bool :=
  (length seg =? 2) && forallb isDot seg.

(** [normalizeString]: the segments kept so far are in [kept], last
    first. *)
Fixpoint normalizeSegments (allowAboveRoot : bool) (segs kept : list (list ascii))
  : list (list ascii) :=
  match segs with
  | [] => rev kept
  | seg :: rest =>
      if (length seg =? 0) || ((length seg =? 1) && forallb isDot seg)
      then normalizeSegments allowAboveRoot rest kept
      else if isDotDot seg then
        match kept with
        | top :: below =>
            if isDotDot top
            then normalizeSegments allowAboveRoot rest
                   (if allowAboveRoot then seg :: kept else kept)
            else normalizeSegments allowAboveRoot rest below
        | [] =>
            normalizeSegments allowAboveRoot rest
              (if allowAboveRoot then [seg] else [])
        end
      else normalizeSegments allowAboveRoot rest (seg :: kept)
  end.

Definition joinSegments (segs : list (list ascii)) : string :=
  String.concat "/" (map ofList segs).

Definition normalize (p : string) : string :=
  match toList p with
  | [] => "."
  | c0 :: _ =>
      let isAbsolute := isSlash c0 in
      let trailingSeparator :=
        match rev (toList p) with a :: _ => isSlash a | [] => false end in
      let body := joinSegments (normalizeSegments (negb isAbsolute) (segments (toList p)) []) in
      if JS.isEmpty body then
        if isAbsolute then "/" else if trailingSeparator then "./" else "."
      else
        let body := if trailingSeparator then body +:+ "/" else body in
        if isAbsolute then "/" +:+ body else body
  end.

(** [path.join(a, b)] *)
Definition join (a b : string) : string :=
  if JS.isEmpty a then (if JS.isEmpty b then "." else normalize b)
  else if JS.isEmpty b then normalize a
  else normalize (a +:+ "/" +:+ b).

#[export] Instance instance : PathModule := Build_PathModule extname dirname join.

(** The locations of a file system without links that keeps the case of
    its names, for paths given from the root or from one working
    directory: the normal form of the path. *)
#[export] Instance locations : Locations := {| locate := normalize |}.

End PathPosix.


(** ** Notions used in the statements *)

(** The function of [change-case] that [convertCase] selects for a format. *)
Definition casingOf `{ChangeCase} (format : Format) : string -> string :=
  match format with
  | snake => snakeCase
  | kebab => kebabCase
  | pascal => pascalCase
  | camel => camelCase
  | capital => capitalCase
  | lowercase => noCase
  | sentence => sentenceCase
  end.

(** Strings of white space, and strings with white space at an end. *)
Definition allWhiteSpace (s : string) : bool :=
  forallb JS.isWhiteSpace (String.list_ascii_of_string s).

Definition startsWithWhiteSpace (s : string) : bool :=
  match s with
  | String c _ => JS.isWhiteSpace c
  | EmptyString => false
  end.

Fixpoint endsWithWhiteSpace (s : string) : bool :=
  match s with
  | EmptyString => false
  | String c EmptyString => JS.isWhiteSpace c
  | String _ s' => endsWithWhiteSpace s'
  end.

(** A program that returns a value however its calls are answered: no
    branch of it ends in [Throw]. *)
Inductive Returns {A} : prog A -> Prop :=
| Returns_Ret a : Returns (Ret a)
| Returns_ReadFile p k : (forall x, Returns (k x)) -> Returns (FsReadFile p k)
| Returns_Stat p k : (forall x, Returns (k x)) -> Returns (FsStat p k)
| Returns_Access p k : (forall x, Returns (k x)) -> Returns (FsAccess p k)
| Returns_Rename o n k : (forall x, Returns (k x)) -> Returns (FsRename o n k)
| Returns_Fetch b k : (forall x, Returns (k x)) -> Returns (HttpFetch b k)
| Returns_Acquire k : Returns k -> Returns (MutexAcquire k)
| Returns_Release k : Returns k -> Returns (MutexRelease k)
| Returns_Report p r k : Returns k -> Returns (Report p r k).

(** The calls of [σ'] that were made after those of [σ]. *)
Definition callsSince (σ σ' : World) : list Call := drop (length (calls σ)) (calls σ').

(** No call to [fs.rename] among a list of calls. *)
Definition noRename (cs : list Call) : Prop := forallb (fun c => negb (isRenameCall c)) cs = true.

(** The image the pipeline sends for a file with the given bytes. *)
Definition dataUrlOf `{PathModule} (imagePath buffer : string) : string :=
  let mimeExtension := JS.slice1 (JS.toLowerCase (extname imagePath)) in
  let mimeExtension := if String.eqb mimeExtension "jpg" then "jpeg" else mimeExtension in
  "data:" +:+ ("image/" +:+ mimeExtension) +:+ ";base64," +:+ Base64.encode buffer.

(** What [getNewFilename] makes of an answer to its request: the trimmed
    text when the answer is a response with [ok] set, a body that parses
    and a text that is not empty once trimmed. *)
Definition usableText (answer : option Response) : option string :=
  match answer with
  | Some response =>
      if ok response then
        match json response with
        | Some data =>
            match trimmedContent data with
            | Some text => if JS.isEmpty text then None else Some text
            | None => None
            end
        | None => None
        end
      else None
  | None => None
  end.

(** A failed description, by its cause: the request was rejected or timed
    out; the response is not [ok]; its body does not parse; the body has no
    text; the text is empty once trimmed. *)
Inductive DescribeFailure : option Response -> Prop :=
| Failure_rejected : DescribeFailure None
| Failure_status response :
    ok response = false -> DescribeFailure (Some response)
| Failure_body response :
    json response = None -> DescribeFailure (Some response)
| Failure_no_text response data :
    json response = Some data -> trimmedContent data = None ->
    DescribeFailure (Some response)
| Failure_empty_text response data :
    json response = Some data -> trimmedContent data = Some "" ->
    DescribeFailure (Some response).

(** The results counted from a list of outcomes. *)
Definition tally (outcomes : list ProcessResult) : Results :=
  fold_left (fun r o => increment (status o) r) outcomes
    {| ofSuccess := 0; ofSkipped := 0; ofError := 0 |}.

(** [results] and [done] count the progress lines written so far. *)
Definition Tallied (σ : World) : Prop :=
  results σ = tally (map outcome (progress σ)) /\ done σ = length (progress σ).

(** The shape of a program that takes and releases the mutex in turns:
    [Shape leaf held p] when [p], started with the mutex held by it or not
    ([held]), makes calls to the file system and the network, never
    acquires the mutex while holding it nor releases it otherwise, and
    along every branch comes, with the mutex released, to a program in
    [leaf]. *)
Inductive Shape {A} (leaf : prog A -> Prop) : bool -> prog A -> Prop :=
| Shape_leaf q : leaf q -> Shape leaf false q
| Shape_ReadFile held p k :
    (forall x, Shape leaf held (k x)) -> Shape leaf held (FsReadFile p k)
| Shape_Stat held p k :
    (forall x, Shape leaf held (k x)) -> Shape leaf held (FsStat p k)
| Shape_Access held p k :
    (forall x, Shape leaf held (k x)) -> Shape leaf held (FsAccess p k)
| Shape_Rename held o n k :
    (forall x, Shape leaf held (k x)) -> Shape leaf held (FsRename o n k)
| Shape_Fetch held b k :
    (forall x, Shape leaf held (k x)) -> Shape leaf held (HttpFetch b k)
| Shape_Acquire k : Shape leaf true k -> Shape leaf false (MutexAcquire k)
| Shape_Release k : Shape leaf false k -> Shape leaf true (MutexRelease k).

Definition isRet {A} (q : prog A) : Prop := exists a, q = Ret a.
Definition isRetOrThrow {A} (q : prog A) : Prop := (exists a, q = Ret a) \/ q = Throw.

(** What is left of the task of [imagePath] before its report: calls, the
    mutex in turns, then the one report for [imagePath], then the end. *)
Definition isReportOf (imagePath : string) (q : prog unit) : Prop :=
  exists result, q = Report imagePath result (Ret tt).

Definition Residual (imagePath : string) : bool -> prog unit -> Prop :=
  Shape (isReportOf imagePath).

(** Whether a program is inside the critical section: followed along the
    branch where every call fails, it releases the mutex before it would
    acquire it. *)
Fixpoint holdsMutex {A} (p : prog A) : bool :=
  match p with
  | Ret _ | Throw => false
  | FsReadFile _ k => holdsMutex (k None)
  | FsStat _ k => holdsMutex (k None)
  | FsAccess _ k => holdsMutex (k false)
  | FsRename _ _ k => holdsMutex (k false)
  | HttpFetch _ k => holdsMutex (k None)
  | MutexAcquire _ => false
  | MutexRelease _ => true
  | Report _ _ k => holdsMutex k
  end.

Definition slotHolds (s : Slot) : bool :=
  match s with
  | Running p => holdsMutex p
  | Queued _ => false
  end.

Definition holders (ss : list Slot) : nat :=
  sum_list_with (fun s => if slotHolds s then 1 else 0) ss.

(** A program that makes at most [n] calls along every branch. *)
Inductive Within {A} : nat -> prog A -> Prop :=
| Within_Ret n a : Within n (Ret a)
| Within_Throw n : Within n Throw
| Within_ReadFile n p k : (forall x, Within n (k x)) -> Within (S n) (FsReadFile p k)
| Within_Stat n p k : (forall x, Within n (k x)) -> Within (S n) (FsStat p k)
| Within_Access n p k : (forall x, Within n (k x)) -> Within (S n) (FsAccess p k)
| Within_Rename n o d k : (forall x, Within n (k x)) -> Within (S n) (FsRename o d k)
| Within_Fetch n b k : (forall x, Within n (k x)) -> Within (S n) (HttpFetch b k)
| Within_Acquire n k : Within n k -> Within (S n) (MutexAcquire k)
| Within_Release n k : Within n k -> Within (S n) (MutexRelease k)
| Within_Report n p r k : Within n k -> Within (S n) (Report p r k).

(** The steps a slot has left at most: its calls, and its start when it
    is queued. *)
Definition SlotWithin (n : nat) (s : Slot) : Prop :=
  match s with
  | Queued p => exists m, n = S m /\ Within m p
  | Running p => Within n p
  end.

(** The number of tasks that have not returned yet. *)
Definition unreturned (ss : list Slot) : nat :=
  sum_list_with (fun s => if returned s then 0 else 1) ss.

(** The paths whose task has returned, in the order of the tasks. *)
Fixpoint returnedPaths (paths : list string) (ss : list Slot) : list string :=
  match paths, ss with
  | p :: paths', s :: ss' =>
      if returned s then p :: returnedPaths paths' ss' else returnedPaths paths' ss'
  | _, _ => []
  end.

Section PoolInvariant.

Context `{ChangeCase} `{PathModule}.

(** A slot of the pool started for [imagePath]: the task still queued,
    the task somewhere before its report, or the task returned. *)
Definition SlotOf (format : Format) (imagePath : string) (s : Slot) : Prop :=
  match s with
  | Queued q => q = processingTask imagePath format
  | Running q => q = Ret tt \/ exists held, Residual imagePath held q
  end.

(** What holds of every pool [main] can be in, for the valid paths
    [paths]: one slot per path; one progress line per returned task, in
    the order of the reports; counters that count these lines; the mutex
    held exactly when one task is inside the critical section. *)
Definition PoolInvariant (format : Format) (paths : list string) (c : Pool) : Prop :=
  Forall2 (SlotOf format) paths (slots c) /\
  map image (progress (world c)) ≡ₚ returnedPaths paths (slots c) /\
  Tallied (world c) /\
  holders (slots c) = (if locked (world c) then 1 else 0).

End PoolInvariant.

(** A readable regular file at a path. *)
Definition readableFile `{Locations} (fs : gmap string Node) (pth : string) : bool :=
  match fs !! locate pth with
  | Some n => isRegular n && readable n
  | None => false
  end.

(** An extension of the allowed set, whatever its case. *)
Definition allowedExtension `{PathModule} (pth : string) : bool :=
  JS.includes ALLOWED_EXTENSIONS (JS.toLowerCase (extname pth)).

(** The set [filterValidImagePaths] builds, from the set built so far. *)
Definition validAmong `{PathModule} `{Locations} (fs : gmap string Node)
    (imagePaths : list string) (validImagePaths : list string) : list string :=
  fold_left
    (fun valid pth =>
       if readableFile fs pth && allowedExtension pth then setAdd pth valid else valid)
    imagePaths validImagePaths.

(** A progress line without its number. *)
Definition lineOf (l : Progress) : string * ProcessResult := (image l, outcome l).

(** ** Renames made with care *)

Definition programOf (s : Slot) : prog unit :=
  match s with Queued p | Running p => p end.

(** An answer of [fs.stat] after which [doesFileExist] says that no file
    is there: the call was rejected, or what it found is no regular
    file. *)
Definition noFile (answer : option Stats) : bool :=
  match answer with
  | Some stats => negb (isFile stats)
  | None => true
  end.

(** A program that renames with care.  [Careful own cleared p]: every
    [fs.rename] call of [p] moves [own], is made inside the critical
    section, and comes right after a [stat] of its destination that found
    no regular file there.  [cleared] is the destination the last call
    found clear in this way, if the last call was such a [stat]. *)
Inductive Careful {A} (own : string) : option string -> prog A -> Prop :=
| Careful_Ret cleared a : Careful own cleared (Ret a)
| Careful_Throw cleared : Careful own cleared Throw
| Careful_ReadFile cleared p k :
    (forall x, Careful own None (k x)) -> Careful own cleared (FsReadFile p k)
| Careful_Stat cleared d k :
    (forall x, Careful own (if noFile x then Some d else None) (k x)) ->
    Careful own cleared (FsStat d k)
| Careful_Access cleared p k :
    (forall x, Careful own None (k x)) -> Careful own cleared (FsAccess p k)
| Careful_Rename d k :
    holdsMutex (k false) = true ->
    (forall x, Careful own None (k x)) -> Careful own (Some d) (FsRename own d k)
| Careful_Fetch cleared b k :
    (forall x, Careful own None (k x)) -> Careful own cleared (HttpFetch b k)
| Careful_Acquire cleared k : Careful own None k -> Careful own cleared (MutexAcquire k)
| Careful_Release cleared k : Careful own None k -> Careful own cleared (MutexRelease k)
| Careful_Report cleared p r k : Careful own None k -> Careful own cleared (Report p r k).

(** A slot of the task of [own] on the files [fs]: its program renames
    with care, and a destination it has found clear inside the critical
    section still is. *)
Definition CarefulSlot `{Locations} (fs : gmap string Node) (own : string) (s : Slot)
  : Prop :=
  exists cleared,
    Careful own cleared (programOf s) /\
    forall d, cleared = Some d -> slotHolds s = true ->
      noFile (Fs.stat fs (locate d)) = true.

(** ** Two images with one destination

    The pools of a run of [main] in which the pipelines of two of the
    images compute the same new path [newFilePath].  The two tasks are
    followed through the phases of their program; of the other tasks of
    the run it is known only that they rename with care and elsewhere. *)

(** A program that makes no [fs.rename] call to a path at [location],
    whatever the file system answers, when the service answers its
    request by [answers]. *)
Inductive Avoids `{Locations} {A} (location : string)
    (answers : string -> option Response) : prog A -> Prop :=
| Avoids_Ret a : Avoids location answers (Ret a)
| Avoids_Throw : Avoids location answers Throw
| Avoids_ReadFile p k :
    (forall x, Avoids location answers (k x)) -> Avoids location answers (FsReadFile p k)
| Avoids_Stat p k :
    (forall x, Avoids location answers (k x)) -> Avoids location answers (FsStat p k)
| Avoids_Access p k :
    (forall x, Avoids location answers (k x)) -> Avoids location answers (FsAccess p k)
| Avoids_Rename o d k :
    locate d <> location ->
    (forall x, Avoids location answers (k x)) -> Avoids location answers (FsRename o d k)
| Avoids_Fetch b k :
    Avoids location answers (k (answers b)) -> Avoids location answers (HttpFetch b k)
| Avoids_Acquire k : Avoids location answers k -> Avoids location answers (MutexAcquire k)
| Avoids_Release k : Avoids location answers k -> Avoids location answers (MutexRelease k)
| Avoids_Report p r k : Avoids location answers k -> Avoids location answers (Report p r k).

Module Race.

(** One of the two images: its path, the node at this path when the run
    starts, and what the service answers to its request. *)
Record Contender := {
  imagePath : string;
  node : Node;
  answers : string -> option Response
}.

Inductive Phase :=
| Queueing        (* handed to p-limit, not started *)
| Reading         (* about to read the file *)
| Describing      (* about to send the request *)
| Locking         (* about to acquire the mutex *)
| Checking        (* in the critical section, about to stat the new path *)
| Renaming        (* in the critical section, about to rename *)
| ReleasingWon    (* renamed, about to release *)
| ReleasingLost   (* found the new path taken, about to release *)
| ReportingWon    (* about to report [success] *)
| ReportingLost   (* about to report [skipped] *)
| Won             (* returned after reporting [success] *)
| Lost.           (* returned after reporting [skipped] *)

Definition afterReadFile {A} (p : prog A) (x : option string) : prog A :=
  match p with FsReadFile _ k => k x | _ => p end.

Definition afterStat {A} (p : prog A) (x : option Stats) : prog A :=
  match p with FsStat _ k => k x | _ => p end.

Section Programs.

Context `{ChangeCase} `{PathModule}.
Variable format : Format.
Variable newFilePath : string.

(** The rest of the task from the call of [runExclusive] on. *)
Definition locking (imagePath : string) : prog unit :=
  let* result :=
    (try Await.runExclusive (checkThenRename imagePath newFilePath)
     catch Ret Error) in
  Report imagePath result (Ret tt).

(** The rest of the task once the mutex is acquired. *)
Definition checking (imagePath : string) : prog unit :=
  let* result :=
    (try finallyRelease (checkThenRename imagePath newFilePath)
     catch Ret Error) in
  Report imagePath result (Ret tt).

Definition programAt (t : Contender) (ph : Phase) : prog unit :=
  match ph with
  | Queueing | Reading => processingTask (imagePath t) format
  | Describing =>
      afterReadFile (processingTask (imagePath t) format) (Some (bytes (node t)))
  | Locking => locking (imagePath t)
  | Checking => checking (imagePath t)
  | Renaming => afterStat (checking (imagePath t)) None
  | ReleasingWon => MutexRelease (Report (imagePath t) (Success newFilePath) (Ret tt))
  | ReleasingLost => MutexRelease (Report (imagePath t) Skipped (Ret tt))
  | ReportingWon => Report (imagePath t) (Success newFilePath) (Ret tt)
  | ReportingLost => Report (imagePath t) Skipped (Ret tt)
  | Won | Lost => Ret tt
  end.

Definition slotAt (t : Contender) (ph : Phase) : Slot :=
  match ph with
  | Queueing => Queued (programAt t ph)
  | _ => Running (programAt t ph)
  end.

End Programs.

Definition holding (ph : Phase) : bool :=
  match ph with
  | Checking | Renaming | ReleasingWon | ReleasingLost => true
  | _ => false
  end.

Definition won (ph : Phase) : bool :=
  match ph with ReleasingWon | ReportingWon | Won => true | _ => false end.

Definition lost (ph : Phase) : bool :=
  match ph with ReleasingLost | ReportingLost | Lost => true | _ => false end.

Definition renaming (ph : Phase) : bool :=
  match ph with Renaming => true | _ => false end.

(** The pairs of phases the two tasks can be in together: one task wins;
    a task has lost only to a winner; a task about to rename found the new
    path clear, so that the other has not won. *)
Definition compatible (me other : Phase) : bool :=
  negb (won me && won other) &&
  implb (lost me) (won other) && implb (lost other) (won me) &&
  implb (renaming me) (negb (won other)) && implb (renaming other) (negb (won me)).

(** Where the file of a task is: at the new path once the task has
    renamed it, at its own path before, and for good when the task has
    lost. *)
Definition placed `{Locations} (newFilePath : string) (t : Contender) (ph : Phase)
    (fs : gmap string Node) : Prop :=
  if won ph then fs !! locate newFilePath = Some (node t)
  else fs !! locate (imagePath t) = Some (node t).

(** What the progress lines tell of a task: nothing before it has
    returned, and then what it has done. *)
Definition told (newFilePath : string) (t : Contender) (ph : Phase)
    (lines : list Progress) : Prop :=
  forall line, line ∈ lines -> image line = imagePath t ->
    (ph = Won /\ outcome line = Success newFilePath) \/
    (ph = Lost /\ outcome line = Skipped).

(** The world two tasks in the phases [phMe] and [phOther] share. *)
Definition Good `{Locations} (newFilePath : string) (me other : Contender)
    (phMe phOther : Phase) (σ : World) : Prop :=
  compatible phMe phOther = true /\
  placed newFilePath me phMe (files σ) /\
  placed newFilePath other phOther (files σ) /\
  (won phMe = false -> won phOther = false -> files σ !! locate newFilePath = None) /\
  told newFilePath me phMe (progress σ) /\
  told newFilePath other phOther (progress σ).

(** What the theorem on the race assumes of each of the two images: when
    the run starts its file can be read and the system lets it be renamed;
    the service gives a usable description of it; and the pipeline
    computes [newFilePath] from that description. *)
Definition Contending `{ChangeCase} `{PathModule} `{Locations} (fs : gmap string Node)
    (format : Format) (newFilePath : string) (t : Contender) : Prop :=
  fs !! locate (imagePath t) = Some (node t) /\
  Fs.readFile fs (locate (imagePath t)) = Some (bytes (node t)) /\
  renamable (node t) = true /\
  exists aiName,
    usableText (answers t (dataUrlOf (imagePath t) (bytes (node t)))) = Some aiName /\
    JS.isEmpty (convertCase aiName format) = false /\
    newFilePathOf (imagePath t) (convertCase aiName format) = newFilePath.

(** A task of the run that is none of the two: it renames with care, and
    never to the new path of the two. *)
Definition Bystander `{Locations} (newFilePath : string)
    (answers : string -> option Response) (fs : gmap string Node) (own : string)
    (s : Slot) : Prop :=
  CarefulSlot fs own s /\ Avoids (locate newFilePath) answers (programOf s).

(** The pools of a run in which the tasks [first] and [second] are those
    of the two images. *)
Definition RaceInvariant `{ChangeCase} `{PathModule} `{Locations} (format : Format)
    (newFilePath : string) (net : nat -> string -> option Response)
    (paths : list string) (first second : nat) (a b : Contender) (c : Pool) : Prop :=
  PoolInvariant format paths c /\
  (exists ph1 ph2,
     slots c !! first = Some (slotAt format newFilePath a ph1) /\
     slots c !! second = Some (slotAt format newFilePath b ph2) /\
     Good newFilePath a b ph1 ph2 (world c)) /\
  (forall k own s, paths !! k = Some own -> k <> first -> k <> second ->
     slots c !! k = Some s ->
     Bystander newFilePath (net k) (files (world c)) own s).

End Race.

(** ** Data of the examples *)

Module Example.

Definition photo (contents : string) : Node :=
  {| kind := RegularFile; readable := true; opens := true; renamable := true;
     bytes := contents |}.

Definition folder : Node :=
  {| kind := Directory; readable := true; opens := true; renamable := true;
     bytes := "" |}.

(** A file that the system does not let be renamed, and a FIFO. *)
Definition pinned (contents : string) : Node :=
  {| kind := RegularFile; readable := true; opens := true; renamable := false;
     bytes := contents |}.

Definition pipe : Node :=
  {| kind := Other; readable := true; opens := true; renamable := true; bytes := "" |}.

(** A response of the service with the given text. *)
Definition describes (text : string) : option Response :=
  Some {| ok := true;
          json := Some {| choices :=
                   Some [{| message := Some {| content := Some text |} |}] |} |}.

Definition oneImage : gmap string Node := {[ "cat.jpg" := photo "c" ]}.

Definition twoImages : gmap string Node :=
  {[ "cat.jpg" := photo "c"; "dog.jpg" := photo "d" ]}.

(** The two images, and a file already at [red_car.jpg]. *)
Definition taken : gmap string Node :=
  <["red_car.jpg" := photo "r"]> twoImages.

(** One image, and a directory at [red_car.jpg]. *)
Definition withFolder : gmap string Node :=
  <["red_car.jpg" := folder]> oneImage.

(** An image that already has the name its description gives. *)
Definition named : gmap string Node := {[ "red_car.jpg" := photo "r" ]}.

(** The two images and an animation. *)
Definition withGif : gmap string Node :=
  <["anim.gif" := photo "g"]> twoImages.

(** The two images with a third. *)
Definition threeImages : gmap string Node :=
  <["emu.jpg" := photo "e"]> twoImages.

(** The two images, the first of which cannot be renamed. *)
Definition pinnedCat : gmap string Node :=
  {[ "cat.jpg" := pinned "c"; "dog.jpg" := photo "d" ]}.

(** The two images, and a FIFO or a directory at [red_car.jpg]. *)
Definition pipeTaken : gmap string Node :=
  <["red_car.jpg" := pipe]> twoImages.

Definition folderTaken : gmap string Node :=
  <["red_car.jpg" := folder]> twoImages.

(** One image, and a FIFO at [red_car.jpg]. *)
Definition withPipe : gmap string Node :=
  <["red_car.jpg" := pipe]> oneImage.

(** A service that describes every image as "red car". *)
Definition redCar : nat -> string -> option Response :=
  fun _ _ => describes "red car".

(** A service that describes the image of the third task as "blue dog"
    and every other as "red car". *)
Definition thirdBlueDog : nat -> string -> option Response :=
  fun i _ => if Nat.eqb i 2 then describes "blue dog" else describes "red car".

(** The two images whose descriptions give one new path. *)
Definition cat : Race.Contender :=
  {| Race.imagePath := "cat.jpg"; Race.node := photo "c";
     Race.answers := thirdBlueDog 0 |}.

Definition dog : Race.Contender :=
  {| Race.imagePath := "dog.jpg"; Race.node := photo "d";
     Race.answers := thirdBlueDog 1 |}.

(** A schedule of two tasks that take turns up to the critical section:
    the first goes through it (acquire, stat, rename, release), the
    second asks for the mutex then and checks, the first reports, the
    second releases and reports. *)
Definition interleaved : list nat := [0; 1; 0; 1; 0; 1; 0; 0; 0; 0; 1; 1; 0; 1; 1].

(** The same when the first task finds the new path taken and makes no
    rename call. *)
Definition interleavedTaken : list nat := [0; 1; 0; 1; 0; 1; 0; 0; 0; 1; 1; 0; 1; 1].

(** Three tasks that take turns up to the critical section, which they
    go through in the order of their slots; the third starts on it after
    the second has left it. *)
Definition threeInTurn : list nat :=
  [0; 1; 2; 0; 1; 2; 0; 1; 2; 0; 0; 0; 0; 1; 1; 0; 1; 1; 2; 2; 2; 2; 2].

End Example.

From Stdlib Require Import ZArith.
From Stdlib Require DecimalString DecimalNat.

(** ** Notions used in the further properties *)

(** The calls of one pipeline, in the order the source makes them. *)
Definition pipelineCalls (imagePath imageBase64 newFilePath : string) : list Call :=
  [CallReadFile imagePath; CallFetch imageBase64; CallStat newFilePath;
   CallRename imagePath newFilePath].

(** A list of paths with every path kept where it comes first: the order
    in which a [Set] built by adding the paths in turn lists them. *)
Fixpoint firstOccurrences (l : list string) : list string :=
  match l with
  | [] => []
  | x :: rest => x :: List.filter (fun y => negb (String.eqb y x)) (firstOccurrences rest)
  end.

(** The test of the loop of [filterValidImagePaths] on one path. *)
Definition admitted `{PathModule} `{Locations} (fs : gmap string Node) (pth : string)
  : bool :=
  readableFile fs pth && allowedExtension pth.

(** The calls [isFileReadable] makes on a path, and those of the filter
    on a list of paths. *)
Definition readableCalls `{Locations} (fs : gmap string Node) (filePath : string)
  : list Call :=
  CallStat filePath ::
    match fs !! locate filePath with
    | Some n => if isRegular n then [CallAccess filePath] else []
    | None => []
    end.

Definition filterCalls `{Locations} (fs : gmap string Node) (imagePaths : list string)
  : list Call :=
  flat_map (readableCalls fs) imagePaths.

(** The progress lines carry the numbers 1, 2, ... in the order they were
    written, up to the value of [done]. *)
Definition Numbered (σ : World) : Prop :=
  map doneSoFar (progress σ) = seq 1 (done σ).

(** Kinds of calls, and how often a kind occurs in a list of calls. *)
Definition isFetchCall (c : Call) : bool :=
  match c with CallFetch _ => true | _ => false end.

Definition isReadOf (imagePath : string) (c : Call) : bool :=
  match c with CallReadFile p => String.eqb p imagePath | _ => false end.

Definition isRenameOf (imagePath : string) (c : Call) : bool :=
  match c with CallRename o _ => String.eqb o imagePath | _ => false end.

Definition times (f : Call -> bool) (cs : list Call) : nat := length (List.filter f cs).

Definition cost (f : Call -> bool) (c : Call) : nat := if f c then 1 else 0.

(** A program that makes at most [n] calls of the kind [f] along every
    branch. *)
Inductive Spends {A} (f : Call -> bool) : nat -> prog A -> Prop :=
| Spends_Ret n a : Spends f n (Ret a)
| Spends_Throw n : Spends f n Throw
| Spends_ReadFile n p k :
    cost f (CallReadFile p) <= n ->
    (forall x, Spends f (n - cost f (CallReadFile p)) (k x)) ->
    Spends f n (FsReadFile p k)
| Spends_Stat n p k :
    cost f (CallStat p) <= n ->
    (forall x, Spends f (n - cost f (CallStat p)) (k x)) ->
    Spends f n (FsStat p k)
| Spends_Access n p k :
    cost f (CallAccess p) <= n ->
    (forall x, Spends f (n - cost f (CallAccess p)) (k x)) ->
    Spends f n (FsAccess p k)
| Spends_Rename n o d k :
    cost f (CallRename o d) <= n ->
    (forall x, Spends f (n - cost f (CallRename o d)) (k x)) ->
    Spends f n (FsRename o d k)
| Spends_Fetch n b k :
    cost f (CallFetch b) <= n ->
    (forall x, Spends f (n - cost f (CallFetch b)) (k x)) ->
    Spends f n (HttpFetch b k)
| Spends_Acquire n k : Spends f n k -> Spends f n (MutexAcquire k)
| Spends_Release n k : Spends f n k -> Spends f n (MutexRelease k)
| Spends_Report n p r k : Spends f n k -> Spends f n (Report p r k).

Definition SlotSpends (f : Call -> bool) (n : nat) (s : Slot) : Prop :=
  Spends f n (programOf s).

(** The regular files of a file system, whatever their names. *)
Definition regularFiles (fs : gmap string Node) : list Node :=
  filter (fun n => isRegular n = true) (map_to_list fs).*2.

(** The files [fs] of a run that started on [fs0] with the tasks of
    [paths]: a regular file or a directory that was at a location none of
    [paths] names is still there, and the regular files are the same,
    whatever their names. *)
Definition FilesKept `{Locations} (fs0 : gmap string Node) (paths : list string)
    (fs : gmap string Node) : Prop :=
  (forall location n, (forall own, own ∈ paths -> locate own <> location) ->
     fs0 !! location = Some n -> isRegular n || isDirectory n = true ->
     fs !! location = Some n) /\
  regularFiles fs ≡ₚ regularFiles fs0.

(** What holds of the files in every pool of a run. *)
Definition Keeping `{ChangeCase} `{PathModule} `{Locations} (format : Format)
    (fs0 : gmap string Node) (paths : list string) (c : Pool) : Prop :=
  PoolInvariant format paths c /\
  Forall2 (CarefulSlot (files (world c))) paths (slots c) /\
  FilesKept fs0 paths (files (world c)).

(** The new path a result tells of, if it tells of one. *)
Definition stateOf (result : ProcessResult) : option string :=
  match result with Success newPath => Some newPath | _ => None end.

(** A program of the task of [own] that reports what it has done.
    [Tracks own moved p]: [moved] is the path [own] was renamed to so far,
    if it was; [p] renames [own] only when it has not done so before; and
    the report [p] ends with is [success] with the path [own] was renamed
    to when it was renamed, and [skipped] or [error] when it was not. *)
Inductive Tracks (own : string) : option string -> prog unit -> Prop :=
| Tracks_Ret moved : Tracks own moved (Ret tt)
| Tracks_ReadFile moved p k :
    (forall x, Tracks own moved (k x)) -> Tracks own moved (FsReadFile p k)
| Tracks_Stat moved p k :
    (forall x, Tracks own moved (k x)) -> Tracks own moved (FsStat p k)
| Tracks_Access moved p k :
    (forall x, Tracks own moved (k x)) -> Tracks own moved (FsAccess p k)
| Tracks_Rename d k :
    Tracks own (Some d) (k true) -> Tracks own None (k false) ->
    Tracks own None (FsRename own d k)
| Tracks_Fetch moved b k :
    (forall x, Tracks own moved (k x)) -> Tracks own moved (HttpFetch b k)
| Tracks_Acquire moved k : Tracks own moved k -> Tracks own moved (MutexAcquire k)
| Tracks_Release moved k : Tracks own moved k -> Tracks own moved (MutexRelease k)
| Tracks_Report moved result :
    stateOf result = moved -> Tracks own moved (Report own result (Ret tt)).

(** Where the file of [own] is. *)
Definition placeOf (own : string) (moved : option string) : string :=
  match moved with Some d => d | None => own end.

(** Paths that name pairwise different files. *)
Definition differentFiles `{Locations} (paths : list string) : Prop :=
  forall i j own_i own_j, paths !! i = Some own_i -> paths !! j = Some own_j ->
    locate own_i = locate own_j -> i = j.

(** What holds of the lines in every pool of a run that started on
    [fs0] with the tasks of [paths]: every task renames and reports as
    above; the file of every path is at its place; the file of a path
    that has not been renamed is not where another was renamed to; a line
    written stands for a task that has returned, with the result the task
    has come to; and no two paths have been renamed to one location. *)
Definition Truthful `{Locations} (fs0 : gmap string Node) (paths : list string)
    (c : Pool) : Prop :=
  exists moved : nat -> option string,
    (forall i own s, paths !! i = Some own -> slots c !! i = Some s ->
       Tracks own (moved i) (programOf s)) /\
    (forall i own, paths !! i = Some own ->
       files (world c) !! locate (placeOf own (moved i)) = fs0 !! locate own) /\
    (forall i j own d, paths !! i = Some own -> moved i = None -> moved j = Some d ->
       locate d <> locate own) /\
    (forall line, line ∈ progress (world c) ->
       exists i, paths !! i = Some (image line) /\ moved i = stateOf (outcome line) /\
                 slots c !! i = Some (Running (Ret tt))) /\
    (forall i j own_i own_j d_i d_j, paths !! i = Some own_i -> paths !! j = Some own_j ->
       moved i = Some d_i -> moved j = Some d_j -> locate d_i = locate d_j -> i = j).

(** ** The prompt for the limit

    [parseInt(value, 10)]: white space at the start is skipped, a sign is
    read if there is one, then the longest run of decimal digits; the
    result is [NaN] when there is no digit, and otherwise the Number for
    the integer the digits denote, with its sign.

    A Number is a double.  The integers of magnitude up to 2^53 are
    doubles, and [parseInt] gives them as they are.  For a greater integer
    it gives the double nearest to it, or an infinity when the numeral is
    long enough: a Number of the same sign and of magnitude at least 2^53,
    since rounding keeps the order and 2^53 is a double.  The model keeps
    this much of these Numbers ([Huge]) and no more.  The sign of a zero
    is not kept: [-0 < 1] as [0 < 1]. *)
Module Prompt.

Inductive Number :=
| NaN
| Integer (z : Z)
| Huge (negative : bool).

Definition toNumber (z : Z) : Number :=
  if (Z.abs z <=? 2 ^ 53)%Z then Integer z else Huge (z <? 0)%Z.

Definition digitValue (c : ascii) : Z := (Z.of_nat (JS.code c) - 48)%Z.

(** The longest prefix of decimal digits. *)
Fixpoint digitsOf (s : string) : string :=
  match s with
  | String c s' => if JS.isDigit c then String c (digitsOf s') else ""
  | EmptyString => ""
  end.

Fixpoint valueOf (acc : Z) (digits : string) : Z :=
  match digits with
  | String c s' => valueOf (10 * acc + digitValue c)%Z s'
  | EmptyString => acc
  end.

(** The integer a string starts with, if it starts with one. *)
Definition integerOf (s : string) : option Z :=
  let trimmed := JS.trimStart s in
  let signed :=
    match trimmed with
    | String c rest =>
        if Ascii.eqb c "-" then ((-1)%Z, rest)
        else if Ascii.eqb c "+" then (1%Z, rest)
        else (1%Z, trimmed)
    | EmptyString => (1%Z, trimmed)
    end in
  let digits := digitsOf (snd signed) in
  if JS.isEmpty digits then None else Some (fst signed * valueOf 0 digits)%Z.

Definition parseInt (s : string) : Number :=
  match integerOf s with
  | Some z => toNumber z
  | None => NaN
  end.

Definition isNaN (num : Number) : bool :=
  match num with NaN => true | _ => false end.

(** [num < 1] *)
Definition lessThanOne (num : Number) : bool :=
  match num with
  | NaN => false
  | Integer z => (z <? 1)%Z
  | Huge negative => negative
  end.

(** [validate(value)] of the prompt for the limit: a message when the
    value is refused, [undefined] ([None]) when it is accepted. *)
Definition validate (value : string) : option string :=
  let num := parseInt value in
  if isNaN num || lessThanOne num
  then Some "Please enter a positive number."
  else None.

End Prompt.

(** A string that goes on with a decimal digit. *)
Definition startsWithDigit (s : string) : bool :=
  match s with String c _ => JS.isDigit c | EmptyString => false end.

(** The decimal numeral of a number. *)
Definition decimal (n : nat) : string :=
  DecimalString.NilEmpty.string_of_uint (Nat.to_uint n).

(** The characters of Base64: letters, digits, [+], [/] and the padding [=]. *)
Definition base64Char (c : ascii) : bool :=
  JS.isAsciiUpper c || JS.isAsciiLower c || JS.isDigit c ||
  Ascii.eqb c "+" || Ascii.eqb c "/" || Ascii.eqb c "=".

(** ** The start of [main]

    [main] from its first line to the prompts: it exits with a code, or
    goes on to ask for the format and the limit with the valid paths it
    has found.  [processArgv] is [process.argv].  An exception of the
    filter would come out at the handler of [main().catch], which exits
    with code 1. *)
Inductive MainStart :=
| Exits (code : nat)
| Asks (validImagePaths : list string) (σ : World).

Definition mainStart `{PathModule} `{Locations} (OPENROUTER_API_KEY : option string)
    (fs : gmap string Node) (processArgv : list string) : MainStart :=
  if match OPENROUTER_API_KEY with Some key => JS.falsy key | None => true end
  then Exits 1
  else
    let imagePaths := drop 2 processArgv in
    if length imagePaths =? 0 then Exits 0
    else
      match validImagePathsOf fs imagePaths with
      | (Returned validImagePaths, σ) =>
          if length validImagePaths =? 0 then Exits 0 else Asks validImagePaths σ
      | _ => Exits 1
      end.

(** The task in slot [i], for the image [own] with the node [node]. *)
Definition taskOf (net : nat -> string -> option Response) (i : nat)
    (own : string) (node : Node) : Race.Contender :=
  {| Race.imagePath := own; Race.node := node; Race.answers := net i |}.

(** The pools of a run in which the tasks do not meet: the task of every
    path [own] computes the new path [dest own], and is in one of the
    phases of a task that finds its new path free; the file of [own] is
    at [dest own] when the task has renamed it and at [own] before; and
    every line written tells of a rename to the new path of its image. *)
Definition Unhindered `{ChangeCase} `{PathModule} `{Locations} (fs : gmap string Node)
    (format : Format) (net : nat -> string -> option Response)
    (dest : string -> string) (paths : list string) (c : Pool) : Prop :=
  length (slots c) = length paths /\
  exists phase : nat -> Race.Phase,
    (forall i own node, paths !! i = Some own -> fs !! locate own = Some node ->
       slots c !! i =
         Some (Race.slotAt format (dest own) (taskOf net i own node) (phase i)) /\
       Race.lost (phase i) = false /\
       if Race.won (phase i)
       then files (world c) !! locate (dest own) = Some node /\
            files (world c) !! locate own = None
       else files (world c) !! locate own = Some node /\
            files (world c) !! locate (dest own) = None) /\
    (forall line, line ∈ progress (world c) ->
       outcome line = Success (dest (image line))).

(** Data of the further examples: a service that describes the image of
    the first task as "red car" and any other as "blue dog", the new
    names these descriptions give, and a schedule in which two tasks
    take turns and both rename. *)
Module FurtherExample.

Definition twoNames : nat -> string -> option Response :=
  fun i _ => if Nat.eqb i 0 then Example.describes "red car" else Example.describes "blue dog".

Definition newName (own : string) : string :=
  if String.eqb own "cat.jpg" then "red_car.jpg" else "blue_dog.jpg".

Definition takingTurns : list nat := [0; 1; 0; 1; 0; 1; 0; 0; 0; 0; 1; 1; 0; 1; 1; 1].

End FurtherExample.


(** * Theorems *)

Section Theorems.

Context {locations : Locations}.

(** ** Strings *)

Lemma substring0_length n s : String.length (JS.substring0 n s) = Nat.min n (String.length s).
Proof.
  unfold JS.substring0. revert s.
  induction n as [|n IH]; intros [|c s]; simpl; auto.
Qed.

Lemma substring0_prefix n s : String.prefix (JS.substring0 n s) s = true.
Proof.
  unfold JS.substring0. revert s.
  induction n as [|n IH]; intros [|c s]; simpl; auto.
  destruct (Ascii.ascii_dec c c) as [_|Hne]; [apply IH | by destruct Hne].
Qed.

Lemma substring0_short n s : String.length s <= n -> JS.substring0 n s = s.
Proof.
  unfold JS.substring0. revert s.
  induction n as [|n IH]; intros [|c s]; simpl; intros Hl; auto; try lia.
  f_equal. apply IH. lia.
Qed.

Lemma isEmpty_true s : JS.isEmpty s = true <-> s = "".
Proof. destruct s; simpl; split; congruence. Qed.

Lemma isEmpty_false s : JS.isEmpty s = false <-> s <> "".
Proof. destruct s; simpl; split; congruence. Qed.

(** [trimStart] removes white space and nothing else, and leaves no white
    space in front. *)
Lemma trimStart_spec s :
  exists before,
    s = before +:+ JS.trimStart s /\ allWhiteSpace before = true /\
    startsWithWhiteSpace (JS.trimStart s) = false.
Proof.
  unfold allWhiteSpace. induction s as [|c s IH]; simpl.
  - exists "". auto.
  - destruct (JS.isWhiteSpace c) eqn:Hc.
    + destruct IH as (ws & Hs & Hws & Hhd).
      exists (String c ws). simpl. rewrite Hc, Hws. split; [|auto].
      change (String c s = String c (ws +:+ JS.trimStart s)). by rewrite <- Hs.
    + exists "". simpl. rewrite Hc. auto.
Qed.

(** [trimEnd] removes white space and nothing else, leaves none at the
    end, and leaves the front as it was. *)
Lemma trimEnd_spec s :
  exists after,
    s = JS.trimEnd s +:+ after /\ allWhiteSpace after = true /\
    endsWithWhiteSpace (JS.trimEnd s) = false /\
    (startsWithWhiteSpace s = false ->
     startsWithWhiteSpace (JS.trimEnd s) = false).
Proof.
  unfold allWhiteSpace. induction s as [|c s IH].
  - exists "". auto.
  - destruct IH as (ws & Hs & Hws & Hend & _). cbn [JS.trimEnd].
    destruct (JS.isWhiteSpace c && JS.isEmpty (JS.trimEnd s)) eqn:Hc.
    + apply andb_true_iff in Hc as [Hc He]. apply isEmpty_true in He.
      rewrite He in Hs. exists (String c ws). simpl in *. subst s.
      rewrite Hc, Hws. repeat split; auto.
    + exists ws. split; [|split; [done|split]].
      * change (String c s = String c (JS.trimEnd s +:+ ws)). by rewrite <- Hs.
      * simpl. destruct (JS.trimEnd s) eqn:Ht; [|exact Hend].
        apply andb_false_iff in Hc as [Hc|Hc]; [exact Hc | discriminate Hc].
      * simpl. auto.
Qed.

(** [trim] cuts a string of white space from each end and leaves none. *)
Lemma trim_spec s :
  exists before after,
    s = before +:+ JS.trim s +:+ after /\
    allWhiteSpace before = true /\ allWhiteSpace after = true /\
    startsWithWhiteSpace (JS.trim s) = false /\
    endsWithWhiteSpace (JS.trim s) = false.
Proof.
  unfold JS.trim.
  destruct (trimStart_spec s) as (before & Hs & Hb & Hstart).
  destruct (trimEnd_spec (JS.trimStart s)) as (after & Ht & Ha & Hend & Hkeep).
  exists before, after. split; [by rewrite <- Ht|]. auto.
Qed.

(** ** convertCase *)

(** C6. For every input and every format, whatever the implementation of
    the casing functions: [convertCase] is the casing conversion, followed
    by [trim], which cuts a string of white space from each end and leaves
    none there, followed by the cut to the first 200 code units; the result
    is a prefix of the trimmed string, it is the whole trimmed string when
    that has at most 200 code units, and its length never exceeds 200. *)
Theorem convertCase_casing_trim_cut `{ChangeCase} (name : string) (format : Format) :
  let cased := casingOf format name in
  let trimmed := JS.trim cased in
  convertCase name format = JS.substring0 200 trimmed /\
  (exists before after,
     cased = before +:+ trimmed +:+ after /\
     allWhiteSpace before = true /\ allWhiteSpace after = true /\
     startsWithWhiteSpace trimmed = false /\ endsWithWhiteSpace trimmed = false) /\
  String.prefix (convertCase name format) trimmed = true /\
  String.length (convertCase name format) = Nat.min 200 (String.length trimmed) /\
  String.length (convertCase name format) <= 200.
Proof.
  intros cased trimmed.
  assert (Heq : convertCase name format = JS.substring0 200 trimmed)
    by (destruct format; reflexivity).
  rewrite Heq. split; [reflexivity|]. split; [apply trim_spec|]. repeat split.
  - apply substring0_prefix.
  - apply substring0_length.
  - rewrite substring0_length. lia.
Qed.

(** C7. The four sanitized names of ["Red Sports Car"]. *)
Theorem convertCase_red_sports_car :
  convertCase (H := ChangeCaseAscii.instance) "Red Sports Car" snake = "red_sports_car" /\
  convertCase (H := ChangeCaseAscii.instance) "Red Sports Car" kebab = "red-sports-car" /\
  convertCase (H := ChangeCaseAscii.instance) "Red Sports Car" pascal = "RedSportsCar" /\
  convertCase (H := ChangeCaseAscii.instance) "Red Sports Car" capital = "Red Sports Car".
Proof. repeat split; vm_compute; reflexivity. Qed.

(** ** Running programs *)

Lemma exec_bind {A B} net (m : prog A) (f : A -> prog B) σ :
  exec net (bind m f) σ =
  match exec net m σ with
  | (Returned a, σ') => exec net (f a) σ'
  | (Thrown, σ') => (Thrown, σ')
  | (Waiting, σ') => (Waiting, σ')
  end.
Proof.
  revert σ. induction m as [a| |p k IH|p k IH|p k IH|o n k IH|b k IH|k IH|k IH|p r k IH];
    intros σ; simpl; auto.
  - destruct (Fs.rename (files σ) (locate o) (locate n)); auto.
  - destruct (locked σ); auto.
Qed.

Lemma exec_tryCatch {A} net (m h : prog A) σ :
  exec net (tryCatch m h) σ =
  match exec net m σ with
  | (Thrown, σ') => exec net h σ'
  | other => other
  end.
Proof.
  revert σ. induction m as [a| |p k IH|p k IH|p k IH|o n k IH|b k IH|k IH|k IH|p r k IH];
    intros σ; simpl; auto.
  - destruct (Fs.rename (files σ) (locate o) (locate n)); auto.
  - destruct (locked σ); auto.
Qed.

Lemma exec_finallyRelease {A} net (m : prog A) σ :
  exec net (finallyRelease m) σ =
  match exec net m σ with
  | (Returned a, σ') => (Returned a, withLocked false σ')
  | (Thrown, σ') => (Thrown, withLocked false σ')
  | (Waiting, σ') => (Waiting, σ')
  end.
Proof.
  revert σ. induction m as [a| |p k IH|p k IH|p k IH|o n k IH|b k IH|k IH|k IH|p r k IH];
    intros σ; simpl; auto.
  - destruct (Fs.rename (files σ) (locate o) (locate n)); auto.
  - destruct (locked σ); auto.
Qed.

(** One call, then the rest: [exec] is [step] repeated. *)
Lemma exec_step {A} net (p p' : prog A) σ σ' :
  step net p σ = Some (p', σ') -> exec net p σ = exec net p' σ'.
Proof.
  destruct p; simpl; intros Hs; try discriminate; try (by inversion Hs).
  - destruct (Fs.rename (files σ) (locate oldPath) (locate newPath)); by inversion Hs.
  - destruct (locked σ); [discriminate | by inversion Hs].
Qed.

Lemma Returns_tryCatch {A} (m h : prog A) : Returns h -> Returns (tryCatch m h).
Proof.
  intros Hh. induction m; simpl; auto; constructor; auto.
Qed.

(** A program without a [Throw] branch does not end in an exception,
    whatever the world it runs in. *)
Lemma exec_Returns {A} net (p : prog A) σ : Returns p -> fst (exec net p σ) <> Thrown.
Proof.
  intros Hp. revert σ. induction Hp; intros σ; simpl; auto; try discriminate.
  - destruct (Fs.rename _ _ _); auto.
  - destruct (locked σ); [discriminate | auto].
Qed.

(** What a successful [rename] does: the node of the old location is at
    the new one, the old location is free unless it is the new one, and
    every other location is as before. *)
Lemma rename_moves fs oldPath newPath fs' :
  Fs.rename fs oldPath newPath = Some fs' ->
  fs' !! newPath = fs !! oldPath /\
  is_Some (fs !! oldPath) /\
  (oldPath <> newPath -> fs' !! oldPath = None) /\
  (forall p, p <> oldPath -> p <> newPath -> fs' !! p = fs !! p).
Proof.
  unfold Fs.rename. destruct (fs !! oldPath) as [src|] eqn:Hsrc; [|discriminate].
  intros Hr.
  assert (fs' = <[newPath := src]> (delete oldPath fs)) as ->.
  { destruct (renamable src); [|discriminate]. simpl in Hr.
    destruct (fs !! newPath) as [dst|]; [|congruence].
    destruct (isDirectory src || isDirectory dst); congruence. }
  split; [by rewrite lookup_insert_eq|]. split; [by eexists|]. split.
  - intros Hne. rewrite lookup_insert_ne by congruence. apply lookup_delete_eq.
  - intros p Ho Hn. rewrite lookup_insert_ne by congruence. by rewrite lookup_delete_ne.
Qed.

(** When [rename] rejects: the old location is free, the system does not
    let the node be renamed, or the new location is taken and one of the
    two nodes is a directory. *)
Lemma rename_rejects fs oldPath newPath :
  Fs.rename fs oldPath newPath = None <->
  fs !! oldPath = None \/
  exists src, fs !! oldPath = Some src /\
    (renamable src = false \/
     exists dst, fs !! newPath = Some dst /\ isDirectory src || isDirectory dst = true).
Proof.
  unfold Fs.rename. destruct (fs !! oldPath) as [src|]; [|split; auto].
  destruct (renamable src) eqn:Hren; simpl.
  - destruct (fs !! newPath) as [dst|].
    + destruct (isDirectory src || isDirectory dst) eqn:Hdir.
      * split; [|done]. intros _. right. exists src. split; [done|]. right. by exists dst.
      * split; [discriminate|].
        intros [|(s & [= <-] & [|(d & [= <-] & Hd)])]; congruence.
    + split; [discriminate|]. intros [|(s & [= <-] & [|(d & Hd & _)])]; congruence.
  - split; [|done]. intros _. right. exists src. auto.
Qed.

Lemma Returns_bind {A B} (m : prog A) (f : A -> prog B) :
  Returns m -> (forall a, Returns (f a)) -> Returns (bind m f).
Proof.
  intros Hm Hf. induction Hm; simpl; auto; constructor; auto.
Qed.

Section Pipeline.

Context `{ChangeCase} `{PathModule}.
Variable net : string -> option Response.

Lemma callsSince_refl σ : callsSince σ σ = [].
Proof. unfold callsSince. by rewrite drop_all. Qed.

Lemma callsSince_called c σ : callsSince σ (called c σ) = [c].
Proof. unfold callsSince, called; simpl. by rewrite drop_app_length. Qed.

Lemma exec_doesFileExist filePath σ :
  exec net (doesFileExist filePath) σ =
  (Returned (match Fs.stat (files σ) (locate filePath) with
             | Some st => isFile st
             | None => false
             end),
   called (CallStat filePath) σ).
Proof.
  unfold doesFileExist. simpl. destruct (Fs.stat (files σ) (locate filePath)); reflexivity.
Qed.

Lemma exec_isFileReadable filePath σ :
  exists σ',
    exec net (isFileReadable filePath) σ =
    (Returned (match files σ !! locate filePath with
               | Some n => isRegular n && readable n
               | None => false
               end), σ') /\
    files σ' = files σ /\ locked σ' = locked σ /\ results σ' = results σ /\
    done σ' = done σ /\ progress σ' = progress σ.
Proof.
  unfold isFileReadable. rewrite exec_bind, exec_doesFileExist.
  unfold Fs.stat. destruct (files σ !! locate filePath) as [n|] eqn:Hn; simpl.
  - destruct (isRegular n); simpl.
    + unfold Fs.access. simpl. rewrite Hn.
      destruct (readable n); simpl; eexists; split; eauto.
    + eexists; split; eauto.
  - eexists; split; eauto.
Qed.

Lemma exec_imageToBase64 imagePath σ :
  exec net (imageToBase64 imagePath) σ =
  (match Fs.readFile (files σ) (locate imagePath) with
   | Some buffer => Returned (dataUrlOf imagePath buffer)
   | None => Thrown
   end, called (CallReadFile imagePath) σ).
Proof.
  unfold imageToBase64. simpl. destruct (Fs.readFile (files σ) (locate imagePath)); reflexivity.
Qed.

Lemma exec_getNewFilename imageBase64 σ :
  exec net (getNewFilename imageBase64) σ =
  (match usableText (net imageBase64) with
   | Some text => Returned text
   | None => Thrown
   end, called (CallFetch imageBase64) σ).
Proof.
  unfold getNewFilename, usableText. simpl.
  destruct (net imageBase64) as [response|]; simpl; [|reflexivity].
  destruct (ok response); simpl; [|reflexivity].
  unfold Await.responseJson. destruct (json response) as [data|]; simpl; [|reflexivity].
  destruct (trimmedContent data) as [text|]; simpl; [|reflexivity].
  unfold JS.falsy. destruct (JS.isEmpty text); reflexivity.
Qed.

(** [getNewFilename] never returns the empty string: the test [!aiName]
    of [processImage] always fails. *)
Lemma getNewFilename_not_empty imageBase64 σ text σ' :
  exec net (getNewFilename imageBase64) σ = (Returned text, σ') -> text <> "".
Proof.
  rewrite exec_getNewFilename. unfold usableText.
  destruct (net imageBase64) as [response|]; [|discriminate].
  destruct (ok response); [|discriminate].
  destruct (json response) as [data|]; [|discriminate].
  destruct (trimmedContent data) as [t|]; [|discriminate].
  destruct (JS.isEmpty t) eqn:He; [discriminate|].
  intros [= <- _]. by apply isEmpty_false.
Qed.

Lemma usableText_not_empty answer text : usableText answer = Some text -> JS.isEmpty text = false.
Proof.
  unfold usableText.
  destruct answer as [response|]; [|discriminate].
  destruct (ok response); [|discriminate].
  destruct (json response) as [data|]; [|discriminate].
  destruct (trimmedContent data) as [t|]; [|discriminate].
  destruct (JS.isEmpty t) eqn:He; [discriminate|]. by intros [= <-].
Qed.

(** The critical section, run with the mutex free. *)
Lemma exec_runExclusive_checkThenRename imagePath newFilePath σ :
  locked σ = false ->
  exec net (Await.runExclusive (checkThenRename imagePath newFilePath)) σ =
  let σ1 := called (CallStat newFilePath) (withLocked true σ) in
  match Fs.stat (files σ) (locate newFilePath) with
  | Some {| isFile := true |} => (Returned Skipped, withLocked false σ1)
  | _ =>
      let σ2 := called (CallRename imagePath newFilePath) σ1 in
      match Fs.rename (files σ) (locate imagePath) (locate newFilePath) with
      | Some fs' => (Returned (Success newFilePath), withLocked false (withFiles fs' σ2))
      | None => (Thrown, withLocked false σ2)
      end
  end.
Proof.
  intros Hl. unfold Await.runExclusive. cbn [exec]. rewrite Hl.
  rewrite exec_finallyRelease. unfold checkThenRename.
  rewrite exec_bind, exec_doesFileExist. simpl.
  destruct (Fs.stat (files σ) (locate newFilePath)) as [[[|]]|]; simpl; auto;
    destruct (Fs.rename (files σ) (locate imagePath) (locate newFilePath)); reflexivity.
Qed.

End Pipeline.

Section PipelineOutcome.

Context `{ChangeCase} `{PathModule}.
Variable net : string -> option Response.

(** The whole pipeline in one equation: what [processImage] returns and
    the world it leaves, from the answers to its calls. *)
Lemma exec_processImage imagePath format σ :
  exec net (processImage imagePath format) σ =
  let σ1 := called (CallReadFile imagePath) σ in
  match Fs.readFile (files σ) (locate imagePath) with
  | None => (Returned Error, σ1)
  | Some buffer =>
      let σ2 := called (CallFetch (dataUrlOf imagePath buffer)) σ1 in
      match usableText (net (dataUrlOf imagePath buffer)) with
      | None => (Returned Error, σ2)
      | Some aiName =>
          let sanitizedName := convertCase aiName format in
          if JS.isEmpty sanitizedName then (Returned Skipped, σ2)
          else
            let newFilePath := newFilePathOf imagePath sanitizedName in
            if String.eqb imagePath newFilePath then (Returned Skipped, σ2)
            else
              match exec net (Await.runExclusive (checkThenRename imagePath newFilePath)) σ2 with
              | (Thrown, σ') => (Returned Error, σ')
              | other => other
              end
      end
  end.
Proof.
  unfold processImage, processImageTry. rewrite exec_tryCatch, exec_bind, exec_imageToBase64.
  destruct (Fs.readFile (files σ) (locate imagePath)) as [buffer|]; [|reflexivity].
  rewrite exec_bind, exec_getNewFilename.
  destruct (usableText (net (dataUrlOf imagePath buffer))) as [aiName|] eqn:Ht; [|reflexivity].
  apply usableText_not_empty in Ht. unfold JS.falsy. rewrite Ht. cbv zeta.
  destruct (JS.isEmpty (convertCase aiName format)); [reflexivity|].
  destruct (String.eqb imagePath _); reflexivity.
Qed.

Lemma calls_called c σ : calls (called c σ) = calls σ ++ [c].
Proof. reflexivity. Qed.

Lemma callsSince_app σ σ' l : calls σ' = calls σ ++ l -> callsSince σ σ' = l.
Proof. intros Hc. unfold callsSince. rewrite Hc. by rewrite drop_app_length. Qed.

(** Without a usable description the pipeline ends in [error] after the
    read and, if the read succeeded, the request. *)
Lemma exec_processImage_unusable imagePath format σ :
  (forall imageBase64, usableText (net imageBase64) = None) ->
  exists σ',
    exec net (processImage imagePath format) σ = (Returned Error, σ') /\
    files σ' = files σ /\
    noRename (callsSince σ σ').
Proof.
  intros Hnone. rewrite exec_processImage. cbv zeta.
  destruct (Fs.readFile (files σ) (locate imagePath)) as [buffer|].
  - rewrite Hnone. eexists. split; [reflexivity|]. split; [reflexivity|].
    erewrite callsSince_app; [|by rewrite !calls_called, <- app_assoc]. reflexivity.
  - eexists. split; [reflexivity|]. split; [reflexivity|].
    by rewrite callsSince_called.
Qed.

End PipelineOutcome.

Lemma DescribeFailure_unusable answer : DescribeFailure answer <-> usableText answer = None.
Proof.
  unfold usableText. split.
  - intros [|r Hok|r Hj|r d Hj Ht|r d Hj Ht]; auto.
    + by rewrite Hok.
    + rewrite Hj. by destruct (ok r).
    + rewrite Hj, Ht. by destruct (ok r).
    + rewrite Hj, Ht. by destruct (ok r).
  - destruct answer as [r|]; [|constructor].
    destruct (ok r) eqn:Hok; [|by constructor].
    destruct (json r) as [d|] eqn:Hj; [|intros _; by apply Failure_body].
    destruct (trimmedContent d) as [t|] eqn:Ht; [|intros _; by eapply Failure_no_text].
    destruct (JS.isEmpty t) eqn:He; [|discriminate].
    apply isEmpty_true in He as ->. intros _. by eapply Failure_empty_text.
Qed.

(** ** The claims on one pipeline *)

Section PipelineClaims.

Context `{ChangeCase} `{PathModule}.

(** C10. [processImage] returns a [ProcessResult] however its calls are
    answered: no branch of the program ends in an exception, for every
    path and format.  What its [try] block throws comes out as [error], and
    what the block returns comes out as it is.  Run with the mutex free,
    [processImage] comes to its end, with one result, and leaves the mutex
    free. *)
Theorem processImage_contains_every_fault (imagePath : string) (format : Format)
    (net : string -> option Response) (σ : World) :
  locked σ = false ->
  Returns (processImage imagePath format) /\
  exec net (processImage imagePath format) σ =
    match exec net (processImageTry imagePath format) σ with
    | (Thrown, σ') => (Returned Error, σ')
    | other => other
    end /\
  exists (result : ProcessResult) (σ' : World),
    exec net (processImage imagePath format) σ = (Returned result, σ') /\
    locked σ' = false /\
    (status result = success \/ status result = skipped \/ status result = error).
Proof.
  intros Hfree. split; [|split].
  - unfold processImage. apply Returns_tryCatch. constructor.
  - unfold processImage. rewrite exec_tryCatch.
    by destruct (exec net (processImageTry imagePath format) σ) as [[r| |] σ'].
  - assert (Hst : forall r, status r = success \/ status r = skipped \/ status r = error)
      by (intros []; simpl; auto).
    rewrite exec_processImage. cbv zeta.
    destruct (Fs.readFile (files σ) (locate imagePath)) as [buffer|]; [|by eauto 8].
    destruct (usableText _) as [aiName|]; [|by eauto 8].
    destruct (JS.isEmpty _); [by eauto 8|].
    destruct (String.eqb _ _); [by eauto 8|].
    rewrite exec_runExclusive_checkThenRename by done. cbv zeta.
    destruct (Fs.stat _ _) as [[[|]]|]; simpl; eauto 8;
      destruct (Fs.rename _ _ _); simpl; eauto 8.
Qed.

(** C5. When the request for a description fails (it is rejected or
    times out, the response is not [ok], its body does not parse, or it
    carries no text or only white space), [processImage] returns
    [error], the file system is as before, and no [fs.rename] call was
    made. *)
Theorem failed_description_is_error (imagePath : string) (format : Format)
    (net : string -> option Response) (σ : World) :
  (forall imageBase64, DescribeFailure (net imageBase64)) ->
  exists σ',
    exec net (processImage imagePath format) σ = (Returned Error, σ') /\
    files σ' = files σ /\
    noRename (callsSince σ σ').
Proof.
  intros Hnet. apply exec_processImage_unusable.
  intros b. apply DescribeFailure_unusable, Hnet.
Qed.

(** C4, as the code has it.  A description that is empty once trimmed is
    not a name: [getNewFilename] throws on it, and [processImage] returns
    [error], not [skipped]; the files are as before and no [fs.rename]
    call was made. *)
Theorem empty_description_is_error (imagePath : string) (format : Format)
    (net : string -> option Response) (σ : World)
    (response : Response) (data : ApiSuccessResponse) :
  (forall imageBase64, net imageBase64 = Some response) ->
  ok response = true ->
  json response = Some data ->
  trimmedContent data = Some "" ->
  exists σ',
    exec net (processImage imagePath format) σ = (Returned Error, σ') /\
    files σ' = files σ /\
    noRename (callsSince σ σ').
Proof.
  intros Hnet Hok Hjson Hempty. apply exec_processImage_unusable.
  intros b. unfold usableText. by rewrite Hnet, Hok, Hjson, Hempty.
Qed.

(** C8. When the file was read, the description is usable, and the path
    computed for the new name is the path of the image itself,
    [processImage] returns [skipped]; no [fs.rename] call was made and the
    file system is as before. *)
Theorem same_path_is_skipped (imagePath : string) (format : Format)
    (net : string -> option Response) (σ : World) (buffer aiName : string) :
  Fs.readFile (files σ) (locate imagePath) = Some buffer ->
  usableText (net (dataUrlOf imagePath buffer)) = Some aiName ->
  newFilePathOf imagePath (convertCase aiName format) = imagePath ->
  exists σ',
    exec net (processImage imagePath format) σ = (Returned Skipped, σ') /\
    files σ' = files σ /\
    noRename (callsSince σ σ').
Proof.
  intros Hread Htext Hsame. rewrite exec_processImage. cbv zeta.
  rewrite Hread, Htext, Hsame, String.eqb_refl.
  destruct (JS.isEmpty _); eexists; (split; [reflexivity|]); (split; [reflexivity|]);
    (erewrite callsSince_app; [|by rewrite !calls_called, <- app_assoc]); reflexivity.
Qed.

(** C2, as the code has it.  The critical section, entered with the
    mutex free: when the destination is a regular file at the check, the
    result is [skipped], the only call is the [stat], and the files are
    as before; otherwise [fs.rename] is called on the two paths, and the
    result is [success] with the new path when the call succeeds, an
    exception with the files as before when it fails.  The mutex is free
    afterwards in every case. *)
Theorem check_then_rename (imagePath newFilePath : string)
    (net : string -> option Response) (σ : World) :
  locked σ = false ->
  exists o σ',
    exec net (Await.runExclusive (checkThenRename imagePath newFilePath)) σ = (o, σ') /\
    locked σ' = false /\
    match Fs.stat (files σ) (locate newFilePath) with
    | Some {| isFile := true |} =>
        o = Returned Skipped /\ files σ' = files σ /\
        callsSince σ σ' = [CallStat newFilePath]
    | _ =>
        callsSince σ σ' = [CallStat newFilePath; CallRename imagePath newFilePath] /\
        match Fs.rename (files σ) (locate imagePath) (locate newFilePath) with
        | Some fs' => o = Returned (Success newFilePath) /\ files σ' = fs'
        | None => o = Thrown /\ files σ' = files σ
        end
    end.
Proof.
  intros Hfree. rewrite exec_runExclusive_checkThenRename by done. cbv zeta.
  destruct (Fs.stat (files σ) (locate newFilePath)) as [[[|]]|];
    [ | destruct (Fs.rename _ _ _) | destruct (Fs.rename _ _ _) ];
    do 2 eexists; (split; [reflexivity|]); (split; [reflexivity|]);
    repeat split; try reflexivity;
    (erewrite callsSince_app; [reflexivity|]); simpl; by rewrite <- ?app_assoc.
Qed.

End PipelineClaims.

(** ** Counters *)

Lemma tally_snoc l o : tally (l ++ [o]) = increment (status o) (tally l).
Proof. unfold tally. by rewrite fold_left_app. Qed.

Lemma increment_total s r :
  ofSuccess (increment s r) + ofSkipped (increment s r) + ofError (increment s r) =
  S (ofSuccess r + ofSkipped r + ofError r).
Proof. destruct s; simpl; lia. Qed.

Lemma tally_total l :
  ofSuccess (tally l) + ofSkipped (tally l) + ofError (tally l) = length l.
Proof.
  induction l as [|o l IH] using rev_ind; [reflexivity|].
  rewrite tally_snoc, increment_total, IH, length_app. simpl. lia.
Qed.

Lemma Tallied_initial fs : Tallied (initialWorld fs).
Proof. split; reflexivity. Qed.

Lemma Tallied_reported p r σ : Tallied σ -> Tallied (reported p r σ).
Proof.
  intros [Hr Hd]. unfold Tallied, reported. cbn [results progress done]. split.
  - rewrite map_app. simpl (map _ [_]). rewrite tally_snoc, Hr. reflexivity.
  - rewrite length_app, Hd. simpl. lia.
Qed.

(** A call changes the counters and the lines only when it is a report. *)
Lemma step_Tallied {A} net (p p' : prog A) σ σ' :
  step net p σ = Some (p', σ') -> Tallied σ -> Tallied σ'.
Proof.
  intros Hs Ht. destruct p; simpl in Hs; try discriminate;
    try (injection Hs as <- <-; exact Ht).
  - destruct (Fs.rename _ _ _); injection Hs as <- <-; exact Ht.
  - destruct (locked σ); [discriminate|]. injection Hs as <- <-. exact Ht.
  - injection Hs as <- <-. by apply Tallied_reported.
Qed.

(** ** The shape of the pipeline *)

Ltac shape_call :=
  first [ apply Shape_ReadFile | apply Shape_Stat | apply Shape_Access
        | apply Shape_Rename | apply Shape_Fetch | apply Shape_Acquire
        | apply Shape_Release ].

Lemma Shape_weaken {A} (leaf leaf' : prog A -> Prop) held p :
  (forall q, leaf q -> leaf' q) -> Shape leaf held p -> Shape leaf' held p.
Proof. intros Hl Hs. induction Hs; [apply Shape_leaf; auto | shape_call; auto ..]. Qed.

Lemma Shape_bind {A B} (leafA : prog A -> Prop) (leafB : prog B -> Prop)
    held (m : prog A) (f : A -> prog B) :
  Shape leafA held m ->
  (forall q, leafA q -> Shape leafB false (bind q f)) ->
  Shape leafB held (bind m f).
Proof.
  intros Hm Hf. induction Hm; simpl; [auto | shape_call; auto ..].
Qed.

Lemma Shape_tryCatch {A} held (m : prog A) (e : A) :
  Shape isRetOrThrow held m -> Shape isRet held (tryCatch m (Ret e)).
Proof.
  intros Hm. induction Hm as [q [[a ->]| ->]| | | | | | |]; simpl;
    [ apply Shape_leaf; by exists a | apply Shape_leaf; by exists e
    | shape_call; auto ..].
Qed.

Lemma Shape_holdsMutex {A} (leaf : prog A -> Prop) held p :
  (forall q, leaf q -> holdsMutex q = false) ->
  Shape leaf held p -> holdsMutex p = held.
Proof. intros Hl Hs. induction Hs; simpl; auto. Qed.

Lemma Shape_Returns {A} held (p : prog A) : Shape isRet held p -> Returns p.
Proof. intros Hs. induction Hs as [q [a ->]| | | | | | |]; constructor; auto. Qed.

Section PipelineShape.

Context `{ChangeCase} `{PathModule}.

Ltac shape :=
  repeat first
    [ progress cbn [bind tryCatch finallyRelease]
    | apply Shape_ReadFile; intros ?
    | apply Shape_Stat; intros ?
    | apply Shape_Access; intros ?
    | apply Shape_Rename; intros ?
    | apply Shape_Fetch; intros ?
    | apply Shape_Acquire
    | apply Shape_Release
    | apply Shape_leaf; solve [ by left; eexists | by right ]
    | match goal with
      | |- Shape _ _ ?p =>
          match p with
          | context [match ?x with _ => _ end] => destruct x
          end
      end ].

Lemma checkThenRename_shape imagePath newFilePath :
  Shape isRetOrThrow false (Await.runExclusive (checkThenRename imagePath newFilePath)).
Proof.
  unfold Await.runExclusive, checkThenRename, doesFileExist, Await.stat, Await.rename.
  shape.
Qed.

(** [processImage] is a program of this shape that ends in [Ret]: it
    takes the mutex at most in turns and releases it on every branch. *)
Lemma processImage_shape imagePath format :
  Shape isRet false (processImage imagePath format).
Proof.
  unfold processImage. apply Shape_tryCatch.
  unfold processImageTry, imageToBase64, Await.readFile. shape.
  unfold getNewFilename, Await.fetch. shape.
  unfold Await.responseJson. shape.
  all: try apply checkThenRename_shape.
Qed.

Lemma processingTask_residual imagePath format :
  Residual imagePath false (processingTask imagePath format).
Proof.
  unfold processingTask. eapply Shape_bind; [apply processImage_shape|].
  intros q [r ->]. simpl. apply Shape_leaf. by exists r.
Qed.

End PipelineShape.

(** ** The pool *)

Lemma sum_list_with_insert {A} (f : A -> nat) (l : list A) i x y :
  l !! i = Some x ->
  sum_list_with f (<[i:=y]> l) + f x = sum_list_with f l + f y.
Proof.
  intros Hi.
  assert (Hlt : i < length l) by (by eapply lookup_lt_Some).
  rewrite insert_take_drop by done.
  rewrite <- (take_drop_middle l i x Hi) at 3.
  rewrite !sum_list_with_app. simpl. lia.
Qed.

Lemma returnedPaths_insert_same paths ss i s s' :
  ss !! i = Some s -> returned s' = returned s ->
  returnedPaths paths (<[i:=s']> ss) = returnedPaths paths ss.
Proof.
  revert ss i. induction paths as [|p paths IH]; intros [|s0 ss] [|i] Hi Hr;
    simpl in *; try done.
  - injection Hi as ->. by rewrite Hr.
  - by rewrite (IH ss i).
Qed.

Lemma returnedPaths_insert_return paths ss i s s' p :
  ss !! i = Some s -> paths !! i = Some p ->
  returned s = false -> returned s' = true ->
  returnedPaths paths (<[i:=s']> ss) ≡ₚ returnedPaths paths ss ++ [p].
Proof.
  revert ss i. induction paths as [|p0 paths IH]; intros [|s0 ss] [|i] Hi Hp Hs Hs';
    simpl in *; try done.
  - injection Hi as ->. injection Hp as ->. rewrite Hs, Hs'.
    by rewrite Permutation_cons_append.
  - destruct (returned s0); simpl; by rewrite (IH ss i).
Qed.

Lemma returnedPaths_completed paths ss :
  length paths = length ss -> forallb returned ss = true ->
  returnedPaths paths ss = paths.
Proof.
  revert ss. induction paths as [|p paths IH]; intros [|s ss] Hl Hall;
    simpl in *; try done.
  apply andb_true_iff in Hall as [-> Hall]. f_equal. apply IH; [lia | done].
Qed.

Lemma returnedPaths_subset paths ss p :
  p ∈ returnedPaths paths ss -> p ∈ paths.
Proof.
  revert ss. induction paths as [|p0 paths IH]; intros [|s ss]; simpl;
    try (by intros ?%elem_of_nil).
  destruct (returned s).
  - intros [->|Hin]%elem_of_cons; [left | right; eauto].
  - intros Hin. right. eauto.
Qed.

Lemma Residual_not_returned imagePath held q :
  Residual imagePath held q -> returned (Running q) = false.
Proof. intros Hr. destruct Hr as [q [r ->]| | | | | | |]; reflexivity. Qed.

Lemma Residual_holdsMutex imagePath held q :
  Residual imagePath held q -> holdsMutex q = held.
Proof. apply Shape_holdsMutex. by intros q' [r ->]. Qed.

(** One call of a task before its report: either the call is the report,
    or what is left is again a task before its report, and the mutex has
    changed hands only as the shape allows. *)
Lemma step_residual net imagePath held q σ q' σ' :
  Residual imagePath held q -> step net q σ = Some (q', σ') ->
  (q' = Ret tt /\ held = false /\ exists r, σ' = reported imagePath r σ) \/
  (exists held', Residual imagePath held' q' /\
     progress σ' = progress σ /\ results σ' = results σ /\ done σ' = done σ /\
     ((held' = held /\ locked σ' = locked σ) \/
      (held = false /\ held' = true /\ locked σ = false /\ locked σ' = true) \/
      (held = true /\ held' = false /\ locked σ' = false))).
Proof.
  intros Hr Hs. destruct Hr as [q [r ->]|held p k Hk|held p k Hk|held p k Hk
                               |held o n k Hk|held b k Hk|k Hk|k Hk]; simpl in Hs.
  - injection Hs as <- <-. left. eauto.
  - injection Hs as <- <-. right. exists held.
    split; [apply Hk|]. repeat (split; [reflexivity|]). by left.
  - injection Hs as <- <-. right. exists held.
    split; [apply Hk|]. repeat (split; [reflexivity|]). by left.
  - injection Hs as <- <-. right. exists held.
    split; [apply Hk|]. repeat (split; [reflexivity|]). by left.
  - destruct (Fs.rename _ _ _); injection Hs as <- <-; right; exists held;
      (split; [apply Hk|]); repeat (split; [reflexivity|]); by left.
  - injection Hs as <- <-. right. exists held.
    split; [apply Hk|]. repeat (split; [reflexivity|]). by left.
  - destruct (locked σ) eqn:Hl; [discriminate|]. injection Hs as <- <-.
    right. exists true. split; [apply Hk|]. repeat (split; [reflexivity|]).
    right; left. auto.
  - injection Hs as <- <-. right. exists false.
    split; [apply Hk|]. repeat (split; [reflexivity|]). by right; right.
Qed.

Lemma reaches_runSchedule net N c c' :
  reaches net N c c' <-> exists schedule, runSchedule net N schedule c = Some c'.
Proof.
  split.
  - intros Hr. induction Hr as [c|c c1 c2 [i Hi] _ [schedule Hs]].
    + by exists [].
    + exists (i :: schedule). simpl. by rewrite Hi.
  - intros [schedule Hs]. revert c Hs.
    induction schedule as [|i schedule IH]; intros c Hs; simpl in Hs.
    + injection Hs as ->. apply rtc_refl.
    + destruct (poolStep net N i c) as [c1|] eqn:Hi; [|discriminate].
      eapply rtc_l; [by exists i | by apply IH].
Qed.

Section PoolTheory.

Context `{ChangeCase} `{PathModule}.
Variable net : nat -> string -> option Response.
Variable concurrencyLimit : nat.

Lemma startPool_invariant format paths σ :
  locked σ = false -> Tallied σ -> progress σ = [] ->
  PoolInvariant format paths (startPool paths format σ).
Proof.
  intros Hl Ht Hp. unfold PoolInvariant, startPool, processingTasks.
  cbn [world slots]. rewrite Hl, Hp. split; [|split; [|split]].
  - induction paths; simpl; constructor; auto. reflexivity.
  - induction paths; simpl; auto.
  - exact Ht.
  - induction paths; simpl; auto.
Qed.

Lemma poolStep_invariant format paths i c c' :
  PoolInvariant format paths c ->
  poolStep net concurrencyLimit i c = Some c' ->
  PoolInvariant format paths c'.
Proof.
  intros (Hslots & Hperm & Htally & Hhold) Hstep. unfold poolStep in Hstep.
  destruct (slots c !! i) as [s|] eqn:Hi; [|discriminate].
  destruct (Forall2_lookup_r _ _ _ _ _ Hslots Hi) as (p & Hp & Hsp).
  assert (Hins : forall s', SlotOf format p s' ->
             Forall2 (SlotOf format) paths (<[i:=s']> (slots c))).
  { intros s' Hs'. rewrite <- (list_insert_id paths i p Hp).
    by apply Forall2_insert. }
  destruct s as [q|q]; simpl in Hsp.
  - destruct (activeCount (slots c) <? concurrencyLimit); [|discriminate].
    injection Hstep as <-. subst q.
    pose proof (processingTask_residual p format) as Hres.
    split; [|split; [|split]]; cbn [world slots].
    + apply Hins. simpl. eauto.
    + erewrite returnedPaths_insert_same; [exact Hperm | exact Hi |].
      simpl returned at 2. by rewrite (Residual_not_returned _ _ _ Hres).
    + apply Htally.
    + pose proof (sum_list_with_insert (fun s => if slotHolds s then 1 else 0)
                    _ i _ (Running (processingTask p format)) Hi) as Hsum.
      cbn [slotHolds] in Hsum. rewrite (Residual_holdsMutex _ _ _ Hres) in Hsum.
      unfold holders in *. lia.
  - destruct (step (net i) q (world c)) as [[q' σ']|] eqn:Hq; [|discriminate].
    injection Hstep as <-.
    destruct Hsp as [-> | [held Hres]]; [discriminate|].
    pose proof (sum_list_with_insert (fun s => if slotHolds s then 1 else 0)
                  _ i _ (Running q') Hi) as Hsum.
    cbn [slotHolds] in Hsum. rewrite (Residual_holdsMutex _ _ _ Hres) in Hsum.
    unfold holders in *.
    destruct (step_residual _ _ _ _ _ _ _ Hres Hq)
      as [(-> & -> & r & ->) | (held' & Hres' & Hpr & Hre & Hdo & Hlock)].
    + split; [|split; [|split]]; cbn [world slots].
      * apply Hins. simpl. auto.
      * cbn [reported progress]. rewrite map_app. simpl (map _ [_]). rewrite Hperm.
        symmetry. eapply returnedPaths_insert_return; [exact Hi | exact Hp | | reflexivity].
        by rewrite (Residual_not_returned _ _ _ Hres).
      * by apply Tallied_reported.
      * cbn [holdsMutex] in Hsum. cbn [reported locked]. unfold holders. lia.
    + rewrite (Residual_holdsMutex _ _ _ Hres') in Hsum.
      split; [|split; [|split]]; cbn [world slots].
      * apply Hins. simpl. eauto.
      * rewrite Hpr, Hperm.
        erewrite returnedPaths_insert_same; [reflexivity | exact Hi |].
        by rewrite (Residual_not_returned _ _ _ Hres),
                   (Residual_not_returned _ _ _ Hres').
      * destruct Htally as [Ht1 Ht2]. split; [by rewrite Hre, Hpr | by rewrite Hdo, Hpr].
      * unfold holders.
        destruct Hlock as [[-> ->] | [(-> & -> & Hl & ->) | (-> & -> & ->)]].
        -- lia.
        -- rewrite Hl in Hhold. lia.
        -- destruct (locked (world c)); lia.
Qed.

Lemma reaches_invariant format paths c c' :
  PoolInvariant format paths c -> reaches net concurrencyLimit c c' ->
  PoolInvariant format paths c'.
Proof.
  intros Hinv Hr. induction Hr as [|c c1 c2 [i Hi] _ IH]; auto.
  apply IH. by eapply poolStep_invariant.
Qed.

(** At the end every path has its line and the counters add up. *)
Lemma completed_counts format paths c :
  PoolInvariant format paths c -> completed c = true ->
  map image (progress (world c)) ≡ₚ paths /\
  done (world c) = length paths /\
  ofSuccess (results (world c)) + ofSkipped (results (world c)) +
    ofError (results (world c)) = length paths.
Proof.
  intros (Hslots & Hperm & [Hres Hdone] & _) Hc.
  rewrite returnedPaths_completed in Hperm;
    [| by eapply Forall2_length | exact Hc].
  assert (Hlen : length (progress (world c)) = length paths).
  { rewrite <- (length_map image). by rewrite Hperm. }
  repeat split; auto; [lia|].
  rewrite Hres, tally_total, length_map. exact Hlen.
Qed.

End PoolTheory.

(** ** The filter *)

Lemma includes_elem_of arr x : JS.includes arr x = true <-> x ∈ arr.
Proof.
  unfold JS.includes. rewrite existsb_exists. split.
  - intros (y & Hy & Heq). apply String.eqb_eq in Heq as ->. by apply list_elem_of_In.
  - intros Hx. exists x. split; [by apply list_elem_of_In | apply String.eqb_refl].
Qed.

Lemma setAdd_elem_of x y s : y ∈ setAdd x s <-> y = x \/ y ∈ s.
Proof.
  unfold setAdd. destruct (JS.includes s x) eqn:Hi.
  - apply includes_elem_of in Hi. split; [auto | intros [->|]; auto].
  - rewrite elem_of_app, list_elem_of_singleton. tauto.
Qed.

Lemma setAdd_NoDup x s : NoDup s -> NoDup (setAdd x s).
Proof.
  intros Hs. unfold setAdd. destruct (JS.includes s x) eqn:Hi; [done|].
  apply NoDup_app. split; [done|]. split; [|apply NoDup_singleton].
  intros y Hy ->%list_elem_of_singleton.
  apply includes_elem_of in Hy. congruence.
Qed.

Section Filter.

Context `{ChangeCase} `{PathModule}.

Lemma validAmong_NoDup fs imagePaths valid :
  NoDup valid -> NoDup (validAmong fs imagePaths valid).
Proof.
  revert valid. induction imagePaths as [|pth rest IH]; intros valid Hv; simpl; [done|].
  apply IH. destruct (_ && _); [by apply setAdd_NoDup | done].
Qed.

Lemma validAmong_elem_of fs imagePaths valid pth :
  pth ∈ validAmong fs imagePaths valid <->
  pth ∈ valid \/ (pth ∈ imagePaths /\ readableFile fs pth && allowedExtension pth = true).
Proof.
  revert valid. induction imagePaths as [|p rest IH]; intros valid; simpl.
  - rewrite elem_of_nil. tauto.
  - rewrite IH, elem_of_cons. destruct (readableFile fs p && allowedExtension p) eqn:Hp.
    + rewrite setAdd_elem_of. split; [|tauto].
      intros [[->|Hin]|Hin]; [right; split; [by left | done] | by left | ].
      destruct Hin as [Hin Hok]. right. split; [by right | done].
    + split; [tauto|]. intros [Hin|[[->|Hin] Hok]]; [by left | congruence | ].
      right. split; done.
Qed.

(** [filterValidImagePaths] returns, whatever [net]; it leaves the files,
    the mutex and the counters as they were. *)
Lemma exec_filterLoop net imagePaths valid σ :
  exists σ',
    exec net (filterLoop imagePaths valid) σ =
      (Returned (validAmong (files σ) imagePaths valid), σ') /\
    files σ' = files σ /\ locked σ' = locked σ /\ results σ' = results σ /\
    done σ' = done σ /\ progress σ' = progress σ.
Proof.
  revert valid σ. induction imagePaths as [|pth rest IH]; intros valid σ.
  - exists σ. simpl. repeat split; reflexivity.
  - cbn [filterLoop]. rewrite exec_bind.
    destruct (exec_isFileReadable net pth σ) as (σ1 & -> & Hf & Hl & Hr & Hd & Hp).
    fold (readableFile (files σ) pth). fold (allowedExtension pth).
    cbn [validAmong fold_left]. fold (validAmong (files σ) rest).
    destruct (readableFile (files σ) pth && allowedExtension pth).
    + destruct (IH (setAdd pth valid) σ1) as (σ' & -> & Hf' & Hl' & Hr' & Hd' & Hp').
      exists σ'. rewrite Hf. split; [done|]. repeat split; congruence.
    + destruct (IH valid σ1) as (σ' & -> & Hf' & Hl' & Hr' & Hd' & Hp').
      exists σ'. rewrite Hf. split; [done|]. repeat split; congruence.
Qed.

Lemma validImagePathsOf_spec fs argv :
  exists σ,
    validImagePathsOf fs argv = (Returned (validAmong fs argv []), σ) /\
    files σ = fs /\ locked σ = false /\ Tallied σ /\ progress σ = [].
Proof.
  unfold validImagePathsOf, filterValidImagePaths.
  destruct (exec_filterLoop (fun _ => None) argv [] (initialWorld fs))
    as (σ & -> & Hf & Hl & Hr & Hd & Hp).
  exists σ. repeat split; auto.
  - by rewrite Hr, Hp.
  - by rewrite Hd, Hp.
Qed.

Lemma mainPool_invariant fs argv format c0 :
  mainPool fs argv format = Some c0 ->
  PoolInvariant format (validAmong fs argv []) c0 /\
  files (world c0) = fs.
Proof.
  unfold mainPool. destruct (validImagePathsOf_spec fs argv) as (σ & -> & Hf & Hl & Ht & Hp).
  destruct (validAmong fs argv []) as [|p valid] eqn:Hv; [discriminate|].
  intros [= <-]. split; [by apply startPool_invariant | exact Hf].
Qed.

Lemma mainPool_start fs argv format p rest σ :
  validImagePathsOf fs argv = (Returned (p :: rest), σ) ->
  mainPool fs argv format = Some (startPool (p :: rest) format σ).
Proof. intros Hv. unfold mainPool. by rewrite Hv. Qed.

End Filter.

(** ** The scheduler comes to its end *)

Lemma sum_list_with_pos {A} (f : A -> nat) (l : list A) :
  0 < sum_list_with f l -> exists i x, l !! i = Some x /\ 0 < f x.
Proof.
  induction l as [|y l IH]; simpl; [lia|]. intros Hpos.
  destruct (f y) eqn:Hy.
  - destruct IH as (i & x & Hi & Hx); [lia|]. by exists (S i), x.
  - exists 0, y. simpl. split; [done | lia].
Qed.

Lemma unreturned_zero ss : unreturned ss = 0 -> forallb returned ss = true.
Proof.
  unfold unreturned. induction ss as [|s ss IH]; simpl; [done|].
  destruct (returned s); simpl; [auto | lia].
Qed.

Lemma activeCount_zero ss i s :
  activeCount ss = 0 -> ss !! i = Some s -> active s = false.
Proof.
  unfold activeCount. intros Hz Hi.
  destruct (active s) eqn:Ha; [|done].
  assert (Hin : s ∈ filter (fun s => active s = true) ss).
  { apply list_elem_of_filter. split; [done|]. by eapply list_elem_of_lookup_2. }
  destruct (filter _ ss); [by apply elem_of_nil in Hin | discriminate].
Qed.

Lemma activeCount_pos ss :
  0 < activeCount ss -> exists i s, ss !! i = Some s /\ active s = true.
Proof.
  unfold activeCount. intros Hpos.
  destruct (filter (fun s => active s = true) ss) as [|s l] eqn:Hf; [simpl in Hpos; lia|].
  assert (Hin : s ∈ filter (fun s => active s = true) ss) by (rewrite Hf; left).
  apply list_elem_of_filter in Hin as [Ha Hin].
  apply list_elem_of_lookup in Hin as [i Hi]. eauto.
Qed.

Section Completion.

Context `{ChangeCase} `{PathModule}.
Variable net : nat -> string -> option Response.
Variable concurrencyLimit : nat.
Hypothesis limit_positive : 1 <= concurrencyLimit.

Lemma slot_next i q c q1 σ1 :
  slots c !! i = Some (Running q) ->
  step (net i) q (world c) = Some (q1, σ1) ->
  (exists c',
     reaches net concurrencyLimit {| world := σ1; slots := <[i := Running q1]> (slots c) |} c' /\
     slots c' = <[i := Running (Ret tt)]> (<[i := Running q1]> (slots c))) ->
  exists c', reaches net concurrencyLimit c c' /\ slots c' = <[i := Running (Ret tt)]> (slots c).
Proof.
  intros Hi Hs (c' & Hr & Hsl). exists c'. split.
  - eapply rtc_l; [|exact Hr]. exists i. unfold poolStep. by rewrite Hi, Hs.
  - rewrite Hsl. apply list_insert_insert_eq.
Qed.

(** A task that holds the mutex, or finds it free, can be run to its
    return without any other task moving. *)
Lemma run_slot i imagePath held q :
  Residual imagePath held q ->
  forall c, slots c !! i = Some (Running q) ->
    held = true \/ locked (world c) = false ->
    exists c', reaches net concurrencyLimit c c' /\ slots c' = <[i := Running (Ret tt)]> (slots c).
Proof.
  intros Hres.
  induction Hres as [q [r ->]|held p k Hk IH|held p k Hk IH|held p k Hk IH
                    |held o n k Hk IH|held b k Hk IH|k Hk IH|k Hk IH];
    intros c Hi Hlock;
    assert (Hlt : i < length (slots c)) by (by eapply lookup_lt_Some).
  - exists {| world := reported imagePath r (world c);
              slots := <[i := Running (Ret tt)]> (slots c) |}.
    split; [|done]. apply rtc_once. exists i. unfold poolStep. by rewrite Hi.
  - eapply slot_next; [exact Hi | reflexivity |].
    eapply IH; [by apply list_lookup_insert_eq | done].
  - eapply slot_next; [exact Hi | reflexivity |].
    eapply IH; [by apply list_lookup_insert_eq | done].
  - eapply slot_next; [exact Hi | reflexivity |].
    eapply IH; [by apply list_lookup_insert_eq | done].
  - destruct (step (net i) (FsRename o n k) (world c)) as [[q1 σ1]|] eqn:Hs;
      [|simpl in Hs; by destruct (Fs.rename _ _ _)].
    assert (exists x, q1 = k x /\ locked σ1 = locked (world c)) as (x & -> & Hl).
    { simpl in Hs. destruct (Fs.rename _ _ _); injection Hs as <- <-; eauto. }
    eapply slot_next; [exact Hi | exact Hs |].
    eapply IH; [by apply list_lookup_insert_eq | by cbn [world]; rewrite Hl].
  - eapply slot_next; [exact Hi | reflexivity |].
    eapply IH; [by apply list_lookup_insert_eq | done].
  - destruct Hlock as [|Hfree]; [discriminate|].
    eapply slot_next; [exact Hi | simpl; by rewrite Hfree |].
    apply IH; [by apply list_lookup_insert_eq | by left].
  - eapply slot_next; [exact Hi | reflexivity |].
    apply IH; [by apply list_lookup_insert_eq | by right].
Qed.

(** From every pool [main] can be in, the tasks can all be brought to
    their return: the mutex never stays held, and the limit, being at
    least one, always lets a queued task start once the running ones are
    through. *)
Lemma pool_completes format paths :
  forall n c, unreturned (slots c) = n -> PoolInvariant format paths c ->
    exists c', reaches net concurrencyLimit c c' /\ completed c' = true.
Proof.
  induction n as [|n IH]; intros c Hn Hinv.
  { exists c. split; [apply rtc_refl | by apply unreturned_zero]. }
  assert (Hfinish : forall c1 i p held q,
    reaches net concurrencyLimit c c1 -> unreturned (slots c1) = S n ->
    slots c1 !! i = Some (Running q) -> Residual p held q ->
    held = true \/ locked (world c1) = false ->
    exists c', reaches net concurrencyLimit c c' /\ completed c' = true).
  { intros c1 i p held q Hr1 Hn1 Hi Hres Hlock.
    destruct (run_slot i p held q Hres c1 Hi Hlock) as (c2 & Hr2 & Hs2).
    destruct (IH c2) as (c' & Hr' & Hc').
    - pose proof (sum_list_with_insert (fun s => if returned s then 0 else 1)
                    _ i _ (Running (Ret tt)) Hi) as Hsum.
      cbv beta in Hsum. rewrite (Residual_not_returned _ _ _ Hres) in Hsum.
      change (returned (Running (Ret tt))) with true in Hsum.
      unfold unreturned in *. rewrite Hs2. lia.
    - eapply reaches_invariant; [exact Hinv|]. by etrans.
    - exists c'. split; [|done]. etrans; [exact Hr1|]. by etrans. }
  destruct Hinv as (Hslots & Hperm & Htally & Hhold).
  assert (Hinv : PoolInvariant format paths c) by done.
  destruct (locked (world c)) eqn:Hl.
  - (* the holder of the mutex goes first *)
    destruct (sum_list_with_pos (fun s => if slotHolds s then 1 else 0) (slots c))
      as (i & s & Hi & Hs); [unfold holders in Hhold; lia|].
    destruct (Forall2_lookup_r _ _ _ _ _ Hslots Hi) as (p & Hp & Hsp).
    destruct s as [q|q]; simpl in Hs; [lia|].
    destruct (holdsMutex q) eqn:Hq; [|lia].
    destruct Hsp as [-> | [held Hres]]; [discriminate|].
    rewrite (Residual_holdsMutex _ _ _ Hres) in Hq. subst held.
    eapply (Hfinish c i p true q); eauto. apply rtc_refl.
  - destruct (Nat.eq_dec (activeCount (slots c)) 0) as [Hz|Hnz].
    + (* nothing is running: a queued task starts *)
      destruct (sum_list_with_pos (fun s => if returned s then 0 else 1) (slots c))
        as (i & s & Hi & Hs); [unfold unreturned in Hn; rewrite Hn; lia|].
      destruct (Forall2_lookup_r _ _ _ _ _ Hslots Hi) as (p & Hp & Hsp).
      pose proof (activeCount_zero _ _ _ Hz Hi) as Hact.
      destruct s as [q|q].
      * simpl in Hsp. subst q.
        set (c1 := {| world := world c;
                      slots := <[i := Running (processingTask p format)]> (slots c) |}).
        assert (Hstep : poolStep net concurrencyLimit i c = Some c1).
        { unfold poolStep. rewrite Hi, Hz.
          destruct (0 <? concurrencyLimit) eqn:Hlt; [done|].
          apply Nat.ltb_ge in Hlt. lia. }
        eapply (Hfinish c1 i p false (processingTask p format)).
        -- apply rtc_once. by exists i.
        -- pose proof (sum_list_with_insert (fun s => if returned s then 0 else 1)
                         _ i _ (Running (processingTask p format)) Hi) as Hsum.
           cbv beta in Hsum.
           change (returned (Queued (processingTask p format))) with false in Hsum.
           change (returned (Running (processingTask p format))) with false in Hsum.
           unfold unreturned in *. subst c1. cbn [slots]. lia.
        -- subst c1. cbn [slots]. apply list_lookup_insert_eq. by eapply lookup_lt_Some.
        -- apply processingTask_residual.
        -- right. subst c1. by cbn [world].
      * destruct Hsp as [-> | [held Hres]]; [simpl in Hs; lia|].
        exfalso. destruct Hres as [q [r ->]| | | | | | |]; discriminate.
    + (* a running task goes on *)
      destruct (activeCount_pos (slots c)) as (i & s & Hi & Ha); [lia|].
      destruct (Forall2_lookup_r _ _ _ _ _ Hslots Hi) as (p & Hp & Hsp).
      destruct s as [q|q]; [discriminate|].
      destruct Hsp as [-> | [held Hres]]; [discriminate|].
      eapply (Hfinish c i p held q); eauto. apply rtc_refl.
Qed.

End Completion.

(** ** Every run is finite *)

Lemma Within_mono {A} n m (p : prog A) : n <= m -> Within n p -> Within m p.
Proof.
  intros Hle Hw. revert m Hle.
  induction Hw; intros m Hle; try (by constructor);
    (destruct m as [|m]; [lia|]); constructor; auto with lia.
Qed.

Lemma Within_bind {A B} n k (m : prog A) (f : A -> prog B) :
  Within n m -> (forall a, Within k (f a)) -> Within (n + k) (bind m f).
Proof.
  intros Hm Hf. induction Hm; simpl; try (by constructor); try (constructor; auto).
  apply Within_mono with k; [lia | apply Hf].
Qed.

Lemma Within_tryCatch {A} n k (m h : prog A) :
  Within n m -> Within k h -> Within (n + k) (tryCatch m h).
Proof.
  intros Hm Hh. induction Hm; simpl; try (by constructor); try (constructor; auto).
  apply Within_mono with k; [lia | done].
Qed.

Lemma Within_finallyRelease {A} n (m : prog A) :
  Within n m -> Within (S n) (finallyRelease m).
Proof.
  intros Hm. induction Hm; simpl; try (constructor; auto; fail);
    repeat constructor.
Qed.

Lemma step_Within {A} net n (p p' : prog A) σ σ' :
  Within n p -> step net p σ = Some (p', σ') -> exists m, n = S m /\ Within m p'.
Proof.
  intros Hw Hs. destruct Hw; simpl in Hs; try discriminate;
    try (injection Hs as <- <-; eexists; split; [reflexivity | auto]).
  - destruct (Fs.rename _ _ _); injection Hs as <- <-; eexists; (split; [reflexivity | auto]).
  - destruct (locked σ); [discriminate|]. injection Hs as <- <-. eauto.
Qed.

Section Bound.

Context `{ChangeCase} `{PathModule}.

(** A task makes at most seven calls: read, request, acquire, stat,
    rename, release, report. *)
Lemma processingTask_within imagePath format :
  Within 7 (processingTask imagePath format).
Proof.
  unfold processingTask. apply (Within_bind 6 1); [|intros r; repeat constructor].
  unfold processImage. apply (Within_tryCatch 6 0); [|constructor].
  unfold processImageTry. apply (Within_bind 1 5).
  { unfold imageToBase64. apply (Within_bind 1 0); [|constructor].
    constructor. intros [x|]; constructor. }
  intros imageBase64. apply (Within_bind 1 4).
  { unfold getNewFilename, Await.fetch. cbn [bind]. constructor. intros [response|]; cbn [bind].
    - destruct (negb (ok response)); [constructor|].
      unfold Await.responseJson. destruct (json response) as [body|]; cbn [bind]; [|constructor].
      destruct (trimmedContent body) as [text|]; [|constructor].
      destruct (JS.falsy text); constructor.
    - constructor. }
  intros aiName. destruct (JS.falsy aiName); [constructor|]. cbv zeta.
  destruct (JS.falsy _); [constructor|]. destruct (String.eqb _ _); [constructor|].
  unfold Await.runExclusive. constructor. apply Within_finallyRelease.
  unfold checkThenRename. apply (Within_bind 1 1).
  - unfold doesFileExist. apply (Within_tryCatch 1 0); [|constructor].
    apply (Within_bind 1 0); [|constructor]. constructor. intros [st|]; constructor.
  - intros [|]; [constructor|]. apply (Within_bind 1 0); [|constructor].
    constructor. intros [|]; constructor.
Qed.

Variable net : nat -> string -> option Response.
Variable concurrencyLimit : nat.

Lemma poolStep_budget ns i c c' :
  Forall2 SlotWithin ns (slots c) ->
  poolStep net concurrencyLimit i c = Some c' ->
  exists ns', Forall2 SlotWithin ns' (slots c') /\ S (sum_list ns') = sum_list ns.
Proof.
  intros Hb Hstep. unfold poolStep in Hstep.
  destruct (slots c !! i) as [s|] eqn:Hi; [|discriminate].
  destruct (Forall2_lookup_r _ _ _ _ _ Hb Hi) as (n & Hn & Hsn).
  assert (Hdone : forall m s', n = S m -> SlotWithin m s' ->
            c' = {| world := world c'; slots := <[i := s']> (slots c) |} ->
            exists ns', Forall2 SlotWithin ns' (slots c') /\ S (sum_list ns') = sum_list ns).
  { intros m s' -> Hs' ->. exists (<[i := m]> ns). split.
    - by apply Forall2_insert.
    - pose proof (sum_list_with_insert id ns i (S m) m Hn) as Hsum.
      change (id (S m)) with (S m) in Hsum. change (id m) with m in Hsum. lia. }
  destruct s as [p|p]; simpl in Hsn.
  - destruct (_ <? _); [|discriminate]. injection Hstep as <-.
    destruct Hsn as (m & -> & Hw). by eapply (Hdone m (Running p)).
  - destruct (step (net i) p (world c)) as [[p' σ']|] eqn:Hp; [|discriminate].
    injection Hstep as <-.
    destruct (step_Within _ _ _ _ _ _ Hsn Hp) as (m & -> & Hw).
    by eapply (Hdone m (Running p')).
Qed.

(** A schedule that can be run is no longer than the steps the slots
    have left. *)
Lemma runSchedule_bounded schedule : forall ns c c',
  Forall2 SlotWithin ns (slots c) ->
  runSchedule net concurrencyLimit schedule c = Some c' ->
  length schedule <= sum_list ns.
Proof.
  induction schedule as [|i schedule IH]; intros ns c c' Hb Hrun; simpl in *; [lia|].
  destruct (poolStep net concurrencyLimit i c) as [c1|] eqn:Hi; [|discriminate].
  destruct (poolStep_budget ns i c c1 Hb Hi) as (ns' & Hb' & Hsum).
  specialize (IH ns' c1 c' Hb' Hrun). lia.
Qed.

Lemma startPool_budget format paths σ :
  Forall2 SlotWithin (replicate (length paths) 8) (slots (startPool paths format σ)).
Proof.
  induction paths as [|p paths IH]; simpl; constructor; [|exact IH].
  exists 7. split; [reflexivity | apply processingTask_within].
Qed.

End Bound.

(** ** The claims on a whole run *)

Section RunClaims.

Context `{ChangeCase} `{PathModule}.

(** X22. From the pool [main] starts, the tasks can always all be brought
    to their return, from wherever a schedule has led, when the limit is at
    least one (the prompt of [main] accepts no other value). *)
Lemma scheduler_can_complete (fs : gmap string Node) (argv : list string)
    (format : Format) (net : nat -> string -> option Response)
    (concurrencyLimit : nat) (schedule : list nat) (c0 c : Pool) :
  1 <= concurrencyLimit ->
  mainPool fs argv format = Some c0 ->
  runSchedule net concurrencyLimit schedule c0 = Some c ->
  exists rest c',
    runSchedule net concurrencyLimit rest c = Some c' /\ completed c' = true.
Proof.
  intros Hlimit Hmain Hrun.
  apply mainPool_invariant in Hmain as [Hinv _].
  assert (Hinv' : PoolInvariant format (validAmong fs argv []) c).
  { eapply reaches_invariant; [exact Hinv|]. apply reaches_runSchedule. eauto. }
  destruct (pool_completes net concurrencyLimit Hlimit format _ _ c eq_refl Hinv')
    as (c' & Hr & Hc).
  apply reaches_runSchedule in Hr as [rest Hrest]. eauto.
Qed.

(** X23. No task of a run ever ends in an exception: [Promise.all]
    cannot reject. *)
Lemma no_task_throws (fs : gmap string Node) (argv : list string)
    (format : Format) (net : nat -> string -> option Response)
    (concurrencyLimit : nat) (schedule : list nat) (c0 c : Pool) :
  mainPool fs argv format = Some c0 ->
  runSchedule net concurrencyLimit schedule c0 = Some c ->
  Forall (fun s => s <> Running Throw) (slots c).
Proof.
  intros Hmain Hrun.
  apply mainPool_invariant in Hmain as [Hinv _].
  assert (Hinv' : PoolInvariant format (validAmong fs argv []) c).
  { eapply reaches_invariant; [exact Hinv|]. apply reaches_runSchedule. eauto. }
  destruct Hinv' as (Hslots & _). clear Hinv Hrun. revert Hslots.
  generalize (validAmong fs argv []) (slots c). intros paths ss Hslots.
  induction Hslots as [|p s paths ss Hs _ IH]; constructor; [|exact IH].
  destruct s as [q|q]; [discriminate|]. simpl in Hs.
  destruct Hs as [-> | [held Hres]]; [discriminate|].
  intros [= ->]. inversion Hres as [q' [r Hq]| | | | | | |]. discriminate Hq.
Qed.

(** X24. No schedule of the tasks [main] starts is longer than eight
    steps for each valid path: the scheduler cannot run forever. *)
Lemma scheduler_terminates (fs : gmap string Node) (argv : list string)
    (format : Format) (net : nat -> string -> option Response)
    (concurrencyLimit : nat) (schedule : list nat) (c0 c : Pool) :
  mainPool fs argv format = Some c0 ->
  runSchedule net concurrencyLimit schedule c0 = Some c ->
  length schedule <= 8 * length (validAmong fs argv []).
Proof.
  intros Hmain Hrun. unfold mainPool in Hmain.
  destruct (validImagePathsOf_spec fs argv) as (σ & Hv & _). rewrite Hv in Hmain.
  destruct (validAmong fs argv []) as [|p valid] eqn:Hvalid; [discriminate|].
  injection Hmain as <-.
  pose proof (runSchedule_bounded net concurrencyLimit schedule _ _ _
                (startPool_budget format (p :: valid) σ) Hrun) as Hlen.
  rewrite sum_list_replicate in Hlen. lia.
Qed.

(** C3. For every run of [main] (every file system, argument list,
    format, limit, answers of the service and schedule of the tasks):
    once every task has returned, the three counters add up to the number
    of valid paths, which [done] equals as well; the valid paths are
    pairwise distinct and the progress lines name each of them once; and
    the counters count exactly the results on these lines.  That every run
    comes to this point is [scheduler_can_complete] and
    [scheduler_terminates]. *)
Theorem scheduler_counts_every_path (fs : gmap string Node) (argv : list string)
    (format : Format) (net : nat -> string -> option Response)
    (concurrencyLimit : nat) (schedule : list nat) (c0 c : Pool) :
  mainPool fs argv format = Some c0 ->
  runSchedule net concurrencyLimit schedule c0 = Some c ->
  completed c = true ->
  exists validImagePaths,
    fst (validImagePathsOf fs argv) = Returned validImagePaths /\
    NoDup validImagePaths /\
    ofSuccess (results (world c)) + ofSkipped (results (world c)) +
      ofError (results (world c)) = length validImagePaths /\
    done (world c) = length validImagePaths /\
    map image (progress (world c)) ≡ₚ validImagePaths /\
    results (world c) = tally (map outcome (progress (world c))).
Proof.
  intros Hmain Hrun Hdone.
  apply mainPool_invariant in Hmain as [Hinv _].
  assert (Hinv' : PoolInvariant format (validAmong fs argv []) c).
  { eapply reaches_invariant; [exact Hinv|]. apply reaches_runSchedule. eauto. }
  destruct (completed_counts _ _ _ Hinv' Hdone) as (Hperm & Hd & Hsum).
  exists (validAmong fs argv []).
  destruct (validImagePathsOf_spec fs argv) as (σ & -> & _).
  split; [reflexivity|]. split; [apply validAmong_NoDup, NoDup_nil_2|].
  repeat split; auto. apply Hinv'.
Qed.

(** C9. A path whose extension, in lower case, is none of [.png],
    [.jpg], [.jpeg], [.webp], or that is no readable regular file, is not
    in the set [filterValidImagePaths] returns, which is built before
    any task exists and without touching the files; whatever the tasks
    then do, no progress line names the path, and the counters count the
    progress lines only. *)
Theorem filter_excludes_before_scheduling (fs : gmap string Node) (argv : list string)
    (pth : string) (format : Format) (net : nat -> string -> option Response)
    (concurrencyLimit : nat) (schedule : list nat) :
  allowedExtension pth = false \/ readableFile fs pth = false ->
  exists validImagePaths σ,
    validImagePathsOf fs argv = (Returned validImagePaths, σ) /\
    files σ = fs /\ progress σ = [] /\
    (pth ∉ validImagePaths) /\
    forall c0 c,
      mainPool fs argv format = Some c0 ->
      runSchedule net concurrencyLimit schedule c0 = Some c ->
      (pth ∉ map image (progress (world c))) /\
      results (world c) = tally (map outcome (progress (world c))).
Proof.
  intros Hbad.
  destruct (validImagePathsOf_spec fs argv) as (σ & Hv & Hf & Hl & Ht & Hp).
  assert (Hnot : pth ∉ validAmong fs argv []).
  { rewrite validAmong_elem_of, elem_of_nil. intros [[]|[_ Hok]].
    apply andb_true_iff in Hok as [Hr Ha]. destruct Hbad; congruence. }
  exists (validAmong fs argv []), σ.
  split; [done|]. split; [done|]. split; [done|]. split; [done|].
  intros c0 c Hmain Hrun.
  apply mainPool_invariant in Hmain as [Hinv _].
  assert (Hinv' : PoolInvariant format (validAmong fs argv []) c).
  { eapply reaches_invariant; [exact Hinv|]. apply reaches_runSchedule. eauto. }
  destruct Hinv' as (_ & Hperm & [Hres _] & _). split; [|exact Hres].
  rewrite Hperm. intros Hin. by apply returnedPaths_subset in Hin.
Qed.

End RunClaims.

(** ** Usable descriptions *)

Lemma usableText_Some answer text :
  usableText answer = Some text ->
  exists response data,
    answer = Some response /\ ok response = true /\ json response = Some data /\
    trimmedContent data = Some text /\ JS.isEmpty text = false.
Proof.
  unfold usableText. destruct answer as [response|]; [|discriminate].
  destruct (ok response) eqn:Hok; [|discriminate].
  destruct (json response) as [data|] eqn:Hj; [|discriminate].
  destruct (trimmedContent data) as [t|] eqn:Ht; [|discriminate].
  destruct (JS.isEmpty t) eqn:He; [discriminate|].
  intros [= <-]. exists response, data. auto.
Qed.

(** * Further properties of the source *)

(** ** One pipeline *)

Section PipelineProperties.

Context `{ChangeCase} `{PathModule}.

(** X1. The pipeline that succeeds.  When the read of the image
    succeeds, the service gives a usable description, the sanitized name
    is not empty, the new path differs from the path of the image, the
    [stat] of the new path finds no regular file and the rename call
    succeeds: [processImage] returns [success] with the new path; the
    file system is what the rename has made of it, with the node of the
    image at the new location, its old location free and every other
    location as before; the calls are the read, the request, the [stat]
    of the new path and the rename, in this order; the mutex is free
    again and the counters of [main] are untouched. *)
Theorem processImage_renames (imagePath : string) (format : Format)
    (net : string -> option Response) (σ : World) (buffer aiName : string)
    (fs' : gmap string Node) :
  locked σ = false ->
  Fs.readFile (files σ) (locate imagePath) = Some buffer ->
  usableText (net (dataUrlOf imagePath buffer)) = Some aiName ->
  convertCase aiName format <> "" ->
  newFilePathOf imagePath (convertCase aiName format) <> imagePath ->
  noFile (Fs.stat (files σ)
            (locate (newFilePathOf imagePath (convertCase aiName format)))) = true ->
  Fs.rename (files σ) (locate imagePath)
    (locate (newFilePathOf imagePath (convertCase aiName format))) = Some fs' ->
  exists σ',
    exec net (processImage imagePath format) σ =
      (Returned (Success (newFilePathOf imagePath (convertCase aiName format))), σ') /\
    files σ' = fs' /\
    files σ' !! locate (newFilePathOf imagePath (convertCase aiName format)) =
      files σ !! locate imagePath /\
    (locate imagePath <> locate (newFilePathOf imagePath (convertCase aiName format)) ->
     files σ' !! locate imagePath = None) /\
    (forall location, location <> locate imagePath ->
       location <> locate (newFilePathOf imagePath (convertCase aiName format)) ->
       files σ' !! location = files σ !! location) /\
    callsSince σ σ' =
      pipelineCalls imagePath (dataUrlOf imagePath buffer)
        (newFilePathOf imagePath (convertCase aiName format)) /\
    locked σ' = false /\ results σ' = results σ /\ done σ' = done σ /\
    progress σ' = progress σ.
Proof.
  intros Hfree Hread Htext Hname Hother Hstat Hrename.
  set (newFilePath := newFilePathOf imagePath (convertCase aiName format)) in *.
  rewrite exec_processImage. cbv zeta. rewrite Hread, Htext.
  apply isEmpty_false in Hname. rewrite Hname. fold newFilePath.
  destruct (String.eqb_spec imagePath newFilePath) as [Heq|_]; [by symmetry in Heq|].
  rewrite exec_runExclusive_checkThenRename by done. cbv zeta.
  cbn [files called withLocked]. rewrite Hrename.
  destruct (rename_moves _ _ _ _ Hrename) as (Hnew & _ & Hold & Hrest).
  assert (Hcalls : forall τ, calls τ = calls σ ++
            pipelineCalls imagePath (dataUrlOf imagePath buffer) newFilePath ->
            callsSince σ τ =
              pipelineCalls imagePath (dataUrlOf imagePath buffer) newFilePath)
    by (intros τ; apply callsSince_app).
  unfold noFile in Hstat.
  destruct (Fs.stat (files σ) (locate newFilePath)) as [[[|]]|]; [discriminate| |];
    (eexists; split; [reflexivity|]); cbn [files withFiles withLocked called];
    (split; [reflexivity|]); (split; [exact Hnew|]); (split; [exact Hold|]);
    (split; [exact Hrest|]); (split; [|done]);
    apply Hcalls; simpl; by rewrite <- !app_assoc.
Qed.

(** X2. All or nothing.  Run with the mutex free, [processImage]
    returns one result.  When the result is [success] with a new path,
    that path differs from the path of the image, the read of the image
    succeeded, the [stat] of the new path found no regular file, and the
    file system is what the rename call on the two paths has made of it.
    With any other result the file system is exactly as before.  In both
    cases every regular file and every directory at another location
    than that of the image is kept as it was. *)
Theorem processImage_all_or_nothing (imagePath : string) (format : Format)
    (net : string -> option Response) (σ : World) :
  locked σ = false ->
  exists (result : ProcessResult) (σ' : World),
    exec net (processImage imagePath format) σ = (Returned result, σ') /\
    match result with
    | Success newPath =>
        newPath <> imagePath /\
        is_Some (Fs.readFile (files σ) (locate imagePath)) /\
        noFile (Fs.stat (files σ) (locate newPath)) = true /\
        Fs.rename (files σ) (locate imagePath) (locate newPath) = Some (files σ')
    | _ => files σ' = files σ
    end /\
    (forall location n, location <> locate imagePath ->
       files σ !! location = Some n -> isRegular n || isDirectory n = true ->
       files σ' !! location = Some n).
Proof.
  intros Hfree. rewrite exec_processImage. cbv zeta.
  destruct (Fs.readFile (files σ) (locate imagePath)) as [buffer|] eqn:Hread;
    [|by eexists _, _].
  destruct (usableText _) as [aiName|]; [|by eexists _, _].
  destruct (JS.isEmpty _); [by eexists _, _|].
  destruct (String.eqb_spec imagePath (newFilePathOf imagePath (convertCase aiName format)))
    as [|Hne]; [by eexists _, _|].
  rewrite exec_runExclusive_checkThenRename by done. cbv zeta.
  set (newFilePath := newFilePathOf imagePath (convertCase aiName format)) in *.
  cbn [files called withLocked].
  assert (Hmoved : forall fs', noFile (Fs.stat (files σ) (locate newFilePath)) = true ->
            Fs.rename (files σ) (locate imagePath) (locate newFilePath) = Some fs' ->
            forall location n, location <> locate imagePath ->
              files σ !! location = Some n -> isRegular n || isDirectory n = true ->
              fs' !! location = Some n).
  { intros fs' Hstat Hrename location n Hl Hn Hkind.
    destruct (rename_moves _ _ _ _ Hrename) as (_ & _ & _ & Hrest).
    destruct (decide (location = locate newFilePath)) as [->|Hl'];
      [|by rewrite Hrest].
    exfalso. unfold noFile, Fs.stat in Hstat. rewrite Hn in Hstat.
    unfold Fs.rename in Hrename.
    destruct (files σ !! locate imagePath) as [src|]; [|discriminate].
    destruct (renamable src); [|discriminate]. simpl in Hrename. rewrite Hn in Hrename.
    cbn [isFile] in Hstat. destruct (isRegular n); [discriminate|].
    simpl in Hkind. rewrite Hkind, orb_true_r in Hrename. discriminate. }
  destruct (Fs.stat (files σ) (locate newFilePath)) as [[[|]]|] eqn:Hstat;
    [by eexists _, _| |];
    (destruct (Fs.rename (files σ) (locate imagePath) (locate newFilePath))
       as [fs'|] eqn:Hrename; [|by eexists _, _]);
    (eexists _, _; split; [reflexivity|]); cbn [files withFiles withLocked called];
    (split; [|exact (Hmoved fs' eq_refl eq_refl)]);
    (split; [congruence|]); (split; [eauto|]); (split; [by rewrite Hstat|done]).
Qed.

(** X3. A description that leaves no name.  When the file was read and
    the description is usable but [convertCase] makes the empty string of
    it, [processImage] returns [skipped] after the read and the request:
    the new path is never looked at, and the file system is as before. *)
Theorem empty_name_is_skipped (imagePath : string) (format : Format)
    (net : string -> option Response) (σ : World) (buffer aiName : string) :
  Fs.readFile (files σ) (locate imagePath) = Some buffer ->
  usableText (net (dataUrlOf imagePath buffer)) = Some aiName ->
  convertCase aiName format = "" ->
  exists σ',
    exec net (processImage imagePath format) σ = (Returned Skipped, σ') /\
    files σ' = files σ /\ locked σ' = locked σ /\
    callsSince σ σ' = [CallReadFile imagePath; CallFetch (dataUrlOf imagePath buffer)].
Proof.
  intros Hread Htext Hname. rewrite exec_processImage. cbv zeta.
  rewrite Hread, Htext, Hname. simpl.
  eexists. split; [reflexivity|]. split; [reflexivity|]. split; [reflexivity|].
  apply callsSince_app. simpl. by rewrite <- app_assoc.
Qed.

(** X4. An image that cannot be read.  When [fs.readFile] rejects (the
    path is missing, a directory, or not readable), [processImage]
    returns [error] after this one call: no request is sent to the
    service, and the file system and the mutex are as before. *)
Theorem unreadable_image_is_error (imagePath : string) (format : Format)
    (net : string -> option Response) (σ : World) :
  Fs.readFile (files σ) (locate imagePath) = None ->
  exists σ',
    exec net (processImage imagePath format) σ = (Returned Error, σ') /\
    files σ' = files σ /\ locked σ' = locked σ /\
    callsSince σ σ' = [CallReadFile imagePath].
Proof.
  intros Hread. rewrite exec_processImage. cbv zeta. rewrite Hread.
  eexists. split; [reflexivity|]. split; [reflexivity|]. split; [reflexivity|].
  apply callsSince_called.
Qed.

(** X5. The order of the calls.  Run with the mutex free, [processImage]
    makes its calls in one order and none of them twice: what it has
    called is a prefix of the read of the image, one request, the [stat]
    of one new path and the rename of the image to that path.  A rename is
    thus always preceded by the [stat] of its destination, and a request
    by the read. *)
Theorem processImage_calls_in_order (imagePath : string) (format : Format)
    (net : string -> option Response) (σ : World) :
  locked σ = false ->
  exists (result : ProcessResult) (σ' : World) (imageBase64 newFilePath : string),
    exec net (processImage imagePath format) σ = (Returned result, σ') /\
    callsSince σ σ' `prefix_of` pipelineCalls imagePath imageBase64 newFilePath /\
    (forall newPath, result = Success newPath ->
       newPath = newFilePath /\
       callsSince σ σ' = pipelineCalls imagePath imageBase64 newFilePath).
Proof.
  intros Hfree. rewrite exec_processImage. cbv zeta.
  destruct (Fs.readFile (files σ) (locate imagePath)) as [buffer|] eqn:Hread.
  2:{ exists Error, (called (CallReadFile imagePath) σ), "", "".
      split; [reflexivity|]. split; [|discriminate].
      rewrite callsSince_called. by eexists. }
  destruct (usableText _) as [aiName|] eqn:Htext.
  2:{ eexists _, _, (dataUrlOf imagePath buffer), "".
      split; [reflexivity|]. split; [|discriminate].
      erewrite callsSince_app; [|by rewrite !calls_called, <- app_assoc]. by eexists. }
  destruct (JS.isEmpty _).
  { eexists _, _, (dataUrlOf imagePath buffer), "".
    split; [reflexivity|]. split; [|discriminate].
    erewrite callsSince_app; [|by rewrite !calls_called, <- app_assoc]. by eexists. }
  destruct (String.eqb _ _).
  { eexists _, _, (dataUrlOf imagePath buffer), "".
    split; [reflexivity|]. split; [|discriminate].
    erewrite callsSince_app; [|by rewrite !calls_called, <- app_assoc]. by eexists. }
  rewrite exec_runExclusive_checkThenRename by done. cbv zeta.
  destruct (Fs.stat _ _) as [[[|]]|]; [| destruct (Fs.rename _ _ _) ..];
    eexists _, _, (dataUrlOf imagePath buffer),
      (newFilePathOf imagePath (convertCase aiName format));
    (split; [reflexivity|]);
    (erewrite callsSince_app; [|simpl; by rewrite <- !app_assoc]);
    (split; [by eexists|]); try discriminate;
    by intros ? [= <-].
Qed.

End PipelineProperties.

(** ** The functions the pipeline calls *)

Lemma allWhiteSpace_trimStart s : JS.trimStart s = "" <-> allWhiteSpace s = true.
Proof.
  induction s as [|c s IH]; simpl; [done|].
  unfold allWhiteSpace in *. simpl. destruct (JS.isWhiteSpace c); simpl; [exact IH|].
  split; discriminate.
Qed.

Lemma trimEnd_empty c s : JS.trimEnd (String c s) = "" -> JS.isWhiteSpace c = true.
Proof. simpl. destruct (JS.isWhiteSpace c); [done|]. simpl. discriminate. Qed.

Lemma trim_empty s : JS.trim s = "" <-> allWhiteSpace s = true.
Proof.
  rewrite <- allWhiteSpace_trimStart. unfold JS.trim. split; [|by intros ->].
  intros Hend. destruct (trimStart_spec s) as (before & _ & _ & Hstart).
  destruct (JS.trimStart s) as [|c r]; [done|].
  apply trimEnd_empty in Hend. simpl in Hstart. congruence.
Qed.

Section FunctionProperties.

Context `{ChangeCase} `{PathModule}.

(** X6. The media type of the image sent to the service.  For a path
    with one of the allowed extensions, in whatever case it is written,
    [imageToBase64] reads the file once and returns the bytes in Base64
    after the prefix [data:image/png], [data:image/jpeg] or
    [data:image/webp], with [jpeg] for [.jpg] as for [.jpeg]; it throws
    when the read is rejected. *)
Theorem imageToBase64_media_type (imagePath : string)
    (net : string -> option Response) (σ : World) :
  allowedExtension imagePath = true ->
  exists subtype,
    (JS.toLowerCase (extname imagePath) = ".png" /\ subtype = "png" \/
     JS.toLowerCase (extname imagePath) = ".jpg" /\ subtype = "jpeg" \/
     JS.toLowerCase (extname imagePath) = ".jpeg" /\ subtype = "jpeg" \/
     JS.toLowerCase (extname imagePath) = ".webp" /\ subtype = "webp") /\
    exec net (imageToBase64 imagePath) σ =
      (match Fs.readFile (files σ) (locate imagePath) with
       | Some imageBuffer =>
           Returned ("data:image/" +:+ subtype +:+ ";base64," +:+ Base64.encode imageBuffer)
       | None => Thrown
       end, called (CallReadFile imagePath) σ).
Proof.
  intros Hallowed. rewrite exec_imageToBase64. unfold dataUrlOf.
  unfold allowedExtension in Hallowed. apply includes_elem_of in Hallowed.
  unfold ALLOWED_EXTENSIONS in Hallowed.
  repeat (apply elem_of_cons in Hallowed as [Hext|Hallowed]);
    [ exists "png" | exists "jpeg" | exists "jpeg" | exists "webp" | by apply elem_of_nil in Hallowed ];
    rewrite Hext; (split; [tauto|]);
    by destruct (Fs.readFile (files σ) (locate imagePath)).
Qed.

(** X7. What [getNewFilename] returns.  When it returns a text, the
    response to its one request had [ok] set and a body that parsed, and
    the text is the content of the message of the first choice with the
    white space at both ends removed; the text is not empty and has no
    white space at either end.  Whether it returns or throws, it makes
    this one request and touches nothing else. *)
Theorem getNewFilename_returns_trimmed_text (imageBase64 : string)
    (net : string -> option Response) (σ : World) :
  snd (exec net (getNewFilename imageBase64) σ) = called (CallFetch imageBase64) σ /\
  forall text,
    fst (exec net (getNewFilename imageBase64) σ) = Returned text ->
    text <> "" /\
    startsWithWhiteSpace text = false /\ endsWithWhiteSpace text = false /\
    exists response data first others reply written,
      net imageBase64 = Some response /\ ok response = true /\
      json response = Some data /\ choices data = Some (first :: others) /\
      message first = Some reply /\ content reply = Some written /\
      text = JS.trim written.
Proof.
  rewrite exec_getNewFilename. split; [reflexivity|]. intros text. simpl.
  destruct (usableText (net imageBase64)) as [t|] eqn:Htext; [|discriminate].
  intros [= ->]. apply usableText_Some in Htext
    as (response & data & Hnet & Hok & Hjson & Htrim & Hempty).
  split; [by apply isEmpty_false|].
  unfold trimmedContent in Htrim.
  destruct (choices data) as [[|first others]|] eqn:Hchoices; try discriminate.
  simpl in Htrim.
  destruct (message first) as [msg|] eqn:Hmsg; [|discriminate]. simpl in Htrim.
  destruct (content msg) as [written|] eqn:Hcontent; [|discriminate]. simpl in Htrim.
  injection Htrim as <-.
  destruct (trim_spec written) as (before & after & _ & _ & _ & Hs & He).
  split; [exact Hs|]. split; [exact He|].
  by exists response, data, first, others, msg, written.
Qed.

(** X8. When [convertCase] gives no name.  The result is the empty
    string exactly when the function of [change-case] gives nothing but
    white space (or nothing at all); and a result never begins with white
    space. *)
Theorem convertCase_empty_iff (name : string) (format : Format) :
  (convertCase name format = "" <-> allWhiteSpace (casingOf format name) = true) /\
  startsWithWhiteSpace (convertCase name format) = false.
Proof.
  assert (Hcut : forall t, JS.substring0 200 t = "" <-> t = "")
    by (intros [|c t]; simpl; split; done).
  assert (Hfirst : forall t, startsWithWhiteSpace (JS.substring0 200 t) = startsWithWhiteSpace t)
    by (by intros [|c t]).
  assert (Heq : convertCase name format = JS.substring0 200 (JS.trim (casingOf format name)))
    by (by destruct format).
  rewrite Heq, Hcut, trim_empty, Hfirst. split; [done|].
  by destruct (trim_spec (casingOf format name)) as (before & after & _ & _ & _ & Hs & _).
Qed.

Lemma exec_isFileReadable_calls (filePath : string)
    (net : string -> option Response) (σ : World) :
  exists σ',
    exec net (isFileReadable filePath) σ = (Returned (readableFile (files σ) filePath), σ') /\
    calls σ' = calls σ ++ readableCalls (files σ) filePath /\
    files σ' = files σ /\ locked σ' = locked σ /\ results σ' = results σ /\
    done σ' = done σ /\ progress σ' = progress σ.
Proof.
  unfold isFileReadable, readableFile, readableCalls.
  rewrite exec_bind, exec_doesFileExist.
  unfold Fs.stat. destruct (files σ !! locate filePath) as [n|] eqn:Hn; simpl.
  - destruct (isRegular n); simpl.
    + unfold Fs.access. simpl. rewrite Hn.
      destruct (readable n); simpl; eexists; (split; [reflexivity|]);
        (split; [|done]); simpl; by rewrite <- app_assoc.
    + eexists; split; [reflexivity|]. by split.
  - eexists; split; [reflexivity|]. by split.
Qed.

(** X9. [isFileReadable] never throws: it returns [true] for a regular
    file that may be read and [false] for a missing path, a directory and
    a file that may not be read.  It calls [stat] once, and [access] only
    for a regular file; nothing is changed. *)
Theorem isFileReadable_answers (filePath : string)
    (net : string -> option Response) (σ : World) :
  exists σ',
    exec net (isFileReadable filePath) σ =
      (Returned (match files σ !! locate filePath with
                 | Some n => isRegular n && readable n
                 | None => false
                 end), σ') /\
    callsSince σ σ' =
      CallStat filePath ::
        match files σ !! locate filePath with
        | Some n => if isRegular n then [CallAccess filePath] else []
        | None => []
        end /\
    files σ' = files σ /\ locked σ' = locked σ /\ results σ' = results σ /\
    done σ' = done σ /\ progress σ' = progress σ.
Proof.
  destruct (exec_isFileReadable_calls filePath net σ) as (σ' & Hrun & Hcalls & Hrest).
  exists σ'. split; [exact Hrun|]. split; [|exact Hrest].
  by apply callsSince_app.
Qed.

End FunctionProperties.

(** ** The filter *)

Lemma filter_implied {A} (p q : A -> bool) (l : list A) :
  (forall y, p y = true -> q y = true) ->
  List.filter p (List.filter q l) = List.filter p l.
Proof.
  intros Hpq. induction l as [|x l IH]; simpl; [done|].
  destruct (q x) eqn:Hq; simpl.
  - destruct (p x); by rewrite IH.
  - destruct (p x) eqn:Hp; [|exact IH]. apply Hpq in Hp. congruence.
Qed.

Lemma filter_both {A} (p q r : A -> bool) (l : list A) :
  (forall y, r y = q y && p y) ->
  List.filter r l = List.filter p (List.filter q l).
Proof.
  intros Hr. induction l as [|x l IH]; simpl; [done|].
  rewrite Hr. destruct (q x); simpl; [|exact IH].
  destruct (p x); by rewrite IH.
Qed.

Lemma filter_all {A} (p : A -> bool) (l : list A) :
  (forall y, p y = true) -> List.filter p l = l.
Proof.
  intros Hp. induction l as [|x l IH]; simpl; [done|]. by rewrite Hp, IH.
Qed.

Lemma filter_sublist {A} (p : A -> bool) (l : list A) : List.filter p l `sublist_of` l.
Proof.
  induction l as [|x l IH]; simpl; [done|].
  destruct (p x); [by apply sublist_skip | by apply sublist_cons].
Qed.

Lemma firstOccurrences_sublist l : firstOccurrences l `sublist_of` l.
Proof.
  induction l as [|x l IH]; simpl; [done|].
  apply sublist_skip. etrans; [apply filter_sublist | exact IH].
Qed.

Lemma includes_snoc acc x y :
  JS.includes (acc ++ [x]) y = JS.includes acc y || String.eqb y x.
Proof. unfold JS.includes. rewrite existsb_app. simpl. by rewrite orb_false_r. Qed.

Section FilterProperties.

Context `{ChangeCase} `{PathModule}.

Lemma validAmong_firstOccurrences fs imagePaths valid :
  validAmong fs imagePaths valid =
  valid ++ List.filter (fun y => negb (JS.includes valid y))
             (firstOccurrences (List.filter (admitted fs) imagePaths)).
Proof.
  revert valid. induction imagePaths as [|x rest IH]; intros valid.
  - simpl. by rewrite app_nil_r.
  - change (validAmong fs (x :: rest) valid)
      with (validAmong fs rest (if admitted fs x then setAdd x valid else valid)).
    cbn [List.filter]. destruct (admitted fs x); [|apply IH].
    rewrite IH. cbn [firstOccurrences List.filter]. unfold setAdd.
    destruct (JS.includes valid x) eqn:Hin; simpl.
    + f_equal. symmetry. apply filter_implied.
      intros y Hy. destruct (String.eqb_spec y x) as [->|]; [|done].
      by rewrite Hin in Hy.
    + rewrite <- app_assoc. simpl. do 2 f_equal. apply filter_both.
      intros y. rewrite includes_snoc. by destruct (JS.includes valid y), (String.eqb y x).
Qed.

Lemma exec_filterLoop_calls net imagePaths valid σ :
  calls (snd (exec net (filterLoop imagePaths valid) σ)) =
  calls σ ++ filterCalls (files σ) imagePaths.
Proof.
  revert valid σ. induction imagePaths as [|pth rest IH]; intros valid σ.
  - simpl. by rewrite app_nil_r.
  - cbn [filterLoop]. rewrite exec_bind.
    destruct (exec_isFileReadable_calls pth net σ) as (σ1 & -> & Hc & Hf & _).
    cbn [filterCalls flat_map]. fold (filterCalls (files σ) rest).
    rewrite app_assoc, <- Hc, <- Hf.
    destruct (_ && _); apply IH.
Qed.

Lemma filter_calls_spec fs argv :
  exists σ,
    validImagePathsOf fs argv = (Returned (validAmong fs argv []), σ) /\
    calls σ = filterCalls fs argv.
Proof.
  destruct (validImagePathsOf_spec fs argv) as (σ & Hrun & _).
  exists σ. split; [exact Hrun|].
  change σ with (snd (Returned (validAmong fs argv []), σ)). rewrite <- Hrun.
  unfold validImagePathsOf, filterValidImagePaths. by rewrite exec_filterLoop_calls.
Qed.

(** X10. The set the filter returns, as a list.  On a file system [fs]
    and the arguments [argv], [filterValidImagePaths] returns the paths
    of [argv] that are readable regular files with an allowed extension,
    each one where it comes first, in the order of [argv].  It calls
    [stat] on every argument in turn, and [access] on those that are
    regular files; it makes no other call and changes nothing. *)
Theorem filter_keeps_first_occurrences (fs : gmap string Node) (argv : list string) :
  exists σ,
    validImagePathsOf fs argv =
      (Returned (firstOccurrences (List.filter (admitted fs) argv)), σ) /\
    firstOccurrences (List.filter (admitted fs) argv) `sublist_of` argv /\
    calls σ = filterCalls fs argv /\
    files σ = fs /\ locked σ = false /\ done σ = 0 /\ progress σ = [].
Proof.
  destruct (validImagePathsOf_spec fs argv) as (σ & Hrun & Hf & Hl & [_ Hd] & Hp).
  exists σ. rewrite Hrun, validAmong_firstOccurrences. simpl.
  rewrite (filter_all _ _ (fun _ => eq_refl)).
  split; [done|].
  split; [etrans; [apply firstOccurrences_sublist | apply filter_sublist]|].
  split; [|by rewrite Hd, Hp].
  change σ with (snd (Returned (validAmong fs argv []), σ)). rewrite <- Hrun.
  unfold validImagePathsOf, filterValidImagePaths. by rewrite exec_filterLoop_calls.
Qed.

Lemma validAmong_valid fs imagePaths valid :
  NoDup (valid ++ imagePaths) ->
  Forall (fun pth => readableFile fs pth && allowedExtension pth = true) imagePaths ->
  validAmong fs imagePaths valid = valid ++ imagePaths.
Proof.
  revert valid. induction imagePaths as [|x rest IH]; intros valid Hnd Hall.
  - simpl. by rewrite app_nil_r.
  - apply Forall_cons in Hall as [Hx Hrest].
    change (validAmong fs (x :: rest) valid)
      with (validAmong fs rest
              (if readableFile fs x && allowedExtension x then setAdd x valid else valid)).
    rewrite Hx.
    assert (Hin : JS.includes valid x = false).
    { destruct (JS.includes valid x) eqn:Hi; [|done].
      apply includes_elem_of in Hi. apply NoDup_app in Hnd as (_ & Hnd & _).
      destruct (Hnd x Hi). by left. }
    unfold setAdd. rewrite Hin, IH; [by rewrite <- app_assoc| |done].
    by rewrite <- app_assoc.
Qed.

(** X11. The filter on its own result.  Run again on the paths it has
    returned, with the file system as it was, [filterValidImagePaths]
    returns the same paths in the same order. *)
Theorem filter_is_idempotent (fs : gmap string Node) (argv validImagePaths : list string)
    (σ : World) :
  validImagePathsOf fs argv = (Returned validImagePaths, σ) ->
  fst (validImagePathsOf fs validImagePaths) = Returned validImagePaths.
Proof.
  intros Hrun. destruct (validImagePathsOf_spec fs argv) as (σ1 & Hrun1 & _).
  rewrite Hrun1 in Hrun. injection Hrun as Hvalid _.
  destruct (validImagePathsOf_spec fs validImagePaths) as (σ2 & -> & _). simpl.
  f_equal. apply (validAmong_valid fs validImagePaths []).
  - simpl. rewrite <- Hvalid. apply validAmong_NoDup, NoDup_nil_2.
  - apply Forall_forall. intros pth Hin. rewrite <- Hvalid in Hin.
    apply validAmong_elem_of in Hin as [Hin|[_ Hok]]; [by apply elem_of_nil in Hin | done].
Qed.

End FilterProperties.

(** ** The scheduler *)

Lemma run_invariant net N (P : Pool -> Prop) :
  (forall i c c', P c -> poolStep net N i c = Some c' -> P c') ->
  forall schedule c c', P c -> runSchedule net N schedule c = Some c' -> P c'.
Proof.
  intros Hstep. induction schedule as [|i schedule IH]; intros c c' Hc Hrun; simpl in Hrun.
  - by injection Hrun as <-.
  - destruct (poolStep net N i c) as [c1|] eqn:Hi; [|discriminate]. eauto.
Qed.

Lemma holders_unique ss i j si sj :
  holders ss <= 1 ->
  ss !! i = Some si -> slotHolds si = true ->
  ss !! j = Some sj -> slotHolds sj = true ->
  i = j.
Proof.
  unfold holders. revert i j. induction ss as [|s ss IH]; intros i j Hle Hi Hsi Hj Hsj;
    [done|].
  assert (Hpos : forall k sk, ss !! k = Some sk -> slotHolds sk = true ->
            0 < sum_list_with (fun s => if slotHolds s then 1 else 0) ss).
  { clear. induction ss as [|s ss IH]; intros k sk Hk Hsk; [done|].
    destruct k as [|k]; simpl in *.
    - injection Hk as ->. rewrite Hsk. lia.
    - specialize (IH k sk Hk Hsk). lia. }
  simpl in Hle. destruct i as [|i], j as [|j]; simpl in *; try done.
  - injection Hi as ->. rewrite Hsi in Hle. specialize (Hpos j sj Hj Hsj). lia.
  - injection Hj as ->. rewrite Hsj in Hle. specialize (Hpos i si Hi Hsi). lia.
  - f_equal. eapply IH; eauto. lia.
Qed.

Lemma step_Numbered {A} net (p p' : prog A) σ σ' :
  step net p σ = Some (p', σ') -> Numbered σ -> Numbered σ'.
Proof.
  unfold Numbered. intros Hs Hn. destruct p; simpl in Hs; try discriminate;
    try (injection Hs as <- <-; exact Hn).
  - destruct (Fs.rename _ _ _); injection Hs as <- <-; exact Hn.
  - destruct (locked σ); [discriminate|]. injection Hs as <- <-. exact Hn.
  - injection Hs as <- <-. cbn [reported progress done].
    rewrite map_app, Hn, seq_S. reflexivity.
Qed.

Lemma returnedPaths_length paths ss : length (returnedPaths paths ss) <= length paths.
Proof.
  revert ss. induction paths as [|p paths IH]; intros [|s ss]; simpl; try lia.
  specialize (IH ss). destruct (returned s); simpl; lia.
Qed.

Section RunProperties.

Context `{ChangeCase} `{PathModule}.

(** X13. One task in the critical section.  In every run of [main],
    after every step, at most one task is between the acquisition of
    [renameMutex] and its release, and the mutex is held exactly when
    there is one. *)
Theorem one_task_in_critical_section (fs : gmap string Node) (argv : list string)
    (format : Format) (net : nat -> string -> option Response)
    (concurrencyLimit : nat) (schedule : list nat) (c0 c : Pool) :
  mainPool fs argv format = Some c0 ->
  runSchedule net concurrencyLimit schedule c0 = Some c ->
  holders (slots c) = (if locked (world c) then 1 else 0) /\
  forall i j p q,
    slots c !! i = Some (Running p) -> slots c !! j = Some (Running q) ->
    holdsMutex p = true -> holdsMutex q = true ->
    i = j.
Proof.
  intros Hmain Hrun.
  apply mainPool_invariant in Hmain as [Hinv _].
  assert (Hinv' : PoolInvariant format (validAmong fs argv []) c).
  { eapply reaches_invariant; [exact Hinv|]. apply reaches_runSchedule. eauto. }
  destruct Hinv' as (_ & _ & _ & Hhold). split; [exact Hhold|].
  intros i j p q Hi Hj Hp Hq.
  eapply (holders_unique (slots c) i j); eauto.
  rewrite Hhold. destruct (locked (world c)); lia.
Qed.

(** X14. The numbers on the progress lines.  In every run of [main],
    after every step, the lines written so far carry the numbers
    1, 2, 3, ... in the order they were written, the last of them the
    value of [done]; this value never exceeds the number of valid paths
    the lines are measured against, and reaches it when every task has
    returned. *)
Theorem progress_lines_are_numbered (fs : gmap string Node) (argv : list string)
    (format : Format) (net : nat -> string -> option Response)
    (concurrencyLimit : nat) (schedule : list nat) (c0 c : Pool) :
  mainPool fs argv format = Some c0 ->
  runSchedule net concurrencyLimit schedule c0 = Some c ->
  map doneSoFar (progress (world c)) = seq 1 (length (progress (world c))) /\
  done (world c) = length (progress (world c)) /\
  done (world c) <= length (validAmong fs argv []) /\
  (completed c = true -> done (world c) = length (validAmong fs argv [])).
Proof.
  intros Hmain Hrun.
  assert (Hnum : Numbered (world c)).
  { apply (run_invariant net concurrencyLimit (fun c => Numbered (world c)))
      with schedule c0; [| |exact Hrun].
    - intros i c1 c2 Hn Hstep. unfold poolStep in Hstep.
      destruct (slots c1 !! i) as [[q|q]|]; [| |discriminate].
      + destruct (_ <? _); [|discriminate]. by injection Hstep as <-.
      + destruct (step (net i) q (world c1)) as [[q' σ']|] eqn:Hq; [|discriminate].
        injection Hstep as <-. by eapply step_Numbered.
    - unfold mainPool in Hmain.
      destruct (validImagePathsOf_spec fs argv) as (σ & Hv & _ & _ & [_ Hd] & Hp).
      rewrite Hv in Hmain. destruct (validAmong fs argv []); [discriminate|].
      injection Hmain as <-. unfold Numbered. cbn [startPool world].
      by rewrite Hd, Hp. }
  apply mainPool_invariant in Hmain as [Hinv _].
  assert (Hinv' : PoolInvariant format (validAmong fs argv []) c).
  { eapply reaches_invariant; [exact Hinv|]. apply reaches_runSchedule. eauto. }
  pose proof Hinv' as (_ & Hperm & [_ Hdone] & _).
  unfold Numbered in Hnum. rewrite Hdone in Hnum.
  split; [exact Hnum|]. split; [exact Hdone|]. split.
  - rewrite Hdone, <- (length_map image), Hperm. apply returnedPaths_length.
  - intros Hc. by destruct (completed_counts format _ c Hinv' Hc) as (_ & ? & _).
Qed.

End RunProperties.

(** ** The calls of a run *)

Lemma times_snoc f cs c : times f (cs ++ [c]) = times f cs + cost f c.
Proof.
  unfold times, cost. rewrite List.filter_app, length_app. simpl. by destruct (f c).
Qed.

Lemma step_Spends {A} net f n (p p' : prog A) σ σ' :
  Spends f n p -> step net p σ = Some (p', σ') ->
  exists n', Spends f n' p' /\ times f (calls σ') + n' <= times f (calls σ) + n.
Proof.
  intros Hw Hs. destruct Hw as [| |n p k Hc Hk|n p k Hc Hk|n p k Hc Hk|n o d k Hc Hk
                               |n b k Hc Hk|n k Hk|n k Hk|n p r k Hk];
    simpl in Hs; try discriminate.
  - injection Hs as <- <-. eexists. split; [apply Hk|].
    rewrite calls_called, times_snoc. lia.
  - injection Hs as <- <-. eexists. split; [apply Hk|].
    rewrite calls_called, times_snoc. lia.
  - injection Hs as <- <-. eexists. split; [apply Hk|].
    rewrite calls_called, times_snoc. lia.
  - destruct (Fs.rename _ _ _); injection Hs as <- <-; eexists; (split; [apply Hk|]);
      cbn [withFiles calls]; rewrite calls_called, times_snoc; lia.
  - injection Hs as <- <-. eexists. split; [apply Hk|].
    rewrite calls_called, times_snoc. lia.
  - destruct (locked σ); [discriminate|]. injection Hs as <- <-. eauto.
  - injection Hs as <- <-. eauto.
  - injection Hs as <- <-. eauto.
Qed.

Lemma poolStep_spends net N f ns i c c' :
  Forall2 (SlotSpends f) ns (slots c) ->
  poolStep net N i c = Some c' ->
  exists ns',
    Forall2 (SlotSpends f) ns' (slots c') /\
    times f (calls (world c')) + sum_list ns' <= times f (calls (world c)) + sum_list ns.
Proof.
  intros Hb Hstep. unfold poolStep in Hstep.
  destruct (slots c !! i) as [s|] eqn:Hi; [|discriminate].
  destruct (Forall2_lookup_r _ _ _ _ _ Hb Hi) as (n & Hn & Hsn).
  destruct s as [p|p]; unfold SlotSpends in Hsn; simpl in Hsn.
  - destruct (_ <? _); [|discriminate]. injection Hstep as <-.
    exists ns. split; [|done]. cbn [slots].
    rewrite <- (list_insert_id ns i n Hn). by apply Forall2_insert.
  - destruct (step (net i) p (world c)) as [[p' σ']|] eqn:Hp; [|discriminate].
    injection Hstep as <-.
    destruct (step_Spends _ _ _ _ _ _ _ Hsn Hp) as (n' & Hw & Hle).
    exists (<[i := n']> ns). split; [by apply Forall2_insert|]. cbn [world].
    pose proof (sum_list_with_insert id ns i n n' Hn) as Hsum.
    change (id n) with n in Hsum. change (id n') with n' in Hsum.
    change (sum_list_with id ?l) with (sum_list l) in Hsum. lia.
Qed.

Lemma run_spends net N f schedule : forall ns c c',
  Forall2 (SlotSpends f) ns (slots c) ->
  runSchedule net N schedule c = Some c' ->
  times f (calls (world c')) <= times f (calls (world c)) + sum_list ns.
Proof.
  induction schedule as [|i schedule IH]; intros ns c c' Hb Hrun; simpl in Hrun.
  - injection Hrun as <-. lia.
  - destruct (poolStep net N i c) as [c1|] eqn:Hi; [|discriminate].
    destruct (poolStep_spends net N f ns i c c1 Hb Hi) as (ns' & Hb' & Hle).
    specialize (IH ns' c1 c' Hb' Hrun). lia.
Qed.

Lemma times_filterCalls f fs imagePaths :
  (forall p, f (CallStat p) = false) -> (forall p, f (CallAccess p) = false) ->
  times f (filterCalls fs imagePaths) = 0.
Proof.
  intros Hstat Haccess. unfold times, filterCalls.
  induction imagePaths as [|p rest IH]; [done|].
  cbn [flat_map]. rewrite List.filter_app, length_app, IH.
  unfold readableCalls. simpl. rewrite Hstat.
  destruct (fs !! locate p) as [n|]; [|done]. destruct (isRegular n); [|done].
  simpl. by rewrite Haccess.
Qed.

Lemma sum_indicator (p : string) (paths : list string) :
  NoDup paths ->
  sum_list (map (fun q => if String.eqb q p then 1 else 0) paths) <= 1 /\
  (p ∉ paths -> sum_list (map (fun q => if String.eqb q p then 1 else 0) paths) = 0).
Proof.
  intros Hnd. assert (Hout : forall l : list string, p ∉ l ->
            sum_list (map (fun q => if String.eqb q p then 1 else 0) l) = 0).
  { induction l as [|q l IH]; [done|]. intros Hp.
    apply not_elem_of_cons in Hp as [Hne Hp]. simpl.
    destruct (String.eqb_spec q p); [congruence|]. by apply IH. }
  split; [|by apply Hout].
  induction Hnd as [|q l Hq Hnd IH]; simpl; [lia|].
  destruct (String.eqb_spec q p) as [->|]; [|exact IH]. rewrite (Hout l Hq). lia.
Qed.

Ltac spend_cost :=
  unfold cost; simpl;
  repeat match goal with Heq : String.eqb _ _ = _ |- _ => rewrite Heq end;
  simpl.

Ltac spend :=
  repeat first
    [ apply Spends_Ret | apply Spends_Throw
    | apply Spends_Acquire | apply Spends_Release | apply Spends_Report
    | apply Spends_ReadFile; [spend_cost; lia | intros [?|]; spend_cost]
    | apply Spends_Stat; [spend_cost; lia | intros [[[|]]|]; spend_cost]
    | apply Spends_Access; [spend_cost; lia | intros [|]; spend_cost]
    | apply Spends_Rename; [spend_cost; lia | intros [|]; spend_cost]
    | apply Spends_Fetch; [spend_cost; lia | intros [?|]; spend_cost]
    | match goal with
      | |- Spends _ _ ?q =>
          match q with
          | context [if ?b then _ else _] => destruct b eqn:?; simpl
          | context [match ?x with Some _ => _ | None => _ end] => destruct x eqn:?; simpl
          end
      end ].

Ltac unfold_task :=
  unfold processingTask, processImage, processImageTry, imageToBase64, getNewFilename,
    Await.runExclusive, checkThenRename, doesFileExist, Await.readFile, Await.fetch,
    Await.responseJson, Await.stat, Await.rename;
  simpl.

Section CallsOfARun.

Context `{ChangeCase} `{PathModule}.

Lemma processingTask_fetches imagePath format :
  Spends isFetchCall 1 (processingTask imagePath format).
Proof. unfold_task. spend. Qed.

Lemma processingTask_reads p imagePath format :
  Spends (isReadOf p) (if String.eqb imagePath p then 1 else 0)
    (processingTask imagePath format).
Proof. destruct (String.eqb imagePath p) eqn:Hp; unfold_task; spend. Qed.

Lemma processingTask_renames p imagePath format :
  Spends (isRenameOf p) (if String.eqb imagePath p then 1 else 0)
    (processingTask imagePath format).
Proof. destruct (String.eqb imagePath p) eqn:Hp; unfold_task; spend. Qed.

Lemma startPool_spends f (budget : string -> nat) format paths σ :
  (forall imagePath, Spends f (budget imagePath) (processingTask imagePath format)) ->
  Forall2 (SlotSpends f) (map budget paths) (slots (startPool paths format σ)).
Proof.
  intros Hb. induction paths as [|p paths IH]; simpl; constructor; [apply Hb | exact IH].
Qed.

Lemma run_times f (budget : string -> nat) fs argv format net N schedule c0 c :
  (forall p, f (CallStat p) = false) -> (forall p, f (CallAccess p) = false) ->
  (forall imagePath, Spends f (budget imagePath) (processingTask imagePath format)) ->
  mainPool fs argv format = Some c0 ->
  runSchedule net N schedule c0 = Some c ->
  times f (calls (world c)) <= sum_list (map budget (validAmong fs argv [])).
Proof.
  intros Hstat Haccess Hb Hmain Hrun.
  destruct (filter_calls_spec fs argv) as (σ & Hv & Hcalls).
  unfold mainPool in Hmain. rewrite Hv in Hmain.
  destruct (validAmong fs argv []) as [|p valid] eqn:Hvalid; [discriminate|].
  injection Hmain as <-.
  pose proof (run_spends net N f schedule _ _ _
                (startPool_spends f budget format (p :: valid) σ Hb) Hrun) as Hle.
  cbn [startPool world] in Hle. rewrite Hcalls, times_filterCalls in Hle by done.
  exact Hle.
Qed.

(** X15. No call twice.  In every run of [main], whatever the order of
    the steps: the requests sent to the service are at most as many as
    the valid paths; every valid path is read at most once and is the
    old path of at most one [fs.rename] call; and no path that is not
    valid is read or renamed at all. *)
Theorem no_call_is_repeated (fs : gmap string Node) (argv : list string)
    (format : Format) (net : nat -> string -> option Response)
    (concurrencyLimit : nat) (schedule : list nat) (c0 c : Pool) :
  mainPool fs argv format = Some c0 ->
  runSchedule net concurrencyLimit schedule c0 = Some c ->
  times isFetchCall (calls (world c)) <= length (validAmong fs argv []) /\
  forall p,
    times (isReadOf p) (calls (world c)) <= 1 /\
    times (isRenameOf p) (calls (world c)) <= 1 /\
    (p ∉ validAmong fs argv [] ->
     times (isReadOf p) (calls (world c)) = 0 /\
     times (isRenameOf p) (calls (world c)) = 0).
Proof.
  intros Hmain Hrun. split.
  - pose proof (run_times isFetchCall (fun _ => 1) fs argv format net concurrencyLimit
                  schedule c0 c (fun _ => eq_refl) (fun _ => eq_refl)
                  (fun q => processingTask_fetches q format) Hmain Hrun) as Hle.
    assert (Hsum : forall l : list string, sum_list (map (fun _ => 1) l) = length l)
      by (induction l; simpl; auto).
    by rewrite Hsum in Hle.
  - intros p.
    pose proof (run_times (isReadOf p) (fun q => if String.eqb q p then 1 else 0)
                  fs argv format net concurrencyLimit
                  schedule c0 c (fun _ => eq_refl) (fun _ => eq_refl)
                  (fun q => processingTask_reads p q format) Hmain Hrun) as Hread.
    pose proof (run_times (isRenameOf p) (fun q => if String.eqb q p then 1 else 0)
                  fs argv format net concurrencyLimit
                  schedule c0 c (fun _ => eq_refl) (fun _ => eq_refl)
                  (fun q => processingTask_renames p q format) Hmain Hrun) as Hrename.
    destruct (sum_indicator p (validAmong fs argv []))
      as [Hone Hzero]; [apply validAmong_NoDup, NoDup_nil_2|].
    split; [lia|]. split; [lia|]. intros Hout. specialize (Hzero Hout). lia.
Qed.

End CallsOfARun.

(** ** The files of a run *)

Lemma step_Careful {A} net own cleared (q q' : prog A) σ σ' :
  Careful own cleared q ->
  step net q σ = Some (q', σ') ->
  (forall d, cleared = Some d -> holdsMutex q = true ->
     noFile (Fs.stat (files σ) (locate d)) = true) ->
  exists cleared',
    Careful own cleared' q' /\
    (forall d, cleared' = Some d -> noFile (Fs.stat (files σ') (locate d)) = true) /\
    (files σ' = files σ \/
     holdsMutex q = true /\
     exists d,
       noFile (Fs.stat (files σ) (locate d)) = true /\
       Fs.rename (files σ) (locate own) (locate d) = Some (files σ')).
Proof.
  intros Hcare Hstep Hclear.
  destruct Hcare as [| |cl p k Hk|cl d k Hk|cl p k Hk|d k Hhold Hk|cl b k Hk
                    |cl k Hk|cl k Hk|cl p r k Hk]; simpl in Hstep; try discriminate.
  - injection Hstep as <- <-. exists None. split; [apply Hk|]. split; [done|by left].
  - injection Hstep as <- <-. eexists. split; [apply Hk|]. split; [|by left].
    intros d'. cbn [called files].
    by destruct (noFile (Fs.stat (files σ) (locate d))) eqn:Hno; intros [= <-].
  - injection Hstep as <- <-. exists None. split; [apply Hk|]. split; [done|by left].
  - specialize (Hclear d eq_refl Hhold).
    destruct (Fs.rename (files σ) (locate own) (locate d)) as [fs'|] eqn:Hren;
      injection Hstep as <- <-; exists None; (split; [apply Hk|]); (split; [done|]);
      [right; split; [exact Hhold|]; by exists d | by left].
  - injection Hstep as <- <-. exists None. split; [apply Hk|]. split; [done|by left].
  - destruct (locked σ); [discriminate|]. injection Hstep as <- <-.
    exists None. split; [apply Hk|]. split; [done|by left].
  - injection Hstep as <- <-. exists None. split; [apply Hk|]. split; [done|by left].
  - injection Hstep as <- <-. exists None. split; [apply Hk|]. split; [done|by left].
Qed.

(** A rename to a destination that the [stat] before it found clear:
    what it moves, and what it can replace. *)
Lemma rename_cleared fs oldLocation newLocation fs' :
  noFile (Fs.stat fs newLocation) = true ->
  Fs.rename fs oldLocation newLocation = Some fs' ->
  exists src,
    fs !! oldLocation = Some src /\ renamable src = true /\
    (forall dst, fs !! newLocation = Some dst ->
       isRegular dst = false /\ isDirectory dst = false) /\
    fs' = <[newLocation := src]> (delete oldLocation fs).
Proof.
  unfold Fs.stat, Fs.rename. intros Hno Hren.
  destruct (fs !! oldLocation) as [src|]; [|discriminate].
  destruct (renamable src) eqn:Hrn; [|discriminate]. simpl in Hren.
  destruct (fs !! newLocation) as [dst|].
  - simpl in Hno. apply negb_true_iff in Hno.
    destruct (isDirectory src || isDirectory dst) eqn:Hdir; [discriminate|].
    apply orb_false_iff in Hdir as [_ Hdir]. injection Hren as <-.
    exists src. split; [done|]. split; [done|]. split; [|done].
    intros ? [= <-]. by split.
  - injection Hren as <-. exists src. by repeat split.
Qed.

Lemma regularFiles_insert (fs : gmap string Node) location n :
  fs !! location = None ->
  regularFiles (<[location := n]> fs) ≡ₚ
  (if isRegular n then [n] else []) ++ regularFiles fs.
Proof.
  intros Hfree. unfold regularFiles. rewrite (map_to_list_insert _ _ _ Hfree).
  rewrite fmap_cons, filter_cons. cbn [snd].
  destruct (decide (isRegular n = true)) as [Hn|Hn]; [by rewrite Hn|].
  apply not_true_is_false in Hn. by rewrite Hn.
Qed.

Lemma regularFiles_delete (fs : gmap string Node) location n :
  fs !! location = Some n ->
  regularFiles fs ≡ₚ (if isRegular n then [n] else []) ++ regularFiles (delete location fs).
Proof.
  intros Hn. unfold regularFiles. rewrite <- (map_to_list_delete fs location n Hn).
  rewrite fmap_cons, filter_cons. cbn [snd].
  destruct (decide (isRegular n = true)) as [Hreg|Hreg]; [by rewrite Hreg|].
  apply not_true_is_false in Hreg. by rewrite Hreg.
Qed.

Lemma regularFiles_rename fs oldLocation newLocation fs' :
  noFile (Fs.stat fs newLocation) = true ->
  Fs.rename fs oldLocation newLocation = Some fs' ->
  regularFiles fs' ≡ₚ regularFiles fs.
Proof.
  intros Hno Hren.
  destruct (rename_cleared _ _ _ _ Hno Hren) as (src & Hsrc & _ & Hdst & ->).
  destruct (decide (oldLocation = newLocation)) as [<-|Hne].
  { by rewrite insert_delete_id. }
  rewrite (regularFiles_delete fs oldLocation src Hsrc).
  destruct (delete oldLocation fs !! newLocation) as [dst|] eqn:Hd.
  - rewrite <- insert_delete_eq, regularFiles_insert by apply lookup_delete_eq.
    rewrite (regularFiles_delete (delete oldLocation fs) newLocation dst Hd).
    rewrite lookup_delete_ne in Hd by done. destruct (Hdst dst Hd) as [-> _]. done.
  - by rewrite regularFiles_insert.
Qed.

Lemma FilesKept_rename fs0 paths fs own d fs' :
  FilesKept fs0 paths fs -> own ∈ paths ->
  noFile (Fs.stat fs (locate d)) = true ->
  Fs.rename fs (locate own) (locate d) = Some fs' ->
  FilesKept fs0 paths fs'.
Proof.
  intros [Hkeep Hnodes] Hown Hno Hren. split.
  - intros location n Hl Hn Hkind. specialize (Hkeep location n Hl Hn Hkind).
    destruct (rename_cleared _ _ _ _ Hno Hren) as (src & Hsrc & _ & Hdst & ->).
    assert (location <> locate own) by (intros ->; by eapply Hl).
    assert (location <> locate d).
    { intros ->. destruct (Hdst n Hkeep) as [Hr Hd]. by rewrite Hr, Hd in Hkind. }
    rewrite lookup_insert_ne by done. by rewrite lookup_delete_ne.
  - rewrite <- Hnodes. by eapply regularFiles_rename.
Qed.

Ltac care :=
  repeat first
    [ apply Careful_Ret | apply Careful_Throw
    | apply Careful_Acquire | apply Careful_Release | apply Careful_Report
    | apply Careful_ReadFile; intros [?|]; simpl
    | apply Careful_Stat; intros [[[|]]|]; simpl
    | apply Careful_Access; intros [|]; simpl
    | apply Careful_Rename; [reflexivity | intros [|]; simpl]
    | apply Careful_Fetch; intros [?|]; simpl
    | match goal with
      | |- Careful _ _ ?q =>
          match q with
          | context [if ?b then _ else _] => destruct b eqn:?; simpl
          | context [match ?x with Some _ => _ | None => _ end] => destruct x eqn:?; simpl
          end
      end ].

Section FilesOfARun.

Context `{ChangeCase} `{PathModule}.

Lemma processingTask_careful imagePath format :
  Careful imagePath None (processingTask imagePath format).
Proof. unfold_task. care. Qed.

Lemma startPool_careful fs paths format σ :
  Forall2 (CarefulSlot fs) paths (slots (startPool paths format σ)).
Proof.
  induction paths as [|p paths IH]; simpl; constructor; [|exact IH].
  exists None. split; [apply processingTask_careful | done].
Qed.

Lemma poolStep_keeping net N format fs0 paths i c c' :
  Keeping format fs0 paths c ->
  poolStep net N i c = Some c' ->
  Keeping format fs0 paths c'.
Proof.
  intros (Hinv & Hcare & Hkept) Hstep.
  split; [by eapply poolStep_invariant|].
  unfold poolStep in Hstep.
  destruct (slots c !! i) as [s|] eqn:Hi; [|discriminate].
  destruct (Forall2_lookup_r _ _ _ _ _ Hcare Hi) as (own & Hown & cleared & Hs & Hclear).
  destruct s as [q|q]; simpl in Hs.
  - destruct (_ <? _); [|discriminate]. injection Hstep as <-. cbn [world slots].
    split; [|exact Hkept].
    rewrite <- (list_insert_id paths i own Hown). apply Forall2_insert; [exact Hcare|].
    exists None. split; [|done]. simpl.
    destruct Hinv as (Hslots & _).
    destruct (Forall2_lookup_r _ _ _ _ _ Hslots Hi) as (own' & Hown' & Hq).
    simpl in Hq. subst q. assert (own' = own) as -> by congruence.
    apply processingTask_careful.
  - destruct (step (net i) q (world c)) as [[q' σ']|] eqn:Hq; [|discriminate].
    injection Hstep as <-. cbn [world slots].
    destruct (step_Careful _ _ _ _ _ _ _ Hs Hq) as (cleared' & Hs' & Hclear' & Hfiles).
    { intros d Hd Hhold. by apply Hclear. }
    assert (Hmine : CarefulSlot (files σ') own (Running q')).
    { exists cleared'. split; [exact Hs'|]. intros d Hd _. by apply Hclear'. }
    destruct Hfiles as [Hsame | (Hhold & d & Hno & Hren)].
    + rewrite Hsame. split; [|exact Hkept].
      rewrite <- (list_insert_id paths i own Hown). apply Forall2_insert; [exact Hcare|].
      by rewrite <- Hsame.
    + split.
      * apply Forall2_same_length_lookup. split.
        { rewrite length_insert. by eapply Forall2_length. }
        intros j own_j s_j Hpj Hsj.
        destruct (decide (i = j)) as [<-|Hij].
        { rewrite list_lookup_insert_eq in Hsj by (by eapply lookup_lt_Some).
          injection Hsj as <-. assert (own_j = own) as -> by congruence. exact Hmine. }
        rewrite list_lookup_insert_ne in Hsj by done.
        destruct (Forall2_lookup_lr _ _ _ _ _ _ Hcare Hpj Hsj) as (cl_j & Hc_j & Hclear_j).
        exists cl_j. split; [exact Hc_j|]. intros d' _ Hholds_j.
        destruct Hinv as (_ & _ & _ & Hholders).
        destruct Hij. eapply (holders_unique (slots c)); eauto.
        rewrite Hholders. destruct (locked (world c)); lia.
      * eapply FilesKept_rename; eauto. by eapply list_elem_of_lookup_2.
Qed.


End FilesOfARun.

(** ** The lines of a run *)

Ltac track :=
  repeat first
    [ apply Tracks_Ret
    | apply Tracks_Acquire | apply Tracks_Release
    | apply Tracks_Report; reflexivity
    | apply Tracks_ReadFile; intros [?|]; simpl
    | apply Tracks_Stat; intros [[[|]]|]; simpl
    | apply Tracks_Access; intros [|]; simpl
    | apply Tracks_Rename; simpl
    | apply Tracks_Fetch; intros [?|]; simpl
    | match goal with
      | |- Tracks _ _ ?q =>
          match q with
          | context [if ?b then _ else _] => destruct b eqn:?; simpl
          | context [match ?x with Some _ => _ | None => _ end] => destruct x eqn:?; simpl
          end
      end ].

Section LinesOfARun.

Context `{ChangeCase} `{PathModule}.

Lemma processingTask_tracks imagePath format :
  Tracks imagePath None (processingTask imagePath format).
Proof. unfold_task. track. Qed.

Variable net : nat -> string -> option Response.
Variable N : nat.
Variable format : Format.
Variable fs0 : gmap string Node.
Variable paths : list string.
Hypothesis paths_apart : differentFiles paths.
Hypothesis paths_present :
  forall own, own ∈ paths -> exists n, fs0 !! locate own = Some n /\ isRegular n = true.

Lemma poolStep_truthful i c c' :
  Keeping format fs0 paths c -> Truthful fs0 paths c ->
  poolStep net N i c = Some c' ->
  Truthful fs0 paths c'.
Proof.
  intros (Hinv & Hcare & _) (moved & Htrack & Hplace & Hapart & Hlines & Hone) Hstep.
  unfold poolStep in Hstep.
  destruct (slots c !! i) as [s|] eqn:Hi; [|discriminate].
  destruct (Forall2_lookup_r _ _ _ _ _ Hcare Hi) as (own & Hown & cleared & Hs & Hclear).
  pose proof (Htrack i own s Hown Hi) as Ht.
  assert (Hother : forall j s', j <> i -> <[i := s']> (slots c) !! j = slots c !! j)
    by (intros; by apply list_lookup_insert_ne).
  assert (Hsame : forall q', 
            (forall line, line ∈ progress (world c') -> line ∈ progress (world c)) ->
            files (world c') = files (world c) ->
            slots c' = <[i := Running q']> (slots c) ->
            Tracks own (moved i) q' -> s <> Running (Ret tt) ->
            Truthful fs0 paths c').
  { intros q' Hpr Hf Hsl Hq' Hnot. exists moved. rewrite Hf, Hsl. repeat split.
    - intros j own_j s_j Hpj Hsj. destruct (decide (j = i)) as [->|Hji].
      + rewrite list_lookup_insert_eq in Hsj by (by eapply lookup_lt_Some).
        injection Hsj as <-. assert (own_j = own) as -> by congruence. exact Hq'.
      + rewrite Hother in Hsj by done. eauto.
    - exact Hplace.
    - exact Hapart.
    - intros line Hline. destruct (Hlines line (Hpr line Hline)) as (j & Hpj & Hmj & Hsj).
      exists j. split; [done|]. split; [done|].
      rewrite Hother; [done|]. intros ->. congruence.
    - exact Hone. }
  destruct s as [q|q]; simpl in Hs, Ht.
  - destruct (_ <? _); [|discriminate]. injection Hstep as <-.
    apply (Hsame q); try done.
  - destruct (step (net i) q (world c)) as [[q' σ']|] eqn:Hq; [|discriminate].
    injection Hstep as <-.
    remember (moved i) as mi eqn:Hmoved in Ht.
    destruct Ht as [mv|mv p k Hk|mv p k Hk|mv p k Hk|d k Hyes Hno|mv b k Hk|mv k Hk|mv k Hk
                   |mv r Hr]; simpl in Hq; try discriminate;
      try rewrite Hmoved in Hk.
    + injection Hq as <- <-. apply (Hsame (k (Fs.readFile (files (world c)) (locate p)))); try done.
    + injection Hq as <- <-. apply (Hsame (k (Fs.stat (files (world c)) (locate p)))); try done.
    + injection Hq as <- <-. apply (Hsame (k (Fs.access (files (world c)) (locate p)))); try done.
    + destruct (Fs.rename (files (world c)) (locate own) (locate d)) as [fs'|] eqn:Hren;
        injection Hq as <- <-; [|apply (Hsame (k false)); try done; by rewrite <- Hmoved].
      inversion Hs as [| | | | |d' k' Hhold Hk' Hcl| | | |]; subst.
      assert (Hfree : noFile (Fs.stat (files (world c)) (locate d)) = true)
        by (by apply Hclear).
      destruct (rename_cleared _ _ _ _ Hfree Hren) as (src & Hsrc & _ & Hdst & ->).
      exists (fun j => if decide (j = i) then Some d else moved j).
      cbn [world slots withFiles files called progress].
      assert (Hthere : forall j own_j, paths !! j = Some own_j ->
                exists n, files (world c) !! locate (placeOf own_j (moved j)) = Some n /\
                          isRegular n = true).
      { intros j own_j Hpj. rewrite (Hplace j own_j Hpj).
        apply paths_present. by eapply list_elem_of_lookup_2. }
      assert (Hclear_d : forall j own_j, paths !! j = Some own_j ->
                locate (placeOf own_j (moved j)) <> locate d).
      { intros j own_j Hpj Heq. destruct (Hthere j own_j Hpj) as (n & Hn & Hreg).
        rewrite Heq in Hn. destruct (Hdst n Hn). congruence. }
      repeat split.
      * intros j own_j s_j Hpj Hsj. destruct (decide (j = i)) as [->|Hji].
        -- rewrite list_lookup_insert_eq in Hsj by (by eapply lookup_lt_Some).
           injection Hsj as <-. assert (own_j = own) as -> by congruence. exact Hyes.
        -- rewrite Hother in Hsj by done. eauto.
      * intros j own_j Hpj. destruct (decide (j = i)) as [->|Hji].
        -- assert (own_j = own) as -> by congruence. simpl.
           rewrite lookup_insert_eq. specialize (Hplace i own Hown).
           rewrite <- Hmoved in Hplace. simpl in Hplace. congruence.
        -- rewrite <- (Hplace j own_j Hpj).
           assert (locate (placeOf own_j (moved j)) <> locate own).
           { destruct (moved j) as [dj|] eqn:Hmj; simpl.
             - by eapply (Hapart i j).
             - intros Heq. apply Hji. by eapply paths_apart. }
           rewrite lookup_insert_ne by (intros Heq; by eapply Hclear_d).
           by rewrite lookup_delete_ne.
      * intros i0 j0 own0 d0 Hp0 Hm0 Hmj0.
        destruct (decide (i0 = i)) as [->|Hi0]; [discriminate|].
        destruct (decide (j0 = i)) as [->|Hj0].
        -- injection Hmj0 as <-. intros Heq.
           apply (Hclear_d i0 own0 Hp0). by rewrite Hm0.
        -- by eapply (Hapart i0 j0).
      * intros line Hline. destruct (Hlines line Hline) as (j & Hpj & Hmj & Hsj).
        assert (j <> i) by (intros ->; congruence).
        exists j. split; [done|]. rewrite decide_False by done. split; [done|].
        by rewrite Hother.
      * intros i0 j0 own0 own1 d0 d1 Hp0 Hp1 Hm0 Hm1 Heq.
        destruct (decide (i0 = i)) as [->|Hi0], (decide (j0 = i)) as [->|Hj0];
          [done| | |by eapply Hone].
        -- injection Hm0 as <-. destruct (Hclear_d j0 own1 Hp1). by rewrite Hm1.
        -- injection Hm1 as <-. destruct (Hclear_d i0 own0 Hp0). by rewrite Hm0.
    + injection Hq as <- <-. apply (Hsame (k (net i b))); try done.
    + destruct (locked (world c)); [discriminate|]. injection Hq as <- <-.
      apply (Hsame k); try done.
    + injection Hq as <- <-. apply (Hsame k); try done.
    + injection Hq as <- <-. exists moved. cbn [world slots reported files progress].
      repeat split.
      * intros j own_j s_j Hpj Hsj. destruct (decide (j = i)) as [->|Hji].
        -- rewrite list_lookup_insert_eq in Hsj by (by eapply lookup_lt_Some).
           injection Hsj as <-. constructor.
        -- rewrite Hother in Hsj by done. eauto.
      * exact Hplace.
      * exact Hapart.
      * intros line [Hline|Hline%list_elem_of_singleton]%elem_of_app.
        -- destruct (Hlines line Hline) as (j & Hpj & Hmj & Hsj).
           assert (j <> i) by (intros ->; congruence).
           exists j. split; [done|]. split; [done|]. by rewrite Hother.
        -- subst line. exists i. simpl. split; [done|]. split; [congruence|].
           apply list_lookup_insert_eq. by eapply lookup_lt_Some.
      * exact Hone.
Qed.
End LinesOfARun.

Section LinesOfARunClaims.

Context `{ChangeCase} `{PathModule}.

Lemma startPool_truthful format fs0 paths σ :
  files σ = fs0 -> progress σ = [] ->
  Truthful fs0 paths (startPool paths format σ).
Proof.
  intros Hf Hp. exists (fun _ => None). cbn [startPool world slots]. repeat split.
  - intros i own s Hown Hs. unfold processingTasks in Hs.
    rewrite list_lookup_fmap, Hown in Hs. injection Hs as <-. apply processingTask_tracks.
  - intros i own _. simpl. by rewrite Hf.
  - intros i j own d _ _ Hd. discriminate.
  - intros line Hline. rewrite Hp in Hline. by apply elem_of_nil in Hline.
  - intros i j own_i own_j d_i d_j _ _ Hd. discriminate.
Qed.

Lemma valid_is_readable fs argv own :
  own ∈ validAmong fs argv [] ->
  exists node, fs !! locate own = Some node /\ isRegular node && readable node = true.
Proof.
  intros [Hin|[_ Hok]]%validAmong_elem_of; [by apply elem_of_nil in Hin|].
  apply andb_true_iff in Hok as [Hok _]. unfold readableFile in Hok.
  destruct (fs !! locate own) as [node|]; [by exists node | discriminate].
Qed.

Lemma run_truthful fs argv format net concurrencyLimit schedule c0 c :
  mainPool fs argv format = Some c0 ->
  differentFiles (validAmong fs argv []) ->
  runSchedule net concurrencyLimit schedule c0 = Some c ->
  Truthful fs (validAmong fs argv []) c.
Proof.
  intros Hmain Hdiff Hrun.
  assert (Hinv : Keeping format fs (validAmong fs argv []) c /\
                 Truthful fs (validAmong fs argv []) c); [|by destruct Hinv].
  apply (run_invariant net concurrencyLimit
           (fun c => Keeping format fs (validAmong fs argv []) c /\
                     Truthful fs (validAmong fs argv []) c))
    with schedule c0; [| |exact Hrun].
  - intros i c1 c2 [Hk Ht] Hstep. split; [by eapply poolStep_keeping|].
    eapply poolStep_truthful; eauto.
    intros own Hown. destruct (valid_is_readable fs argv own Hown) as (node & -> & Hok).
    apply andb_true_iff in Hok as [Hreg _]. eauto.
  - destruct (mainPool_invariant _ _ _ _ Hmain) as [Hinv Hfiles].
    unfold mainPool in Hmain.
    destruct (validImagePathsOf_spec fs argv) as (σ & Hv & Hf & _ & _ & Hp).
    rewrite Hv in Hmain.
    destruct (validAmong fs argv []) as [|p valid] eqn:Hpaths; [discriminate|].
    injection Hmain as <-. split; [|by apply startPool_truthful].
    split; [exact Hinv|]. cbn [startPool world slots]. rewrite Hf.
    split; [apply (startPool_careful fs (p :: valid) format σ) | by split].
Qed.



End LinesOfARunClaims.

(** ** Two images with one destination *)

Lemma rename_keeps fs oldLocation newLocation fs' location n :
  noFile (Fs.stat fs newLocation) = true ->
  Fs.rename fs oldLocation newLocation = Some fs' ->
  fs !! location = Some n -> isRegular n = true ->
  location <> oldLocation ->
  fs' !! location = Some n.
Proof.
  intros Hno Hren Hn Hreg Hold.
  destruct (rename_cleared _ _ _ _ Hno Hren) as (src & Hsrc & _ & Hdst & ->).
  assert (location <> newLocation).
  { intros ->. destruct (Hdst n Hn). congruence. }
  rewrite lookup_insert_ne by done. by rewrite lookup_delete_ne.
Qed.

Lemma rename_keeps_free fs oldLocation newLocation fs' location :
  Fs.rename fs oldLocation newLocation = Some fs' ->
  fs !! location = None -> location <> newLocation ->
  fs' !! location = None.
Proof.
  intros Hren Hn Hnew.
  destruct (rename_moves _ _ _ _ Hren) as (_ & _ & Hold & Hrest).
  destruct (decide (location = oldLocation)) as [->|Hne]; [by apply Hold|].
  by rewrite Hrest.
Qed.

(** One call of a task that renames with care and elsewhere. *)
Lemma step_Bystander {A} answers own cleared location (q q' : prog A) σ σ' :
  Careful own cleared q ->
  Avoids location answers q ->
  step answers q σ = Some (q', σ') ->
  (forall d, cleared = Some d -> holdsMutex q = true ->
     noFile (Fs.stat (files σ) (locate d)) = true) ->
  exists cleared',
    Careful own cleared' q' /\
    Avoids location answers q' /\
    (forall d, cleared' = Some d -> noFile (Fs.stat (files σ') (locate d)) = true) /\
    (files σ' = files σ \/
     holdsMutex q = true /\
     exists d,
       locate d <> location /\
       noFile (Fs.stat (files σ) (locate d)) = true /\
       Fs.rename (files σ) (locate own) (locate d) = Some (files σ')).
Proof.
  intros Hcare Havoid Hstep Hclear.
  destruct Hcare as [| |cl p k Hk|cl d k Hk|cl p k Hk|d k Hhold Hk|cl b k Hk
                    |cl k Hk|cl k Hk|cl p r k Hk]; simpl in Hstep; try discriminate;
    inversion Havoid as [| |? ? Ha|? ? Ha|? ? Ha|? ? ? Hd Ha|? ? Ha|? Ha|? Ha|? ? ? Ha];
    subst.
  - injection Hstep as <- <-. exists None. split; [apply Hk|]. split; [apply Ha|].
    split; [done|by left].
  - injection Hstep as <- <-. eexists. split; [apply Hk|]. split; [apply Ha|].
    split; [|by left]. intros d'. cbn [called files].
    by destruct (noFile (Fs.stat (files σ) (locate d))) eqn:Hno; intros [= <-].
  - injection Hstep as <- <-. exists None. split; [apply Hk|]. split; [apply Ha|].
    split; [done|by left].
  - specialize (Hclear d eq_refl Hhold).
    destruct (Fs.rename (files σ) (locate own) (locate d)) as [fs'|] eqn:Hren;
      injection Hstep as <- <-; exists None; (split; [apply Hk|]);
      (split; [apply Ha|]); (split; [done|]);
      [right; split; [exact Hhold|]; by exists d | by left].
  - injection Hstep as <- <-. exists None. split; [apply Hk|]. split; [exact Ha|].
    split; [done|by left].
  - destruct (locked σ); [discriminate|]. injection Hstep as <- <-.
    exists None. split; [apply Hk|]. split; [exact Ha|]. split; [done|by left].
  - injection Hstep as <- <-. exists None. split; [apply Hk|]. split; [exact Ha|].
    split; [done|by left].
  - injection Hstep as <- <-. exists None. split; [apply Hk|]. split; [exact Ha|].
    split; [done|by left].
Qed.

Section RaceSteps.

Import Race.
Context `{ChangeCase} `{PathModule}.
Variable fs : gmap string Node.
Variable format : Format.
Variable newFilePath : string.
Variable t : Contender.
Hypothesis contending : Contending fs format newFilePath t.
Hypothesis fresh : fs !! locate newFilePath = None.

Lemma contender_elsewhere : locate (imagePath t) <> locate newFilePath.
Proof. destruct contending as (Hn & _). intros Heq. rewrite Heq in Hn. congruence. Qed.

Lemma contender_not_destination : imagePath t <> newFilePath.
Proof. intros Heq. apply contender_elsewhere. by rewrite Heq. Qed.

Lemma contender_reads :
  isRegular (node t) && readable (node t) && opens (node t) = true.
Proof.
  destruct contending as (Hn & Hread & _). unfold Fs.readFile in Hread.
  rewrite Hn in Hread. by destruct (_ && _ && _).
Qed.

Lemma contender_regular : isRegular (node t) = true.
Proof.
  pose proof contender_reads as Hr.
  by apply andb_true_iff in Hr as [[? _]%andb_true_iff _].
Qed.

Lemma step_Reading σ :
  files σ !! locate (imagePath t) = Some (node t) ->
  step (answers t) (programAt format newFilePath t Reading) σ =
  Some (programAt format newFilePath t Describing, called (CallReadFile (imagePath t)) σ).
Proof.
  intros Hn. pose proof contender_reads as Hrr.
  cbn. unfold Fs.readFile. rewrite Hn, Hrr. reflexivity.
Qed.

Lemma step_Describing σ :
  step (answers t) (programAt format newFilePath t Describing) σ =
  Some (programAt format newFilePath t Locking,
        called (CallFetch (dataUrlOf (imagePath t) (bytes (node t)))) σ).
Proof.
  destruct contending as (_ & _ & _ & aiName & Htext & Hsan & Hnew).
  apply usableText_Some in Htext as (response & body & Hans & Hok & Hjson & Htrim & Hne).
  pose proof contender_not_destination as Hneq.
  apply String.eqb_neq in Hneq.
  cbn. change (answers t _) with (answers t (dataUrlOf (imagePath t) (bytes (node t)))).
  rewrite Hans. cbn. rewrite Hok. cbn. unfold Await.responseJson. rewrite Hjson. cbn.
  rewrite Htrim. unfold JS.falsy. rewrite Hne. cbn. rewrite Hne, Hsan. rewrite Hnew, Hneq.
  reflexivity.
Qed.

Lemma step_Locking σ :
  step (answers t) (programAt format newFilePath t Locking) σ =
  if locked σ then None else Some (programAt format newFilePath t Checking, withLocked true σ).
Proof. reflexivity. Qed.

Lemma step_Checking_free σ :
  files σ !! locate newFilePath = None ->
  step (answers t) (programAt format newFilePath t Checking) σ =
  Some (programAt format newFilePath t Renaming, called (CallStat newFilePath) σ).
Proof. intros Hn. cbn. unfold Fs.stat. rewrite Hn. reflexivity. Qed.

Lemma step_Checking_taken σ n :
  files σ !! locate newFilePath = Some n -> isRegular n = true ->
  step (answers t) (programAt format newFilePath t Checking) σ =
  Some (programAt format newFilePath t ReleasingLost, called (CallStat newFilePath) σ).
Proof. intros Hn Hr. cbn. unfold Fs.stat. rewrite Hn, Hr. reflexivity. Qed.

Lemma step_Renaming σ :
  files σ !! locate (imagePath t) = Some (node t) ->
  files σ !! locate newFilePath = None ->
  step (answers t) (programAt format newFilePath t Renaming) σ =
  Some (programAt format newFilePath t ReleasingWon,
        withFiles (<[locate newFilePath := node t]> (delete (locate (imagePath t)) (files σ)))
          (called (CallRename (imagePath t) newFilePath) σ)).
Proof.
  intros Hn Hd. destruct contending as (_ & _ & Hren & _).
  cbn. unfold Fs.rename. rewrite Hn, Hd, Hren. reflexivity.
Qed.

Lemma step_ReleasingWon σ :
  step (answers t) (programAt format newFilePath t ReleasingWon) σ =
  Some (programAt format newFilePath t ReportingWon, withLocked false σ).
Proof. reflexivity. Qed.

Lemma step_ReleasingLost σ :
  step (answers t) (programAt format newFilePath t ReleasingLost) σ =
  Some (programAt format newFilePath t ReportingLost, withLocked false σ).
Proof. reflexivity. Qed.

Lemma step_ReportingWon σ :
  step (answers t) (programAt format newFilePath t ReportingWon) σ =
  Some (programAt format newFilePath t Won, reported (imagePath t) (Success newFilePath) σ).
Proof. reflexivity. Qed.

Lemma step_ReportingLost σ :
  step (answers t) (programAt format newFilePath t ReportingLost) σ =
  Some (programAt format newFilePath t Lost, reported (imagePath t) Skipped σ).
Proof. reflexivity. Qed.

Lemma returned_slotAt ph :
  returned (slotAt format newFilePath t ph) = true -> ph = Won \/ ph = Lost.
Proof. destruct ph; cbn; auto; discriminate. Qed.

Lemma slotHolds_slotAt ph :
  slotHolds (slotAt format newFilePath t ph) = holding ph.
Proof. destruct ph; reflexivity. Qed.

End RaceSteps.

Section RaceInvariant.

Import Race.
Context `{ChangeCase} `{PathModule}.
Variable fs : gmap string Node.
Variable format : Format.
Variable newFilePath : string.
Hypothesis fresh : fs !! locate newFilePath = None.

Lemma compatible_sym a b : compatible a b = compatible b a.
Proof. destruct a, b; reflexivity. Qed.

Lemma Good_sym me other phMe phOther σ :
  Good newFilePath me other phMe phOther σ ->
  Good newFilePath other me phOther phMe σ.
Proof.
  intros (Hc & Hme & Hother & Hfree & Htme & Htother).
  split; [by rewrite compatible_sym|]. repeat split; auto.
Qed.

(** The lines tell nothing of a task that has not returned. *)
Lemma told_silent t ph ph' lines :
  ph <> Won -> ph <> Lost -> told newFilePath t ph lines -> told newFilePath t ph' lines.
Proof.
  intros Hw Hl Ht line Hline Himage.
  destruct (Ht line Hline Himage) as [[-> _]|[-> _]]; done.
Qed.

Lemma told_other t ph lines own result n :
  own <> imagePath t ->
  told newFilePath t ph lines ->
  told newFilePath t ph
    (lines ++ [{| image := own; outcome := result; doneSoFar := n |}]).
Proof.
  intros Hne Ht line [Hline|Hline%list_elem_of_singleton]%elem_of_app Himage.
  - by apply Ht.
  - subst line. by destruct Hne.
Qed.

(** A call that changes neither the files nor the lines, and after
    which the task has renamed if it had before. *)
Lemma Good_quiet me other ph ph' phOther σ σ' :
  Good newFilePath me other ph phOther σ ->
  files σ' = files σ -> progress σ' = progress σ ->
  won ph' = won ph -> ph <> Won -> ph <> Lost ->
  compatible ph' phOther = true ->
  Good newFilePath me other ph' phOther σ'.
Proof.
  intros (Hc & Hme & Hother & Hfree & Htme & Htother) Hf Hp Hw Hnw Hnl Hc'.
  unfold Good, placed in *. rewrite Hf, Hp, Hw.
  split; [exact Hc'|]. split; [exact Hme|]. split; [exact Hother|].
  split; [exact Hfree|]. split; [|exact Htother].
  by eapply told_silent; [| |exact Htme].
Qed.

Section Step.

Variables me other : Contender.
Hypothesis contending_me : Contending fs format newFilePath me.
Hypothesis contending_other : Contending fs format newFilePath other.
Hypothesis apart : locate (imagePath me) <> locate (imagePath other).

(** One call of one of the two tasks keeps them in compatible phases,
    and the world as these phases describe it. *)
Lemma contender_step phMe phOther σ q' σ' :
  Good newFilePath me other phMe phOther σ ->
  phMe <> Queueing ->
  holding phMe && holding phOther = false ->
  step (answers me) (programAt format newFilePath me phMe) σ = Some (q', σ') ->
  exists phMe',
    q' = programAt format newFilePath me phMe' /\ phMe' <> Queueing /\
    Good newFilePath me other phMe' phOther σ' /\
    (files σ' = files σ \/ phMe = Renaming).
Proof.
  intros Hgood Hq Hexcl Hstep.
  pose proof Hgood as (Hc & Hme & Hother & Hfree & Htme & Htother).
  assert (Hnames : imagePath me <> imagePath other) by (intros Heq; by rewrite Heq in apart).
  destruct phMe; try done; unfold placed in Hme; cbn [won] in Hme, Hfree.
  - (* Reading *)
    rewrite (step_Reading fs format newFilePath me contending_me) in Hstep by exact Hme.
    injection Hstep as <- <-. exists Describing.
    split; [reflexivity|]. split; [discriminate|]. split; [|by left].
    eapply Good_quiet; [exact Hgood|done..|by destruct phOther].
  - (* Describing *)
    rewrite (step_Describing fs format newFilePath me contending_me fresh) in Hstep.
    injection Hstep as <- <-. exists Locking.
    split; [reflexivity|]. split; [discriminate|]. split; [|by left].
    eapply Good_quiet; [exact Hgood|done..|by destruct phOther].
  - (* Locking *)
    rewrite step_Locking in Hstep. destruct (locked σ); [discriminate|].
    injection Hstep as <- <-. exists Checking.
    split; [reflexivity|]. split; [discriminate|]. split; [|by left].
    eapply Good_quiet; [exact Hgood|done..|by destruct phOther].
  - (* Checking *)
    destruct (won phOther) eqn:Hwon.
    + unfold placed in Hother. rewrite Hwon in Hother.
      erewrite step_Checking_taken in Hstep;
        [| exact Hother | exact (contender_regular fs format newFilePath other contending_other)].
      injection Hstep as <- <-. exists ReleasingLost.
      split; [reflexivity|]. split; [discriminate|]. split; [|by left].
      eapply Good_quiet; [exact Hgood|done..|by destruct phOther].
    + rewrite step_Checking_free in Hstep by (by apply Hfree).
      injection Hstep as <- <-. exists Renaming.
      split; [reflexivity|]. split; [discriminate|]. split; [|by left].
      eapply Good_quiet; [exact Hgood|done..|by destruct phOther].
  - (* Renaming *)
    assert (Hwon : won phOther = false) by (by destruct phOther).
    assert (Hhold : holding phOther = false) by exact Hexcl.
    unfold placed in Hother. rewrite Hwon in Hother.
    pose proof (Hfree eq_refl Hwon) as Hclear.
    rewrite (step_Renaming fs format newFilePath me contending_me) in Hstep by done.
    injection Hstep as <- <-. exists ReleasingWon.
    split; [reflexivity|]. split; [discriminate|]. split; [|by right].
    unfold Good, placed. rewrite Hwon. cbn [files withFiles called progress won].
    split; [by destruct phOther|].
    split; [apply lookup_insert_eq|].
    split; [|split; [discriminate|split; [|exact Htother]]].
    + rewrite lookup_insert_ne by (intros Heq; rewrite Heq in Hclear; congruence).
      rewrite lookup_delete_ne by done. exact Hother.
    + by eapply told_silent; [| |exact Htme].
  - (* ReleasingWon *)
    rewrite step_ReleasingWon in Hstep. injection Hstep as <- <-. exists ReportingWon.
    split; [reflexivity|]. split; [discriminate|]. split; [|by left].
    eapply Good_quiet; [exact Hgood|done..|by destruct phOther].
  - (* ReleasingLost *)
    rewrite step_ReleasingLost in Hstep. injection Hstep as <- <-. exists ReportingLost.
    split; [reflexivity|]. split; [discriminate|]. split; [|by left].
    eapply Good_quiet; [exact Hgood|done..|by destruct phOther].
  - (* ReportingWon *)
    rewrite step_ReportingWon in Hstep. injection Hstep as <- <-. exists Won.
    split; [reflexivity|]. split; [discriminate|]. split; [|by left].
    unfold Good, placed. cbn [files reported progress won].
    split; [by destruct phOther|]. split; [exact Hme|]. split; [exact Hother|].
    split; [discriminate|]. split; [|by apply told_other].
    intros line [Hline|Hline%list_elem_of_singleton]%elem_of_app Himage.
    + destruct (Htme line Hline Himage) as [[? _]|[? _]]; discriminate.
    + subst line. by left.
  - (* ReportingLost *)
    rewrite step_ReportingLost in Hstep. injection Hstep as <- <-. exists Lost.
    split; [reflexivity|]. split; [discriminate|]. split; [|by left].
    unfold Good, placed. cbn [files reported progress won].
    split; [by destruct phOther|]. split; [exact Hme|]. split; [exact Hother|].
    split; [exact Hfree|]. split; [|by apply told_other].
    intros line [Hline|Hline%list_elem_of_singleton]%elem_of_app Himage.
    + destruct (Htme line Hline Himage) as [[? _]|[? _]]; discriminate.
    + subst line. by right.
Qed.

End Step.

End RaceInvariant.

Section RaceTheory.

Import Race.
Context `{ChangeCase} `{PathModule}.
Variable fs : gmap string Node.
Variable format : Format.
Variable newFilePath : string.
Variable net : nat -> string -> option Response.
Variable concurrencyLimit : nat.
Variable paths : list string.
Hypothesis fresh : fs !! locate newFilePath = None.
Hypothesis paths_NoDup : NoDup paths.
Hypothesis paths_present : forall own, own ∈ paths -> is_Some (fs !! locate own).

Lemma slotAt_running t ph :
  ph <> Queueing ->
  slotAt format newFilePath t ph = Running (programAt format newFilePath t ph).
Proof. by destruct ph. Qed.

(** A step of one of the two tasks. *)
Lemma race_step_contender iMe iOther me other phMe phOther c c' :
  Contending fs format newFilePath me -> Contending fs format newFilePath other ->
  answers me = net iMe ->
  iMe <> iOther ->
  locate (imagePath me) <> locate (imagePath other) ->
  PoolInvariant format paths c ->
  slots c !! iMe = Some (slotAt format newFilePath me phMe) ->
  slots c !! iOther = Some (slotAt format newFilePath other phOther) ->
  Good newFilePath me other phMe phOther (world c) ->
  (forall k own s, paths !! k = Some own -> k <> iMe -> k <> iOther ->
     slots c !! k = Some s -> Bystander newFilePath (net k) (files (world c)) own s) ->
  poolStep net concurrencyLimit iMe c = Some c' ->
  exists phMe',
    slots c' !! iMe = Some (slotAt format newFilePath me phMe') /\
    slots c' !! iOther = Some (slotAt format newFilePath other phOther) /\
    Good newFilePath me other phMe' phOther (world c') /\
    (forall k own s, paths !! k = Some own -> k <> iMe -> k <> iOther ->
       slots c' !! k = Some s -> Bystander newFilePath (net k) (files (world c')) own s).
Proof.
  intros Hcme Hcother Hanswers Hne Hapart Hinv Hme Hother Hgood Hby Hstep.
  unfold poolStep in Hstep. rewrite Hme in Hstep.
  assert (Hlt : iMe < length (slots c)) by (by eapply lookup_lt_Some).
  assert (phMe = Queueing \/ phMe <> Queueing) as [->|Hq]
    by (destruct phMe; auto; right; discriminate).
  - cbn [slotAt] in Hstep. destruct (_ <? _); [|discriminate].
    injection Hstep as <-. cbn [world slots]. exists Reading.
    split; [by apply list_lookup_insert_eq|].
    split; [by rewrite list_lookup_insert_ne|].
    split.
    + eapply Good_quiet; [exact Hgood|done..|].
      destruct Hgood as (Hc & _). by destruct phOther.
    + intros k own s Hk Hk1 Hk2 Hs. rewrite list_lookup_insert_ne in Hs by done. eauto.
  - rewrite slotAt_running in Hstep by done.
    destruct (step (net iMe) (programAt format newFilePath me phMe) (world c))
      as [[q' σ']|] eqn:Hcall; [|discriminate].
    injection Hstep as <-. cbn [world slots]. rewrite <- Hanswers in Hcall.
    assert (Hexcl : holding phMe && holding phOther = false).
    { destruct (holding phMe) eqn:Hh1, (holding phOther) eqn:Hh2; try done.
      destruct Hne. destruct Hinv as (_ & _ & _ & Hholders).
      eapply (holders_unique (slots c)); eauto.
      - rewrite Hholders. destruct (locked (world c)); lia.
      - by rewrite slotHolds_slotAt.
      - by rewrite slotHolds_slotAt. }
    destruct (contender_step fs format newFilePath fresh me other Hcme Hcother Hapart
                _ _ _ _ _ Hgood Hq Hexcl Hcall) as (phMe' & -> & Hq' & Hgood' & Hfiles).
    exists phMe'. split; [rewrite slotAt_running by done; by apply list_lookup_insert_eq|].
    split; [by rewrite list_lookup_insert_ne|]. split; [exact Hgood'|].
    intros k own s Hk Hk1 Hk2 Hs. rewrite list_lookup_insert_ne in Hs by done.
    destruct (Hby k own s Hk Hk1 Hk2 Hs) as [(cleared & Hcare & Hclear) Havoid].
    split; [|exact Havoid]. exists cleared. split; [exact Hcare|].
    destruct Hfiles as [-> | ->]; [exact Hclear|].
    intros d _ Hholds. destruct Hk1. destruct Hinv as (_ & _ & _ & Hholders).
    apply (holders_unique (slots c) k iMe s (slotAt format newFilePath me Renaming));
      try done.
    rewrite Hholders. destruct (locked (world c)); lia.
Qed.

Variables first second : nat.
Variables a b : Contender.
Hypothesis first_path : paths !! first = Some (imagePath a).
Hypothesis second_path : paths !! second = Some (imagePath b).
Hypothesis distinct : first <> second.
Hypothesis answers_a : answers a = net first.
Hypothesis answers_b : answers b = net second.
Hypothesis contending_a : Contending fs format newFilePath a.
Hypothesis contending_b : Contending fs format newFilePath b.
Hypothesis only_a :
  forall k own, paths !! k = Some own -> locate own = locate (imagePath a) -> k = first.
Hypothesis only_b :
  forall k own, paths !! k = Some own -> locate own = locate (imagePath b) -> k = second.

Lemma contenders_apart : locate (imagePath a) <> locate (imagePath b).
Proof. intros Heq. apply distinct. symmetry. by eapply only_a. Qed.

(** A step of another task. *)
Lemma race_step_bystander i c c' :
  i <> first -> i <> second ->
  RaceInvariant format newFilePath net paths first second a b c ->
  poolStep net concurrencyLimit i c = Some c' ->
  RaceInvariant format newFilePath net paths first second a b c'.
Proof.
  intros Hi1 Hi2 (Hinv & (ph1 & ph2 & Hs1 & Hs2 & Hgood) & Hby) Hstep.
  split; [by eapply poolStep_invariant|].
  unfold poolStep in Hstep.
  destruct (slots c !! i) as [s|] eqn:Hi; [|discriminate].
  pose proof Hinv as (Hslots & _ & _ & Hholders).
  destruct (Forall2_lookup_r _ _ _ _ _ Hslots Hi) as (own & Hown & Hslot).
  destruct (Hby i own s Hown Hi1 Hi2 Hi) as [(cleared & Hcare & Hclear) Havoid].
  assert (Hlt : i < length (slots c)) by (by eapply lookup_lt_Some).
  assert (Hnot_a : own <> imagePath a).
  { intros ->. apply Hi1. by eapply NoDup_lookup. }
  assert (Hnot_b : own <> imagePath b).
  { intros ->. apply Hi2. by eapply NoDup_lookup. }
  destruct s as [q|q]; simpl in Hcare, Havoid, Hslot.
  - destruct (_ <? _); [|discriminate]. injection Hstep as <-. cbn [world slots].
    split.
    + exists ph1, ph2. by rewrite !list_lookup_insert_ne.
    + intros k own_k s_k Hk Hk1 Hk2 Hsk. destruct (decide (k = i)) as [->|Hki].
      * rewrite list_lookup_insert_eq in Hsk by done. injection Hsk as <-.
        assert (own_k = own) as -> by congruence. subst q.
        split; [|exact Havoid]. exists None. split; [apply processingTask_careful|done].
      * rewrite list_lookup_insert_ne in Hsk by done. eauto.
  - destruct (step (net i) q (world c)) as [[q' σ']|] eqn:Hq; [|discriminate].
    injection Hstep as <-. cbn [world slots].
    destruct Hslot as [-> | [held Hres]]; [discriminate|].
    destruct (step_Bystander _ _ _ _ _ _ _ _ Hcare Havoid Hq)
      as (cleared' & Hcare' & Havoid' & Hclear' & Hfiles).
    { intros d Hd Hhold. by apply Hclear. }
    assert (Hlines : progress σ' = progress (world c) \/
              exists r, progress σ' = progress (world c) ++
                [{| image := own; outcome := r; doneSoFar := S (done (world c)) |}]).
    { destruct (step_residual _ _ _ _ _ _ _ Hres Hq)
        as [(_ & _ & r & ->) | (_ & _ & Hpr & _)]; [right; by exists r|by left]. }
    assert (Htold : forall t ph, own <> imagePath t ->
              told newFilePath t ph (progress (world c)) ->
              told newFilePath t ph (progress σ')).
    { intros t ph Hne Ht. destruct Hlines as [-> | [r ->]]; [done|by apply told_other]. }
    assert (Hmine : is_Some (fs !! locate own))
      by (apply paths_present; by eapply list_elem_of_lookup_2).
    assert (Hown_new : locate own <> locate newFilePath).
    { intros Heq. rewrite Heq, fresh in Hmine. by destruct Hmine. }
    assert (Hown_a : locate own <> locate (imagePath a)) by (intros Heq; by eapply Hi1, only_a).
    assert (Hown_b : locate own <> locate (imagePath b)) by (intros Heq; by eapply Hi2, only_b).
    split.
    + exists ph1, ph2. rewrite !list_lookup_insert_ne by done.
      split; [exact Hs1|]. split; [exact Hs2|].
      destruct Hgood as (Hc & Hpa & Hpb & Hfree & Hta & Htb).
      split; [exact Hc|].
      assert (Hplaced : forall t ph, Contending fs format newFilePath t ->
                locate own <> locate (imagePath t) ->
                placed newFilePath t ph (files (world c)) ->
                placed newFilePath t ph (files σ')).
      { intros t ph Ht Hne Hp.
        destruct Hfiles as [-> | (_ & d & Hd & Hno & Hren)]; [exact Hp|].
        pose proof (contender_regular fs format newFilePath t Ht) as Hreg.
        unfold placed in *. destruct (won ph).
        - by eapply rename_keeps; eauto.
        - eapply rename_keeps; eauto. }
      split; [by apply Hplaced|]. split; [by apply Hplaced|].
      split; [|split; [by apply Htold|by apply Htold]].
      intros Hw1 Hw2. specialize (Hfree Hw1 Hw2).
      destruct Hfiles as [-> | (_ & d & Hd & Hno & Hren)]; [exact Hfree|].
      eapply rename_keeps_free; eauto.
    + intros k own_k s_k Hk Hk1 Hk2 Hsk. destruct (decide (k = i)) as [->|Hki].
      * rewrite list_lookup_insert_eq in Hsk by done. injection Hsk as <-.
        assert (own_k = own) as -> by congruence.
        split; [|exact Havoid']. exists cleared'. split; [exact Hcare'|].
        intros d Hd _. by apply Hclear'.
      * rewrite list_lookup_insert_ne in Hsk by done.
        destruct (Hby k own_k s_k Hk Hk1 Hk2 Hsk) as [(cl & Hc_k & Hclear_k) Havoid_k].
        split; [|exact Havoid_k]. exists cl. split; [exact Hc_k|].
        destruct Hfiles as [-> | (Hhold & _)]; [exact Hclear_k|].
        intros d _ Hholds. destruct Hki.
        eapply (holders_unique (slots c)); eauto.
        rewrite Hholders. destruct (locked (world c)); lia.
Qed.

(** Every step of the pool keeps the invariant. *)
Lemma race_step i c c' :
  RaceInvariant format newFilePath net paths first second a b c ->
  poolStep net concurrencyLimit i c = Some c' ->
  RaceInvariant format newFilePath net paths first second a b c'.
Proof.
  intros Hrace Hstep.
  destruct (decide (i = first)) as [->|Hi1]; [|destruct (decide (i = second)) as [->|Hi2]].
  - destruct Hrace as (Hinv & (ph1 & ph2 & Hs1 & Hs2 & Hgood) & Hby).
    split; [by eapply poolStep_invariant|].
    destruct (race_step_contender first second a b ph1 ph2 c c'
                contending_a contending_b answers_a distinct contenders_apart
                Hinv Hs1 Hs2 Hgood Hby Hstep) as (ph1' & Hs1' & Hs2' & Hgood' & Hby').
    split; [by exists ph1', ph2|exact Hby'].
  - destruct Hrace as (Hinv & (ph1 & ph2 & Hs1 & Hs2 & Hgood) & Hby).
    split; [by eapply poolStep_invariant|].
    assert (Hby_sym : forall k own s, paths !! k = Some own -> k <> second -> k <> first ->
              slots c !! k = Some s ->
              Bystander newFilePath (net k) (files (world c)) own s) by eauto.
    destruct (race_step_contender second first b a ph2 ph1 c c'
                contending_b contending_a answers_b (not_eq_sym distinct)
                (not_eq_sym contenders_apart)
                Hinv Hs2 Hs1 (Good_sym _ _ _ _ _ _ Hgood) Hby_sym Hstep)
      as (ph2' & Hs2' & Hs1' & Hgood' & Hby').
    split; [exists ph1, ph2'; split; [done|]; split; [done|]; by apply Good_sym | eauto].
  - by eapply race_step_bystander.
Qed.

End RaceTheory.

Ltac avoid :=
  repeat first
    [ apply Avoids_Ret | apply Avoids_Throw
    | apply Avoids_Acquire | apply Avoids_Release | apply Avoids_Report
    | apply Avoids_ReadFile; intros [?|]; simpl
    | apply Avoids_Stat; intros [[[|]]|]; simpl
    | apply Avoids_Access; intros [|]; simpl
    | apply Avoids_Rename; [ | intros [|]; simpl]
    | match goal with
      | |- Avoids _ _ ?q =>
          match q with
          | context [if ?b then _ else _] => destruct b eqn:?; simpl
          | context [match ?x with Some _ => _ | None => _ end] => destruct x eqn:?; simpl
          end
      end ].

Lemma returnedPaths_elem paths : forall ss i p s,
  paths !! i = Some p -> ss !! i = Some s -> returned s = true ->
  p ∈ returnedPaths paths ss.
Proof.
  induction paths as [|q paths IH]; intros [|s0 ss] i p s Hp Hs Hr; try done.
  destruct i as [|i]; simpl in *.
  - injection Hp as ->. injection Hs as ->. rewrite Hr. apply elem_of_cons. by left.
  - specialize (IH ss i p s Hp Hs Hr). destruct (returned s0); [|done].
    apply elem_of_cons. by right.
Qed.

Section RaceClaim.

Context `{ChangeCase} `{PathModule}.

(** A task whose description never leads to a location makes no rename
    to it. *)
Lemma processingTask_avoids location answers own format :
  (forall buffer aiName, usableText (answers (dataUrlOf own buffer)) = Some aiName ->
     convertCase aiName format <> "" ->
     newFilePathOf own (convertCase aiName format) <> own ->
     locate (newFilePathOf own (convertCase aiName format)) <> location) ->
  Avoids location answers (processingTask own format).
Proof.
  intros Hav. unfold_task. apply Avoids_ReadFile. intros [buffer|]; simpl; [|avoid].
  apply Avoids_Fetch. specialize (Hav buffer).
  change (answers _) with (answers (dataUrlOf own buffer)).
  unfold usableText in Hav.
  destruct (answers (dataUrlOf own buffer)) as [response|]; simpl; [|avoid].
  destruct (ok response); simpl; [|avoid].
  destruct (json response) as [data|]; simpl; [|avoid].
  destruct (trimmedContent data) as [text|]; simpl; [|avoid].
  unfold JS.falsy. destruct (JS.isEmpty text) eqn:Hempty; simpl; [avoid|].
  rewrite Hempty. simpl. avoid;
    match goal with
    | Hname : JS.isEmpty (convertCase _ _) = false,
      Hpath : String.eqb _ _ = false |- _ =>
        apply (Hav text eq_refl); [by apply isEmpty_false|];
        apply String.eqb_neq in Hpath; congruence
    end.
Qed.


End RaceClaim.
(** ** The prompt for the limit *)

Lemma digitsOf_uint d rest :
  startsWithDigit rest = false ->
  Prompt.digitsOf (DecimalString.NilEmpty.string_of_uint d +:+ rest) =
  DecimalString.NilEmpty.string_of_uint d.
Proof.
  intros Hrest. induction d; simpl; try (by rewrite IHd).
  destruct rest as [|c rest]; [done|]. simpl in *. by rewrite Hrest.
Qed.

Lemma valueOf_uint d : forall acc,
  Prompt.valueOf (Z.of_nat acc) (DecimalString.NilEmpty.string_of_uint d) =
  Z.of_nat (Nat.of_uint_acc d acc).
Proof.
  induction d; intros acc; simpl; [done|..];
    rewrite <- IHd; f_equal; rewrite Nat.tail_mul_spec;
    unfold Prompt.digitValue;
    match goal with
    | |- context [Z.of_nat (JS.code ?c)] =>
        let v := eval vm_compute in (Z.of_nat (JS.code c)) in
        change (Z.of_nat (JS.code c)) with v
    end; lia.
Qed.

Lemma trimStart_app before s :
  allWhiteSpace before = true -> JS.trimStart (before +:+ s) = JS.trimStart s.
Proof.
  unfold allWhiteSpace. induction before as [|c before IH]; simpl; [done|].
  intros [Hc Hb]%andb_true_iff. rewrite Hc. by apply IH.
Qed.

Lemma uint_first d rest :
  d <> Decimal.Nil ->
  exists c s, DecimalString.NilEmpty.string_of_uint d +:+ rest = String c s /\
    JS.isDigit c = true.
Proof. destruct d; [done|..]; intros _; simpl; eexists _, _; split; reflexivity. Qed.

Lemma isDigit_plain c :
  JS.isDigit c = true ->
  JS.isWhiteSpace c = false /\ Ascii.eqb c "-" = false /\ Ascii.eqb c "+" = false.
Proof.
  unfold JS.isDigit, JS.isWhiteSpace. intros [H1 H2]%andb_true_iff.
  apply Nat.leb_le in H1, H2.
  repeat split.
  - apply orb_false_iff. split; [apply orb_false_iff; split|].
    + apply andb_false_iff. right. apply Nat.leb_gt. lia.
    + apply Nat.eqb_neq. lia.
    + apply Nat.eqb_neq. lia.
  - apply Ascii.eqb_neq. intros ->. vm_compute in H1. lia.
  - apply Ascii.eqb_neq. intros ->. vm_compute in H1. lia.
Qed.

Lemma parseInt_uint d before rest :
  d <> Decimal.Nil -> allWhiteSpace before = true -> startsWithDigit rest = false ->
  Prompt.integerOf (before +:+ DecimalString.NilEmpty.string_of_uint d +:+ rest) =
  Some (Z.of_nat (Nat.of_uint d)).
Proof.
  intros Hd Hb Hrest. unfold Prompt.integerOf. rewrite trimStart_app by done.
  destruct (uint_first d rest Hd) as (c & s & Heq & Hc).
  destruct (isDigit_plain c Hc) as (Hws & Hminus & Hplus).
  rewrite Heq. simpl. rewrite Hws, Hminus, Hplus. cbn [fst snd].
  rewrite <- Heq, digitsOf_uint by done.
  destruct (DecimalString.NilEmpty.string_of_uint d) eqn:Hs.
  { by destruct d. }
  simpl JS.isEmpty. cbv iota. rewrite <- Hs.
  change 0%Z with (Z.of_nat 0). rewrite valueOf_uint. f_equal. unfold Nat.of_uint. lia.
Qed.

Lemma to_uint_nonnil n : Nat.to_uint n <> Decimal.Nil.
Proof.
  intros Hnil. pose proof (DecimalNat.Unsigned.of_to n) as Hn. rewrite Hnil in Hn.
  simpl in Hn. subst n. discriminate.
Qed.

Lemma parseInt_decimal n before rest :
  allWhiteSpace before = true -> startsWithDigit rest = false ->
  Prompt.integerOf (before +:+ decimal n +:+ rest) = Some (Z.of_nat n).
Proof.
  intros Hb Hr. unfold decimal. rewrite parseInt_uint; [|apply to_uint_nonnil|done..].
  by rewrite DecimalNat.Unsigned.of_to.
Qed.

Lemma parseInt_minus n before rest :
  allWhiteSpace before = true -> startsWithDigit rest = false ->
  Prompt.integerOf (before +:+ "-" +:+ decimal n +:+ rest) = Some (- Z.of_nat n)%Z.
Proof.
  intros Hb Hr.
  pose proof (parseInt_decimal n "" rest eq_refl Hr) as Hplain.
  unfold Prompt.integerOf in *. rewrite trimStart_app by done.
  change (JS.trimStart ("-" +:+ decimal n +:+ rest)) with (String "-" (decimal n +:+ rest)).
  cbn [Ascii.eqb Bool.eqb fst snd] . cbv iota.
  change ("" +:+ decimal n +:+ rest) with (decimal n +:+ rest) in Hplain.
  unfold decimal in *.
  destruct (uint_first (Nat.to_uint n) rest (to_uint_nonnil n)) as (c & s & Heq & Hc).
  destruct (isDigit_plain c Hc) as (Hws & Hminus & Hplus).
  rewrite Heq in Hplain. simpl in Hplain. rewrite Hws, Hminus, Hplus in Hplain.
  cbn [fst snd] in Hplain. rewrite <- Heq in Hplain.
  destruct (JS.isEmpty _); [discriminate|]. injection Hplain as Hv.
  f_equal. lia.
Qed.

(** X18. What the prompt for the limit accepts.  A decimal numeral,
    after any white space and before anything that is not a digit, is
    read as its number when this is at most 2^53, and as a Number beyond
    it otherwise; the answer is accepted exactly when the number is at
    least 1.  The same numeral after a minus sign is refused, and so is
    an answer of white space only, or empty. *)
Theorem validate_accepts_positive_integers (n : nat) (before rest : string) :
  allWhiteSpace before = true -> startsWithDigit rest = false ->
  Prompt.parseInt (before +:+ decimal n +:+ rest) =
    (if (Z.of_nat n <=? 2 ^ 53)%Z then Prompt.Integer (Z.of_nat n)
     else Prompt.Huge false) /\
  (Prompt.validate (before +:+ decimal n +:+ rest) = None <-> 1 <= n) /\
  Prompt.validate (before +:+ "-" +:+ decimal n +:+ rest) <> None /\
  Prompt.validate before <> None.
Proof.
  intros Hb Hr.
  assert (Hplain : Prompt.parseInt (before +:+ decimal n +:+ rest) =
            if (Z.of_nat n <=? 2 ^ 53)%Z then Prompt.Integer (Z.of_nat n)
            else Prompt.Huge false).
  { unfold Prompt.parseInt. rewrite parseInt_decimal by done. unfold Prompt.toNumber.
    rewrite Z.abs_eq by lia. destruct (Z.leb_spec (Z.of_nat n) (2 ^ 53)); [done|].
    destruct (Z.ltb_spec (Z.of_nat n) 0); [lia|done]. }
  split; [exact Hplain|]. split; [|split].
  - unfold Prompt.validate. rewrite Hplain.
    destruct (Z.leb_spec (Z.of_nat n) (2 ^ 53)) as [Hle|Hgt]; simpl.
    + destruct (Z.ltb_spec (Z.of_nat n) 1); split; try done; lia.
    + split; [intros _|done]. assert (0 < 2 ^ 53)%Z by lia. lia.
  - unfold Prompt.validate, Prompt.parseInt. rewrite parseInt_minus by done.
    unfold Prompt.toNumber.
    destruct (Z.leb_spec (Z.abs (- Z.of_nat n)) (2 ^ 53));
      cbn [Prompt.isNaN Prompt.lessThanOne orb].
    + destruct (Z.ltb_spec (- Z.of_nat n) 1); [done|lia].
    + destruct (Z.ltb_spec (- Z.of_nat n) 0); [done|lia].
  - unfold Prompt.validate, Prompt.parseInt, Prompt.integerOf.
    apply allWhiteSpace_trimStart in Hb. by rewrite Hb.
Qed.

(** ** Base64 *)

Lemma digit_base64Char n : base64Char (Base64.digit n) = true.
Proof.
  unfold Base64.digit.
  destruct (String.get (N.to_nat n) Base64.alphabet) as [c|] eqn:Hget; [|reflexivity].
  assert (Hall : forallb base64Char (String.list_ascii_of_string Base64.alphabet) = true)
    by (vm_compute; reflexivity).
  rewrite forallb_forall in Hall. apply Hall.
  clear Hall. revert Hget. generalize (N.to_nat n). generalize Base64.alphabet.
  induction s as [|a s IH]; intros [|i]; simpl; try discriminate.
  - intros [= ->]. by left.
  - intros Hi. right. eauto.
Qed.

Lemma encodeBytes_three l :
  (String.length (Base64.encodeBytes l) = 4 * ((length l + 2) / 3) /\
   forallb base64Char (String.list_ascii_of_string (Base64.encodeBytes l)) = true) /\
  (forall a, String.length (Base64.encodeBytes (a :: l)) = 4 * ((length (a :: l) + 2) / 3) /\
   forallb base64Char (String.list_ascii_of_string (Base64.encodeBytes (a :: l))) = true) /\
  (forall a b, String.length (Base64.encodeBytes (a :: b :: l)) = 4 * ((length (a :: b :: l) + 2) / 3) /\
   forallb base64Char (String.list_ascii_of_string (Base64.encodeBytes (a :: b :: l))) = true).
Proof.
  induction l as [|c l (IH0 & IH1 & IH2)].
  - repeat split; intros; cbn [Base64.encodeBytes String.list_ascii_of_string forallb String.length length];
      rewrite ?digit_base64Char; reflexivity.
  - split; [apply IH1|]. split; [intros a; apply IH2|].
    intros a b. destruct IH0 as [Hlen Hall].
    cbn [Base64.encodeBytes String.list_ascii_of_string forallb String.length length].
    rewrite !digit_base64Char, Hall, Hlen. split; [|reflexivity].
    replace (S (S (S (length l))) + 2) with (1 * 3 + (length l + 2)) by lia.
    rewrite Nat.div_add_l by lia. lia.
Qed.

Lemma length_list_ascii_of_string s :
  length (String.list_ascii_of_string s) = String.length s.
Proof. induction s as [|c s IH]; simpl; [done|]. by rewrite IH. Qed.

(** X19. The Base64 text of a file.  It has four characters for every
    three bytes of the file, the last group filled up, and consists of
    characters of Base64 only. *)
Theorem base64_is_well_formed (buffer : string) :
  String.length (Base64.encode buffer) = 4 * ((String.length buffer + 2) / 3) /\
  forallb base64Char (String.list_ascii_of_string (Base64.encode buffer)) = true.
Proof.
  unfold Base64.encode.
  destruct (encodeBytes_three (map N_of_ascii (String.list_ascii_of_string buffer)))
    as [[Hlen Hall] _].
  rewrite Hlen, length_map, length_list_ascii_of_string. split; [reflexivity|exact Hall].
Qed.

(** ** The start of [main] *)

Section StartOfMain.
Context `{ChangeCase} `{PathModule}.

(** X20. How [main] starts.  It exits with code 1 exactly when the key
    of the service is not set or empty, whatever the arguments; the
    filter never makes it fail.  With a key, it exits with code 0 exactly
    when no argument is a readable regular file with an allowed
    extension (in particular when there is no argument).  Otherwise it
    goes on to the prompts with the paths the filter has found, of which
    there is at least one, and the files as they were; these are the
    paths the tasks are started for. *)
Theorem main_exits_or_asks (OPENROUTER_API_KEY : option string)
    (fs : gmap string Node) (processArgv : list string) :
  (mainStart OPENROUTER_API_KEY fs processArgv = Exits 1 <->
   OPENROUTER_API_KEY = None \/ OPENROUTER_API_KEY = Some "") /\
  (mainStart OPENROUTER_API_KEY fs processArgv = Exits 0 <->
   (exists key, OPENROUTER_API_KEY = Some key /\ key <> "") /\
   forall pth, pth ∈ drop 2 processArgv -> admitted fs pth = false) /\
  (forall validImagePaths σ,
     mainStart OPENROUTER_API_KEY fs processArgv = Asks validImagePaths σ ->
     validImagePaths <> [] /\
     validImagePathsOf fs (drop 2 processArgv) = (Returned validImagePaths, σ) /\
     files σ = fs /\
     forall format,
       mainPool fs (drop 2 processArgv) format = Some (startPool validImagePaths format σ)).
Proof.
  unfold mainStart.
  destruct (validImagePathsOf_spec fs (drop 2 processArgv)) as (σ & Hv & Hf & _).
  assert (Hnone : validAmong fs (drop 2 processArgv) [] = [] <->
                  forall pth, pth ∈ drop 2 processArgv -> admitted fs pth = false).
  { split.
    - intros Hempty pth Hin. destruct (admitted fs pth) eqn:Hadm; [|done].
      assert (Hp : pth ∈ validAmong fs (drop 2 processArgv) [])
        by (apply validAmong_elem_of; right; by split).
      rewrite Hempty in Hp. by apply elem_of_nil in Hp.
    - intros Hall. destruct (validAmong fs (drop 2 processArgv) []) as [|p l] eqn:Hl; [done|].
      assert (Hp : p ∈ validAmong fs (drop 2 processArgv) []) by (rewrite Hl; left).
      apply validAmong_elem_of in Hp as [Hp|[Hin Hok]]; [by apply elem_of_nil in Hp|].
      specialize (Hall p Hin). unfold admitted in Hall. congruence. }
  rewrite Hv. cbv zeta.
  destruct OPENROUTER_API_KEY as [[|c key]|]; simpl.
  - split; [split; [by right|done]|]. split; [|discriminate].
    split; [discriminate|]. by intros [(key & [= <-] & Hkey) _].
  - assert (Hkey : Some (String c key) = None \/ Some (String c key) = Some "" -> False)
      by (by intros [|]).
    destruct (drop 2 processArgv) as [|a args] eqn:Hargs; cbn [length Nat.eqb].
    + split; [split; [discriminate|by intros ?%Hkey]|].
      split; [|discriminate]. split; [|done]. intros _. split; [by eexists|].
      intros pth Hin. by apply elem_of_nil in Hin.
    + destruct (validAmong fs (a :: args) []) as [|p valid] eqn:Hvalid; cbn [length Nat.eqb].
      * split; [split; [discriminate|by intros ?%Hkey]|].
        split; [|discriminate]. split; [|done]. intros _. split; [by eexists|].
        by apply Hnone.
      * split; [split; [discriminate|by intros ?%Hkey]|]. split.
        { split; [discriminate|]. intros [_ Hall]. apply Hnone in Hall. discriminate. }
        intros validImagePaths σ' [= <- <-]. split; [discriminate|]. split; [done|].
        split; [done|]. intros format. unfold mainPool. by rewrite Hv.
  - split; [split; [by left|done]|]. split; [|discriminate].
    split; [discriminate|]. by intros [(key & [=] & _) _].
Qed.
End StartOfMain.

(** ** Tasks that do not meet *)

Section Unhindered.

Import Race.
Context `{ChangeCase} `{PathModule}.
Variable fs : gmap string Node.
Variable format : Format.
Variable net : nat -> string -> option Response.
Variable N : nat.
Variable dest : string -> string.
Variable paths : list string.
Hypothesis different : differentFiles paths.
Hypothesis described : forall i own, paths !! i = Some own ->
  exists node, Contending fs format (dest own) (taskOf net i own node).
Hypothesis free : forall own, own ∈ paths -> fs !! locate (dest own) = None.
Hypothesis apart : forall own own', own ∈ paths -> own' ∈ paths ->
  locate (dest own) = locate (dest own') -> own = own'.

Lemma poolStep_unhindered i c c' :
  Unhindered fs format net dest paths c ->
  poolStep net N i c = Some c' ->
  Unhindered fs format net dest paths c'.
Proof.
  intros (Hlen & phase & Hslots & Hlines) Hstep. unfold poolStep in Hstep.
  destruct (slots c !! i) as [s|] eqn:Hi; [|discriminate].
  assert (Hown : exists own, paths !! i = Some own).
  { apply lookup_lt_is_Some. rewrite <- Hlen. by eapply lookup_lt_Some. }
  destruct Hown as [own Hown].
  destruct (described i own Hown) as (node & Hcont).
  assert (Hnode : fs !! locate own = Some node) by (by destruct Hcont).
  assert (Hin : own ∈ paths) by (by eapply list_elem_of_lookup_2).
  pose proof (free own Hin) as Hfree.
  destruct (Hslots i own node Hown Hnode) as (Hs & Hlost & Hfiles).
  rewrite Hs in Hi. injection Hi as <-.
  set (t := taskOf net i own node) in *.
  assert (Hmove : forall ph', lost ph' = false ->
            slots c' = <[i := slotAt format (dest own) t ph']> (slots c) ->
            (forall line, line ∈ progress (world c') ->
               line ∈ progress (world c) \/
               (ph' = Won /\ outcome line = Success (dest own) /\ image line = own)) ->
            (files (world c') = files (world c) /\ won ph' = won (phase i) \/
             won (phase i) = false /\ won ph' = true /\
             files (world c') =
               <[locate (dest own) := node]> (delete (locate own) (files (world c)))) ->
            Unhindered fs format net dest paths c').
  { intros ph' Hlost' Hslots' Hlines' Hfiles'. split.
    { rewrite Hslots', length_insert. exact Hlen. }
    exists (fun j => if decide (j = i) then ph' else phase j). split.
    - intros j own_j node_j Hpj Hnj. destruct (decide (j = i)) as [->|Hji].
      + assert (own_j = own) as -> by congruence.
        assert (node_j = node) as -> by congruence.
        split; [rewrite Hslots'; apply list_lookup_insert_eq; rewrite Hlen; by eapply lookup_lt_Some|].
        split; [exact Hlost'|].
        destruct Hfiles' as [[-> ->] | (Hw & -> & ->)]; [exact Hfiles|].
        rewrite Hw in Hfiles. destruct Hfiles as [_ Hd].
        assert (locate own <> locate (dest own))
          by (intros Heq; rewrite <- Heq in Hfree; congruence).
        rewrite lookup_insert_eq, lookup_insert_ne by done. by rewrite lookup_delete_eq.
      + destruct (Hslots j own_j node_j Hpj Hnj) as (Hsj & Hlj & Hfj).
        split; [rewrite Hslots'; by rewrite list_lookup_insert_ne|].
        split; [exact Hlj|].
        destruct Hfiles' as [[-> _] | (_ & _ & ->)]; [exact Hfj|].
        assert (Hinj : own_j ∈ paths) by (by eapply list_elem_of_lookup_2).
        assert (locate own_j <> locate own) by (intros Heq; apply Hji; by eapply different).
        assert (locate (dest own_j) <> locate (dest own)).
        { intros Heq. apply apart in Heq; [|done..]. subst own_j.
          apply Hji. by eapply different. }
        assert (locate own_j <> locate (dest own))
          by (intros Heq; rewrite <- Heq in Hfree; congruence).
        assert (locate (dest own_j) <> locate own)
          by (intros Heq; pose proof (free own_j Hinj) as Hf; rewrite Heq in Hf; congruence).
        rewrite !lookup_insert_ne, !lookup_delete_ne by done. exact Hfj.
    - intros line Hline. destruct (Hlines' line Hline) as [Hold|(_ & -> & ->)]; auto. }
  destruct (phase i) eqn:Hph; try discriminate; cbn [slotAt] in Hstep.
  all: cbn [won] in Hfiles.
  - destruct (_ <? _); [|discriminate]. injection Hstep as <-.
    apply (Hmove Reading); cbn; auto.
  - destruct Hfiles as [Hf _].
    pose proof (step_Reading fs format (dest own) t Hcont (world c) Hf) as Hst.
    change (answers t) with (net i) in Hst. rewrite Hst in Hstep. injection Hstep as <-.
    apply (Hmove Describing); cbn; auto.
  - pose proof (step_Describing fs format (dest own) t Hcont Hfree (world c)) as Hst.
    change (answers t) with (net i) in Hst. rewrite Hst in Hstep. injection Hstep as <-.
    apply (Hmove Locking); cbn; auto.
  - pose proof (step_Locking format (dest own) t (world c)) as Hst.
    change (answers t) with (net i) in Hst. rewrite Hst in Hstep.
    destruct (locked (world c)); [discriminate|]. injection Hstep as <-.
    apply (Hmove Checking); cbn; auto.
  - destruct Hfiles as [_ Hd].
    pose proof (step_Checking_free format (dest own) t (world c) Hd) as Hst.
    change (answers t) with (net i) in Hst. rewrite Hst in Hstep. injection Hstep as <-.
    apply (Hmove Renaming); cbn; auto.
  - destruct Hfiles as [Hf Hd].
    pose proof (step_Renaming fs format (dest own) t Hcont (world c) Hf Hd) as Hst.
    change (answers t) with (net i) in Hst. rewrite Hst in Hstep. injection Hstep as <-.
    apply (Hmove ReleasingWon); cbn; auto.
  - pose proof (step_ReleasingWon format (dest own) t (world c)) as Hst.
    change (answers t) with (net i) in Hst. rewrite Hst in Hstep. injection Hstep as <-.
    apply (Hmove ReportingWon); cbn; auto.
  - pose proof (step_ReportingWon format (dest own) t (world c)) as Hst.
    change (answers t) with (net i) in Hst. rewrite Hst in Hstep. injection Hstep as <-.
    apply (Hmove Won); cbn; auto.
    intros line [Hl|Hl%list_elem_of_singleton]%elem_of_app; [by left|]. right. by subst line.
Qed.

End Unhindered.

Lemma tally_all_success (l : list ProcessResult) :
  Forall (fun o => status o = success) l ->
  tally l = {| ofSuccess := length l; ofSkipped := 0; ofError := 0 |}.
Proof.
  induction l as [|o l IH] using rev_ind; [done|].
  intros [Hl Ho%Forall_inv]%Forall_app. cbv beta in Ho.
  rewrite tally_snoc, (IH Hl), Ho, length_app. simpl. f_equal. lia.
Qed.

Section UnhinderedRun.

Context `{ChangeCase} `{PathModule}.


End UnhinderedRun.


End Theorems.

(** ** The theorems at concrete inputs *)

Section Examples.

#[local] Existing Instance ChangeCaseAscii.instance.
#[local] Existing Instance PathPosix.instance.
#[local] Existing Instance PathPosix.locations.



(** C2, counterexample.  The new path is a directory: it is no regular
    file, [fs.rename] is called and fails; the critical section ends in
    an exception and [processImage] returns [error], not [success]. *)
Lemma rename_onto_directory_counterexample :
  Fs.stat Example.withFolder (locate "red_car.jpg") = Some {| isFile := false |} /\
  fst (exec (Example.redCar 0) (Await.runExclusive (checkThenRename "cat.jpg" "red_car.jpg"))
         (initialWorld Example.withFolder)) = Thrown /\
  fst (exec (Example.redCar 0) (processImage "cat.jpg" snake)
         (initialWorld Example.withFolder)) = Returned Error /\
  calls (snd (exec (Example.redCar 0) (processImage "cat.jpg" snake)
                (initialWorld Example.withFolder))) =
    [CallReadFile "cat.jpg"; CallFetch "data:image/jpeg;base64,Yw==";
     CallStat "red_car.jpg"; CallRename "cat.jpg" "red_car.jpg"].
Proof. repeat split; vm_compute; reflexivity. Qed.

(** C2 at an image whose new path is free: the rename is made. *)
Lemma check_then_rename_witness :
  locked (initialWorld Example.oneImage) = false /\
  exists o σ',
    exec (Example.redCar 0) (Await.runExclusive (checkThenRename "cat.jpg" "red_car.jpg"))
      (initialWorld Example.oneImage) = (o, σ') /\
    locked σ' = false /\
    match Fs.stat (files (initialWorld Example.oneImage)) (locate "red_car.jpg") with
    | Some {| isFile := true |} =>
        o = Returned Skipped /\ files σ' = files (initialWorld Example.oneImage) /\
        callsSince (initialWorld Example.oneImage) σ' = [CallStat "red_car.jpg"]
    | _ =>
        callsSince (initialWorld Example.oneImage) σ' =
          [CallStat "red_car.jpg"; CallRename "cat.jpg" "red_car.jpg"] /\
        match Fs.rename (files (initialWorld Example.oneImage)) (locate "cat.jpg")
                (locate "red_car.jpg") with
        | Some fs' => o = Returned (Success "red_car.jpg") /\ files σ' = fs'
        | None => o = Thrown /\ files σ' = files (initialWorld Example.oneImage)
        end
    end.
Proof.
  split; [reflexivity|].
  apply (check_then_rename "cat.jpg" "red_car.jpg" (Example.redCar 0)
           (initialWorld Example.oneImage)).
  reflexivity.
Defined.

(** C3 at a concrete run of [main] on two images and a path that is
    filtered out. *)
Lemma scheduler_counts_every_path_witness :
  exists c0 c,
    mainPool Example.twoImages ["cat.jpg"; "anim.gif"; "dog.jpg"] snake = Some c0 /\
    runSchedule Example.redCar 2 Example.interleaved c0 = Some c /\
    completed c = true /\
    exists validImagePaths,
      fst (validImagePathsOf Example.twoImages ["cat.jpg"; "anim.gif"; "dog.jpg"]) =
        Returned validImagePaths /\
      NoDup validImagePaths /\
      ofSuccess (results (world c)) + ofSkipped (results (world c)) +
        ofError (results (world c)) = length validImagePaths /\
      done (world c) = length validImagePaths /\
      map image (progress (world c)) ≡ₚ validImagePaths /\
      results (world c) = tally (map outcome (progress (world c))).
Proof.
  eexists. eexists.
  split; [apply mainPool_start; vm_compute; reflexivity|].
  split; [vm_compute; reflexivity|].
  split; [reflexivity|].
  eapply (scheduler_counts_every_path Example.twoImages
            ["cat.jpg"; "anim.gif"; "dog.jpg"] snake Example.redCar 2 Example.interleaved).
  - apply mainPool_start; vm_compute; reflexivity.
  - vm_compute; reflexivity.
  - reflexivity.
Defined.

(** C4, counterexample.  The service answers with blanks only: the text
    is empty once trimmed, and [processImage] returns [error], not
    [skipped]. *)
Lemma blank_description_counterexample :
  JS.trim "   " = "" /\
  fst (exec (fun _ => Example.describes "   ") (processImage "cat.jpg" snake)
         (initialWorld Example.oneImage)) = Returned Error /\
  fst (exec (fun _ => Example.describes "   ") (processImage "cat.jpg" snake)
         (initialWorld Example.oneImage)) <> Returned Skipped.
Proof. repeat split; try (vm_compute; reflexivity). vm_compute. discriminate. Qed.

(** C4 at the same answer of blanks. *)
Lemma empty_description_is_error_witness :
  exists response body,
    Example.describes "   " = Some response /\
    ok response = true /\ json response = Some body /\
    trimmedContent body = Some "" /\
    exists σ',
      exec (fun _ => Example.describes "   ") (processImage "cat.jpg" snake)
        (initialWorld Example.oneImage) = (Returned Error, σ') /\
      files σ' = files (initialWorld Example.oneImage) /\
      noRename (callsSince (initialWorld Example.oneImage) σ').
Proof.
  eexists. eexists.
  split; [reflexivity|]. split; [reflexivity|]. split; [reflexivity|].
  split; [reflexivity|].
  eapply (empty_description_is_error "cat.jpg" snake (fun _ => Example.describes "   ")
            (initialWorld Example.oneImage)); reflexivity.
Defined.

(** C5 at a request that times out. *)
Lemma failed_description_is_error_witness :
  (forall imageBase64 : string, DescribeFailure ((fun _ => None) imageBase64)) /\
  exists σ',
    exec (fun _ => None) (processImage "cat.jpg" snake)
      (initialWorld Example.oneImage) = (Returned Error, σ') /\
    files σ' = files (initialWorld Example.oneImage) /\
    noRename (callsSince (initialWorld Example.oneImage) σ').
Proof.
  split; [intros _; constructor|].
  apply (failed_description_is_error "cat.jpg" snake (fun _ => None)
           (initialWorld Example.oneImage)).
  intros _. constructor.
Defined.

(** C8 at an image that already has the name its description gives. *)
Lemma same_path_is_skipped_witness :
  Fs.readFile (files (initialWorld Example.named)) (locate "red_car.jpg") = Some "r" /\
  usableText (Example.redCar 0 (dataUrlOf "red_car.jpg" "r")) = Some "red car" /\
  newFilePathOf "red_car.jpg" (convertCase "red car" snake) = "red_car.jpg" /\
  exists σ',
    exec (Example.redCar 0) (processImage "red_car.jpg" snake)
      (initialWorld Example.named) = (Returned Skipped, σ') /\
    files σ' = files (initialWorld Example.named) /\
    noRename (callsSince (initialWorld Example.named) σ').
Proof.
  split; [reflexivity|]. split; [reflexivity|]. split; [reflexivity|].
  apply (same_path_is_skipped "red_car.jpg" snake (Example.redCar 0)
           (initialWorld Example.named) "r" "red car");
    reflexivity.
Defined.

(** C9 at a path with an extension that is not allowed, in a run of
    [main] on that path, two images and a path that does not exist. *)
Lemma filter_excludes_before_scheduling_witness :
  (allowedExtension "anim.gif" = false \/ readableFile Example.withGif "anim.gif" = false) /\
  exists validImagePaths σ c0 c,
    validImagePathsOf Example.withGif ["cat.jpg"; "anim.gif"; "missing.png"; "dog.jpg"] =
      (Returned validImagePaths, σ) /\
    validImagePaths = ["cat.jpg"; "dog.jpg"] /\
    files σ = Example.withGif /\
    mainPool Example.withGif ["cat.jpg"; "anim.gif"; "missing.png"; "dog.jpg"] snake =
      Some c0 /\
    runSchedule Example.redCar 2 Example.interleaved c0 = Some c /\
    completed c = true /\
    ("anim.gif" ∉ map image (progress (world c))) /\
    results (world c) = tally (map outcome (progress (world c))).
Proof.
  assert (Hbad : allowedExtension "anim.gif" = false \/
                 readableFile Example.withGif "anim.gif" = false)
    by (left; reflexivity).
  split; [exact Hbad|].
  destruct (filter_excludes_before_scheduling Example.withGif
              ["cat.jpg"; "anim.gif"; "missing.png"; "dog.jpg"] "anim.gif" snake
              Example.redCar 2 Example.interleaved Hbad)
    as (validImagePaths & σ & Hvalid & Hfiles & _ & _ & Hrun).
  assert (Hstart : validImagePathsOf Example.withGif
                     ["cat.jpg"; "anim.gif"; "missing.png"; "dog.jpg"] =
                   (Returned ["cat.jpg"; "dog.jpg"],
                    snd (validImagePathsOf Example.withGif
                           ["cat.jpg"; "anim.gif"; "missing.png"; "dog.jpg"])))
    by (vm_compute; reflexivity).
  assert (Hmain := mainPool_start _ _ snake _ _ _ Hstart).
  assert (Hex : exists c,
            runSchedule Example.redCar 2 Example.interleaved
              (startPool ["cat.jpg"; "dog.jpg"] snake
                 (snd (validImagePathsOf Example.withGif
                         ["cat.jpg"; "anim.gif"; "missing.png"; "dog.jpg"]))) = Some c /\
            completed c = true)
    by (eexists; split; [vm_compute; reflexivity | reflexivity]).
  destruct Hex as (c & Hc & Hdone).
  destruct (Hrun _ c Hmain Hc) as [Hnot Htally].
  exists validImagePaths, σ. eexists. exists c.
  split; [exact Hvalid|]. split; [congruence|]. split; [exact Hfiles|].
  split; [exact Hmain|]. split; [exact Hc|]. split; [exact Hdone|].
  split; [exact Hnot | exact Htally].
Defined.

(** C10 at a run in which the read fails: the [try] block throws, and
    [processImage] returns [error]. *)
Lemma processImage_contains_every_fault_witness :
  locked (initialWorld ∅) = false /\
  fst (exec (Example.redCar 0) (processImageTry "gone.jpg" snake) (initialWorld ∅)) = Thrown /\
  Returns (processImage "gone.jpg" snake) /\
  exec (Example.redCar 0) (processImage "gone.jpg" snake) (initialWorld ∅) =
    match exec (Example.redCar 0) (processImageTry "gone.jpg" snake) (initialWorld ∅) with
    | (Thrown, σ') => (Returned Error, σ')
    | other => other
    end /\
  exists (result : ProcessResult) (σ' : World),
    exec (Example.redCar 0) (processImage "gone.jpg" snake) (initialWorld ∅) =
      (Returned result, σ') /\
    locked σ' = false /\
    (status result = success \/ status result = skipped \/ status result = error).
Proof.
  split; [reflexivity|]. split; [reflexivity|].
  apply (processImage_contains_every_fault "gone.jpg" snake (Example.redCar 0) (initialWorld ∅)).
  reflexivity.
Defined.

End Examples.

(** ** The further properties at concrete inputs *)

Section FurtherExamples.

#[local] Existing Instance ChangeCaseAscii.instance.
#[local] Existing Instance PathPosix.instance.
#[local] Existing Instance PathPosix.locations.

(** X1 at the image [cat.jpg], described as "red car", with a FIFO at
    [red_car.jpg]: the [stat] finds no regular file, the rename succeeds
    and puts the image in the place of the FIFO. *)
Lemma processImage_renames_witness :
  Fs.stat Example.withPipe (locate "red_car.jpg") = Some {| isFile := false |} /\
  newFilePathOf "cat.jpg" (convertCase "red car" snake) = "red_car.jpg" /\
  exists σ',
    exec (Example.redCar 0) (processImage "cat.jpg" snake) (initialWorld Example.withPipe) =
      (Returned (Success (newFilePathOf "cat.jpg" (convertCase "red car" snake))), σ') /\
    files σ' = {[ "red_car.jpg" := Example.photo "c" ]} /\
    callsSince (initialWorld Example.withPipe) σ' =
      pipelineCalls "cat.jpg" (dataUrlOf "cat.jpg" "c")
        (newFilePathOf "cat.jpg" (convertCase "red car" snake)).
Proof.
  split; [vm_compute; reflexivity|]. split; [vm_compute; reflexivity|].
  destruct (processImage_renames "cat.jpg" snake (Example.redCar 0)
              (initialWorld Example.withPipe) "c" "red car"
              {[ "red_car.jpg" := Example.photo "c" ]})
    as (σ' & Hexec & Hfiles & _ & _ & _ & Hcalls & _).
  - reflexivity.
  - vm_compute; reflexivity.
  - vm_compute; reflexivity.
  - vm_compute; discriminate.
  - vm_compute; discriminate.
  - vm_compute; reflexivity.
  - vm_compute; reflexivity.
  - exists σ'. split; [exact Hexec|]. split; [exact Hfiles | exact Hcalls].
Defined.

(** X2 at the same image and FIFO. *)
Lemma processImage_all_or_nothing_witness :
  locked (initialWorld Example.withPipe) = false /\
  exists (result : ProcessResult) (σ' : World),
    exec (Example.redCar 0) (processImage "cat.jpg" snake) (initialWorld Example.withPipe) =
      (Returned result, σ') /\
    match result with
    | Success newPath =>
        newPath <> "cat.jpg" /\
        is_Some (Fs.readFile (files (initialWorld Example.withPipe)) (locate "cat.jpg")) /\
        noFile (Fs.stat (files (initialWorld Example.withPipe)) (locate newPath)) = true /\
        Fs.rename (files (initialWorld Example.withPipe)) (locate "cat.jpg") (locate newPath) =
          Some (files σ')
    | _ => files σ' = files (initialWorld Example.withPipe)
    end /\
    (forall location n, location <> locate "cat.jpg" ->
       files (initialWorld Example.withPipe) !! location = Some n ->
       isRegular n || isDirectory n = true ->
       files σ' !! location = Some n).
Proof.
  split; [reflexivity|].
  apply (processImage_all_or_nothing "cat.jpg" snake (Example.redCar 0)
           (initialWorld Example.withPipe)).
  reflexivity.
Defined.

(** X3 at a description made of punctuation only. *)
Lemma empty_name_is_skipped_witness :
  Fs.readFile (files (initialWorld Example.oneImage)) (locate "cat.jpg") = Some "c" /\
  usableText (Example.describes " ?! ") = Some "?!" /\
  convertCase "?!" snake = "" /\
  exists σ',
    exec (fun _ => Example.describes " ?! ") (processImage "cat.jpg" snake)
      (initialWorld Example.oneImage) = (Returned Skipped, σ') /\
    files σ' = files (initialWorld Example.oneImage) /\
    locked σ' = locked (initialWorld Example.oneImage) /\
    callsSince (initialWorld Example.oneImage) σ' =
      [CallReadFile "cat.jpg"; CallFetch (dataUrlOf "cat.jpg" "c")].
Proof.
  split; [vm_compute; reflexivity|]. split; [vm_compute; reflexivity|].
  split; [vm_compute; reflexivity|].
  apply (empty_name_is_skipped "cat.jpg" snake (fun _ => Example.describes " ?! ")
           (initialWorld Example.oneImage) "c" "?!");
    vm_compute; reflexivity.
Defined.

(** X4 at a path where a directory is. *)
Lemma unreadable_image_is_error_witness :
  Fs.readFile (files (initialWorld Example.withFolder)) (locate "red_car.jpg") = None /\
  exists σ',
    exec (Example.redCar 0) (processImage "red_car.jpg" snake)
      (initialWorld Example.withFolder) = (Returned Error, σ') /\
    files σ' = files (initialWorld Example.withFolder) /\
    locked σ' = locked (initialWorld Example.withFolder) /\
    callsSince (initialWorld Example.withFolder) σ' = [CallReadFile "red_car.jpg"].
Proof.
  split; [vm_compute; reflexivity|].
  apply (unreadable_image_is_error "red_car.jpg" snake (Example.redCar 0)
           (initialWorld Example.withFolder)).
  vm_compute; reflexivity.
Defined.

(** X5 at the image [cat.jpg] with a file already at [red_car.jpg]: the
    calls stop after the [stat]. *)
Lemma processImage_calls_in_order_witness :
  locked (initialWorld Example.taken) = false /\
  callsSince (initialWorld Example.taken)
    (snd (exec (Example.redCar 0) (processImage "cat.jpg" snake)
            (initialWorld Example.taken))) =
    [CallReadFile "cat.jpg"; CallFetch (dataUrlOf "cat.jpg" "c"); CallStat "red_car.jpg"] /\
  exists (result : ProcessResult) (σ' : World) (imageBase64 newFilePath : string),
    exec (Example.redCar 0) (processImage "cat.jpg" snake) (initialWorld Example.taken) =
      (Returned result, σ') /\
    callsSince (initialWorld Example.taken) σ'
      `prefix_of` pipelineCalls "cat.jpg" imageBase64 newFilePath /\
    (forall newPath, result = Success newPath ->
       newPath = newFilePath /\
       callsSince (initialWorld Example.taken) σ' =
         pipelineCalls "cat.jpg" imageBase64 newFilePath).
Proof.
  split; [reflexivity|]. split; [vm_compute; reflexivity|].
  apply (processImage_calls_in_order "cat.jpg" snake (Example.redCar 0)
           (initialWorld Example.taken)).
  reflexivity.
Defined.

(** X6 at a path whose extension is written in capitals. *)
Lemma imageToBase64_media_type_witness :
  allowedExtension "photo.JPG" = true /\
  exists subtype,
    (JS.toLowerCase (extname "photo.JPG") = ".png" /\ subtype = "png" \/
     JS.toLowerCase (extname "photo.JPG") = ".jpg" /\ subtype = "jpeg" \/
     JS.toLowerCase (extname "photo.JPG") = ".jpeg" /\ subtype = "jpeg" \/
     JS.toLowerCase (extname "photo.JPG") = ".webp" /\ subtype = "webp") /\
    exec (Example.redCar 0) (imageToBase64 "photo.JPG") (initialWorld Example.oneImage) =
      (match Fs.readFile (files (initialWorld Example.oneImage)) (locate "photo.JPG") with
       | Some imageBuffer =>
           Returned ("data:image/" +:+ subtype +:+ ";base64," +:+ Base64.encode imageBuffer)
       | None => Thrown
       end, called (CallReadFile "photo.JPG") (initialWorld Example.oneImage)).
Proof.
  split; [reflexivity|].
  apply (imageToBase64_media_type "photo.JPG" (Example.redCar 0)
           (initialWorld Example.oneImage)).
  reflexivity.
Defined.

(** X11 at a command line with a path that is filtered out and a path
    given twice. *)
Lemma filter_is_idempotent_witness :
  validImagePathsOf Example.withGif ["dog.jpg"; "anim.gif"; "cat.jpg"; "dog.jpg"] =
    (Returned ["dog.jpg"; "cat.jpg"],
     snd (validImagePathsOf Example.withGif ["dog.jpg"; "anim.gif"; "cat.jpg"; "dog.jpg"])) /\
  fst (validImagePathsOf Example.withGif ["dog.jpg"; "cat.jpg"]) =
    Returned ["dog.jpg"; "cat.jpg"].
Proof.
  assert (Hrun : validImagePathsOf Example.withGif
                   ["dog.jpg"; "anim.gif"; "cat.jpg"; "dog.jpg"] =
                 (Returned ["dog.jpg"; "cat.jpg"],
                  snd (validImagePathsOf Example.withGif
                         ["dog.jpg"; "anim.gif"; "cat.jpg"; "dog.jpg"])))
    by (vm_compute; reflexivity).
  split; [exact Hrun|].
  exact (filter_is_idempotent Example.withGif ["dog.jpg"; "anim.gif"; "cat.jpg"; "dog.jpg"]
           ["dog.jpg"; "cat.jpg"] _ Hrun).
Defined.

(** The run of the examples below: [main] on two images and a path that
    is filtered out, every image described as "red car", the tasks
    taking turns. *)
Ltac example_run :=
  eexists; eexists;
  split; [apply mainPool_start; vm_compute; reflexivity|];
  split; [vm_compute; reflexivity|].

Ltac example_run_hypotheses :=
  [> apply mainPool_start; vm_compute; reflexivity | vm_compute; reflexivity ].

(** X13 at this run, stopped while the first task is in the critical
    section. *)
Lemma one_task_in_critical_section_witness :
  exists c0 c,
    mainPool Example.twoImages ["cat.jpg"; "anim.gif"; "dog.jpg"] snake = Some c0 /\
    runSchedule Example.redCar 2 [0; 1; 0; 1; 0; 1; 0] c0 = Some c /\
    locked (world c) = true /\
    holders (slots c) = (if locked (world c) then 1 else 0) /\
    forall i j p q,
      slots c !! i = Some (Running p) -> slots c !! j = Some (Running q) ->
      holdsMutex p = true -> holdsMutex q = true ->
      i = j.
Proof.
  example_run. split; [reflexivity|].
  eapply (one_task_in_critical_section Example.twoImages
            ["cat.jpg"; "anim.gif"; "dog.jpg"] snake Example.redCar 2
            [0; 1; 0; 1; 0; 1; 0]);
    example_run_hypotheses.
Defined.

(** X14 at the whole run. *)
Lemma progress_lines_are_numbered_witness :
  exists c0 c,
    mainPool Example.twoImages ["cat.jpg"; "anim.gif"; "dog.jpg"] snake = Some c0 /\
    runSchedule Example.redCar 2 Example.interleaved c0 = Some c /\
    map doneSoFar (progress (world c)) = [1; 2] /\
    map doneSoFar (progress (world c)) = seq 1 (length (progress (world c))) /\
    done (world c) = length (progress (world c)) /\
    done (world c) <= length (validAmong Example.twoImages ["cat.jpg"; "anim.gif"; "dog.jpg"] []) /\
    (completed c = true ->
     done (world c) = length (validAmong Example.twoImages ["cat.jpg"; "anim.gif"; "dog.jpg"] [])).
Proof.
  example_run. split; [reflexivity|].
  eapply (progress_lines_are_numbered Example.twoImages
            ["cat.jpg"; "anim.gif"; "dog.jpg"] snake Example.redCar 2 Example.interleaved);
    example_run_hypotheses.
Defined.

(** X15 at the whole run. *)
Lemma no_call_is_repeated_witness :
  exists c0 c,
    mainPool Example.twoImages ["cat.jpg"; "anim.gif"; "dog.jpg"] snake = Some c0 /\
    runSchedule Example.redCar 2 Example.interleaved c0 = Some c /\
    times isFetchCall (calls (world c)) = 2 /\
    times isFetchCall (calls (world c)) <=
      length (validAmong Example.twoImages ["cat.jpg"; "anim.gif"; "dog.jpg"] []) /\
    forall p,
      times (isReadOf p) (calls (world c)) <= 1 /\
      times (isRenameOf p) (calls (world c)) <= 1 /\
      (p ∉ validAmong Example.twoImages ["cat.jpg"; "anim.gif"; "dog.jpg"] [] ->
       times (isReadOf p) (calls (world c)) = 0 /\
       times (isRenameOf p) (calls (world c)) = 0).
Proof.
  example_run. split; [reflexivity|].
  eapply (no_call_is_repeated Example.twoImages
            ["cat.jpg"; "anim.gif"; "dog.jpg"] snake Example.redCar 2 Example.interleaved);
    example_run_hypotheses.
Defined.


(** The two images of the examples are different files. *)
Ltac two_different_files Hvalid :=
  rewrite Hvalid;
  let i := fresh "i" in let j := fresh "j" in
  let Hi := fresh "Hi" in let Hj := fresh "Hj" in let Hsame := fresh "Hsame" in
  intros i j ? ? Hi Hj Hsame;
  destruct i as [|[|i]]; simpl in Hi; try discriminate Hi;
  destruct j as [|[|j]]; simpl in Hj; try discriminate Hj;
  try reflexivity;
  injection Hi as <-; injection Hj as <-; vm_compute in Hsame; discriminate Hsame.


(** X18 at the answer [ 3abc]. *)
Lemma validate_accepts_positive_integers_witness :
  allWhiteSpace " " = true /\ startsWithDigit "abc" = false /\
  " " +:+ decimal 3 +:+ "abc" = " 3abc" /\
  Prompt.parseInt (" " +:+ decimal 3 +:+ "abc") =
    (if (Z.of_nat 3 <=? 2 ^ 53)%Z then Prompt.Integer (Z.of_nat 3)
     else Prompt.Huge false) /\
  (Prompt.validate (" " +:+ decimal 3 +:+ "abc") = None <-> 1 <= 3) /\
  Prompt.validate (" " +:+ "-" +:+ decimal 3 +:+ "abc") <> None /\
  Prompt.validate " " <> None.
Proof.
  split; [reflexivity|]. split; [reflexivity|]. split; [reflexivity|].
  apply (validate_accepts_positive_integers 3 " " "abc"); reflexivity.
Defined.

(** X22 at the run stopped while the first task is in the critical
    section and the second waits for the mutex. *)
Lemma scheduler_can_complete_witness :
  1 <= 2 /\
  exists c0 c,
    mainPool Example.twoImages ["cat.jpg"; "anim.gif"; "dog.jpg"] snake = Some c0 /\
    runSchedule Example.redCar 2 [0; 1; 0; 1; 0; 1; 0] c0 = Some c /\
    exists rest c',
      runSchedule Example.redCar 2 rest c = Some c' /\ completed c' = true.
Proof.
  split; [lia|]. example_run.
  eapply (scheduler_can_complete Example.twoImages ["cat.jpg"; "anim.gif"; "dog.jpg"]
            snake Example.redCar 2 [0; 1; 0; 1; 0; 1; 0]);
    [lia | apply mainPool_start; vm_compute; reflexivity | vm_compute; reflexivity].
Defined.

(** X23 at a run in which every request times out. *)
Lemma no_task_throws_witness :
  exists c0 c,
    mainPool Example.twoImages ["cat.jpg"; "anim.gif"; "dog.jpg"] snake = Some c0 /\
    runSchedule (fun _ _ => None) 2 [0; 0; 0; 0; 1; 1; 1; 1] c0 = Some c /\
    completed c = true /\
    Forall (fun s => s <> Running Throw) (slots c).
Proof.
  example_run. split; [reflexivity|].
  eapply (no_task_throws Example.twoImages ["cat.jpg"; "anim.gif"; "dog.jpg"]
            snake (fun _ _ => None) 2 [0; 0; 0; 0; 1; 1; 1; 1]);
    example_run_hypotheses.
Defined.

(** X24 at the whole run: fifteen steps for two valid paths. *)
Lemma scheduler_terminates_witness :
  exists c0 c,
    mainPool Example.twoImages ["cat.jpg"; "anim.gif"; "dog.jpg"] snake = Some c0 /\
    runSchedule Example.redCar 2 Example.interleaved c0 = Some c /\
    length Example.interleaved = 15 /\
    length Example.interleaved <=
      8 * length (validAmong Example.twoImages ["cat.jpg"; "anim.gif"; "dog.jpg"] []).
Proof.
  example_run. split; [reflexivity|].
  eapply (scheduler_terminates Example.twoImages ["cat.jpg"; "anim.gif"; "dog.jpg"]
            snake Example.redCar 2 Example.interleaved);
    example_run_hypotheses.
Defined.



End FurtherExamples.
